(** * jsonapi: the marshaling engine and the time codecs

    A shallow embedding of [response.go] and [attributes.go].  Go values
    reached through reflection are an inductive type [Value]; the
    [included] map shared by one marshal call is a [gmap] threaded through
    the traversal; a run-time panic of the Go program is an outcome of its
    own, next to a returned value and a returned error. *)

From Stdlib Require Import ZArith String Ascii List Lia.
From Stdlib Require Import DecimalString DecimalPos.
From stdpp Require Import gmap strings list fin_maps.

Set Warnings "-register-all".
Local Open Scope Z_scope.
Local Open Scope string_scope.

(* ===================================================================== *)
(** * Part I: definitions                                                *)
(* ===================================================================== *)

(** ** Go primitives: strings and integers *)

(** [strings.Split(s, sep)] for a one-character separator: one component
    more than there are separators, never an empty result. *)
Fixpoint Split (s : string) (sep : ascii) : list string :=
  match s with
  | EmptyString => [EmptyString]
  | String c s' =>
      if Ascii.eqb c sep then EmptyString :: Split s' sep
      else match Split s' sep with
           | x :: xs => String c x :: xs
           | [] => [String c EmptyString]
           end
  end.

(** Two's-complement wrap-around of [int64] arithmetic. *)
Definition wrap64 (z : Z) : Z := (z + 2 ^ 63) mod 2 ^ 64 - 2 ^ 63.

Definition minInt64 : Z := - 2 ^ 63.
Definition maxInt64 : Z := 2 ^ 63 - 1.

(** [strconv.FormatInt(n, 10)], also [strconv.Itoa] and [FormatUint]. *)
Definition FormatInt (n : Z) : string := NilZero.string_of_int (Z.to_int n).

Inductive NumError := ErrSyntax | ErrRange.

(** [strconv.ParseInt(s, 10, 64)]: an optional sign, then at least one
    decimal digit and nothing else; the value must fit an [int64]. *)
Definition ParseInt (s : string) : NumError + Z :=
  match s with
  | EmptyString => inl ErrSyntax
  | String c s' =>
      let neg := Ascii.eqb c "-" in
      let digits := if Ascii.eqb c "+" || neg then s' else s in
      match NilZero.uint_of_string digits with
      | None => inl ErrSyntax
      | Some d =>
          let un := Z.of_uint d in
          if negb neg && (2 ^ 63 <=? un)%Z then inl ErrRange
          else if neg && (2 ^ 63 <? un)%Z then inl ErrRange
          else inr (if neg then - un else un)
      end
  end.

(** ** Go primitives: [time.Time] *)

(** A [time.Time] by what the codecs observe of it: the seconds since the
    Unix epoch, the nanoseconds within that second, and the offset (seconds
    east of UTC) its location has at that instant. *)
Record Time := mkTime { unixSec : Z; nsec : Z; offset : Z }.

#[global] Instance Time_eq_dec : EqDecision Time.
Proof. solve_decision. Defined.

Definition UTC : Z := 0.

(** Seconds from January 1 of year 1 to the Unix epoch. *)
Definition unixToInternal : Z := 62135596800.

(** [time.Time{}]: January 1, year 1, 00:00:00 UTC. *)
Definition zeroTime : Time := mkTime (- unixToInternal) 0 UTC.

Definition IsZero (t : Time) : bool :=
  (unixSec t + unixToInternal =? 0)%Z && (nsec t =? 0)%Z.

Definition Unix (t : Time) : Z := unixSec t.

(** [t.UnixNano()]: computed in [int64], so it wraps outside 1678..2262. *)
Definition UnixNano (t : Time) : Z := wrap64 (unixSec t * 1000000000 + nsec t).

(** [time.Unix(sec, nsec)]: [nsec] outside [0, 1e9) is carried into [sec];
    the location is Local, whose offset at that second is [local sec]. *)
Definition time_Unix (local : Z -> Z) (sec nsec : Z) : Time :=
  if (nsec <? 0)%Z || (1000000000 <=? nsec)%Z then
    let n := Z.quot nsec 1000000000 in
    let sec := wrap64 (sec + n) in
    let nsec := nsec - n * 1000000000 in
    if (nsec <? 0)%Z then mkTime (wrap64 (sec - 1)) (nsec + 1000000000) (local (wrap64 (sec - 1)))
    else mkTime sec nsec (local sec)
  else mkTime sec nsec (local sec).

(** [t.In(loc)] for a location of fixed offset. *)
Definition In (t : Time) (loc : Z) : Time := mkTime (unixSec t) (nsec t) loc.

Definition Millisecond : Z := 1000000.

(** *** Calendar arithmetic of package [time] *)

(** Days since 1970-01-01 to the proleptic Gregorian (year, month, day),
    in 400-year eras of 146097 days that start on March 1. *)
Definition civilFromDays (days : Z) : Z * Z * Z :=
  let z := days + 719468 in
  let era := z / 146097 in
  let doe := z mod 146097 in
  let yoe := (doe - doe / 1460 + doe / 36524 - doe / 146096) / 365 in
  let doy := doe - (365 * yoe + yoe / 4 - yoe / 100) in
  let mp := (5 * doy + 2) / 153 in
  let d := doy - (153 * mp + 2) / 5 + 1 in
  let m := if (mp <? 10)%Z then mp + 3 else mp - 9 in
  (yoe + era * 400 + (if (m <=? 2)%Z then 1 else 0), m, d).

Definition daysFromCivil (year month day : Z) : Z :=
  let y := if (month <=? 2)%Z then year - 1 else year in
  let era := y / 400 in
  let yoe := y mod 400 in
  let mp := if (2 <? month)%Z then month - 3 else month + 9 in
  let doy := (153 * mp + 2) / 5 + day - 1 in
  let doe := yoe * 365 + yoe / 4 - yoe / 100 + doy in
  era * 146097 + doe - 719468.

Definition isLeap (year : Z) : bool :=
  (year mod 4 =? 0)%Z && (negb (year mod 100 =? 0)%Z || (year mod 400 =? 0)%Z).

Definition daysIn (month year : Z) : Z :=
  if (month =? 2)%Z then (if isLeap year then 29 else 28)
  else if (month =? 4)%Z || (month =? 6)%Z || (month =? 9)%Z || (month =? 11)%Z then 30
  else 31.

(** [time.Date(year, month, day, hour, min, sec, nsec, loc)] for fields
    already in range and a location of fixed offset. *)
Definition Date (year month day hour min sec nsec loc : Z) : Time :=
  mkTime (daysFromCivil year month day * 86400 + hour * 3600 + min * 60 + sec - loc)
         nsec loc.

(** *** [Time.Format] for the layout ["2006-01-02T15:04:05Z07:00"] *)

Definition digitChar (d : Z) : ascii := ascii_of_N (48 + Z.to_N d).

Definition isDigit (c : ascii) : bool :=
  (48 <=? N_of_ascii c)%N && (N_of_ascii c <=? 57)%N.

Definition digitVal (c : ascii) : Z := Z.of_N (N_of_ascii c) - 48.

(** The decimal digits of [u >= 0], least significant first. *)
Fixpoint utoaRev (fuel : nat) (u : Z) : list ascii :=
  match fuel with
  | O => []
  | S fuel' =>
      digitChar (u mod 10) ::
      (if (u / 10 =? 0)%Z then [] else utoaRev fuel' (u / 10))
  end.

(** [appendInt(b, x, width)]: a minus sign for a negative [x], then the
    digits of its magnitude, zero-padded on the left to [width]. *)
Definition appendInt (x : Z) (width : nat) : string :=
  let ds := rev (utoaRev 20 (Z.abs x)) in
  let padded := (repeat "0"%char (width - length ds) ++ ds)%list in
  (if (x <? 0)%Z then "-" else "") +:+ string_of_list_ascii padded.

(** The zone of the layout element [Z07:00]: [Z] for offset zero, else the
    sign, hours and minutes; seconds of the offset are dropped. *)
Definition formatZone (offset : Z) : string :=
  if (offset =? 0)%Z then "Z"
  else
    let zone := Z.quot offset 60 in
    (if (zone <? 0)%Z then "-" else "+") +:+
    appendInt (Z.quot (Z.abs zone) 60) 2 +:+ ":" +:+
    appendInt (Z.rem (Z.abs zone) 60) 2.

Definition iso8601Layout : string := "2006-01-02T15:04:05Z07:00".

(** [t.Format(iso8601Layout)] *)
Definition Format (t : Time) : string :=
  let abs := unixSec t + offset t in
  let '(year, month, day) := civilFromDays (abs / 86400) in
  let secs := abs mod 86400 in
  appendInt year 4 +:+ "-" +:+ appendInt month 2 +:+ "-" +:+ appendInt day 2 +:+ "T" +:+
  appendInt (secs / 3600) 2 +:+ ":" +:+ appendInt (secs mod 3600 / 60) 2 +:+ ":" +:+
  appendInt (secs mod 60) 2 +:+ formatZone (offset t).

(** *** [time.Parse] for the quoted layout *)

(** The double quote that [strconv.Quote] and [json.Marshal] put around a
    string. *)
Definition quoteChar : ascii := ascii_of_nat 34.

(** [skip(value, prefix)] for a one-character prefix. *)
Definition skip (value : string) (prefix : ascii) : option string :=
  match value with
  | String c rest => if Ascii.eqb c prefix then Some rest else None
  | EmptyString => None
  end.

(** [getnum(s, fixed)]: one or two digits, exactly two when [fixed]. *)
Definition getnum (s : string) (fixed : bool) : option (Z * string) :=
  match s with
  | String c0 rest0 =>
      if isDigit c0 then
        match rest0 with
        | String c1 rest1 =>
            if isDigit c1 then Some (digitVal c0 * 10 + digitVal c1, rest1)
            else if fixed then None else Some (digitVal c0, rest0)
        | EmptyString => if fixed then None else Some (digitVal c0, rest0)
        end
      else None
  | EmptyString => None
  end.

(** The element [2006]: four characters, all digits. *)
Definition getyear (s : string) : option (Z * string) :=
  match s with
  | String c0 (String c1 (String c2 (String c3 rest))) =>
      if isDigit c0 && isDigit c1 && isDigit c2 && isDigit c3
      then Some (((digitVal c0 * 10 + digitVal c1) * 10 + digitVal c2) * 10 + digitVal c3, rest)
      else None
  | _ => None
  end.

(** The digits at the head of [s], as ([count], [value of the first nine],
    rest): a fraction of a second read where the layout has none. *)
Fixpoint fracDigits (s : string) (count : nat) (ns : Z) : nat * Z * string :=
  match s with
  | String c rest =>
      if isDigit c then
        fracDigits rest (S count) (if (count <? 9)%nat then ns * 10 + digitVal c else ns)
      else (count, ns, s)
  | EmptyString => (count, ns, s)
  end.

Definition parseFraction (s : string) : Z * string :=
  match s with
  | String p (String c rest) =>
      if (Ascii.eqb p "." || Ascii.eqb p ",") && isDigit c then
        let '(count, ns, rest') := fracDigits (String c rest) 0 0 in
        (ns * 10 ^ Z.of_nat (9 - count), rest')
      else (0, s)
  | _ => (0, s)
  end.

(** [None] stands for the [*ParseError] of a failed parse. *)
Definition require (b : bool) : option unit := if b then Some tt else None.

(** The element [Z07:00]: [Z], or a sign, two digits, a colon and two
    digits; [inl] is UTC itself, [inr] a numeric offset. *)
Definition parseZone (s : string) : option ((unit + Z) * string) :=
  match s with
  | String "Z" rest => Some (inl tt, rest)
  | String sign (String h0 (String h1 (String colon (String m0 (String m1 rest))))) =>
      _ ← require (Ascii.eqb colon ":");
      '(hr, _) ← getnum (String h0 (String h1 "")) true;
      '(mm, _) ← getnum (String m0 (String m1 "")) true;
      _ ← require (negb ((24 <? hr)%Z || (60 <? mm)%Z));
      let zoneOffset := (hr * 60 + mm) * 60 in
      if Ascii.eqb sign "+" then Some (inr zoneOffset, rest)
      else if Ascii.eqb sign "-" then Some (inr (- zoneOffset), rest)
      else None
  | _ => None
  end.

(** [time.Parse(strconv.Quote(iso8601Layout), value)].  With a numeric
    offset the result sits in Local when Local has that offset at that
    instant and in a fabricated zone otherwise: in both, at that offset. *)
Definition Parse (value : string) : option Time :=
  value ← skip value quoteChar;
  '(year, value) ← getyear value;
  value ← skip value "-";
  '(month, value) ← getnum value true;
  _ ← require (negb ((month <=? 0)%Z || (12 <? month)%Z));
  value ← skip value "-";
  '(day, value) ← getnum value true;
  value ← skip value "T";
  '(hour, value) ← getnum value false;
  _ ← require (negb ((hour <? 0)%Z || (24 <=? hour)%Z));
  value ← skip value ":";
  '(min, value) ← getnum value true;
  _ ← require (negb ((min <? 0)%Z || (60 <=? min)%Z));
  value ← skip value ":";
  '(sec, value) ← getnum value true;
  _ ← require (negb ((sec <? 0)%Z || (60 <=? sec)%Z));
  let '(nsec, value) := parseFraction value in
  '(zone, value) ← parseZone value;
  value ← skip value quoteChar;
  _ ← require (bool_decide (value = ""));
  _ ← require (negb ((day <? 1)%Z || (daysIn month year <? day)%Z));
  match zone with
  | inl _ => Some (Date year month day hour min sec nsec UTC)
  | inr zoneOffset => Some (Date year month day hour min sec nsec zoneOffset)
  end.

(** ** attributes.go *)

Inductive CodecError :=
| NumErr (e : NumError)
| ParseErr.

(** [json.Marshal] of a string without characters that JSON escapes. *)
Definition jsonQuote (s : string) : string :=
  String quoteChar s +:+ String quoteChar "".

Definition ISO8601Datetime_MarshalJSON (t : Time) : string :=
  let s := Format t in
  jsonQuote s.

(** The receiver is a pointer: the result pairs the time stored in it
    afterwards with the error returned.  A failing [time.Parse] assigns
    its zero [Time]. *)
Definition ISO8601Datetime_UnmarshalJSON (t : Time) (data : string) : Time * option CodecError :=
  if bool_decide (data = "null") then (t, None)
  else
    match Parse data with
    | Some t' => (t', None)
    | None => (zeroTime, Some ParseErr)
    end.

Definition ISO8601Datetime_String (t : Time) : string := Format t.

Definition UnixMilli_MarshalJSON (t : Time) : string :=
  FormatInt (Z.quot (UnixNano t) Millisecond).

(** [local] is the offset of the Local location at a given Unix second. *)
Definition UnixMilli_UnmarshalJSON (local : Z -> Z) (t : Time) (data : string)
    : Time * option CodecError :=
  let s := data in
  if bool_decide (s = "null") then (t, None)
  else
    match ParseInt s with
    | inl err => (t, Some (NumErr err))
    | inr v =>
        (In (time_Unix local (Z.quot v 1000) (Z.rem v 1000 * Millisecond)) UTC, None)
    end.

(** ** Go values as reflection sees them *)

(** The run-time values a struct field (or a [model interface{}]) can hold,
    by the kinds the engine tells apart.  A struct is the list of its
    fields in declaration order, each with its [jsonapi] tag ([""] when it
    has none); a pointer graph is unfolded into a tree. *)
Inductive Value :=
| VString (s : string)
| VInt (n : Z)
| VInt64 (n : Z)
| VUint64 (n : Z)
| VBool (b : bool)
| VTime (t : Time)
| VTimePtr (t : option Time)
| VNilPtr
| VStructPtr (fields : list (string * Value))
| VNilSlice
| VSlice (elems : list Value).

(** A Go [interface{}] in the output: [None] is the nil interface. *)
Definition Any := option Value.

(** ** The document model *)

(** Modelled from the spec: the declarations of [Node], [OnePayload],
    [ManyPayload], [RelationshipOneNode] and [RelationshipManyNode] are not
    among the sources; the spec's data model gives a Node its type, id,
    optional client id, an attribute mapping and a relationship mapping
    from names to a linkage, single or list.  A Go map that was never made
    is [None]. *)
Inductive Linkage (N : Type) :=
| RelationshipOneNode (Data : N)
| RelationshipManyNode (Data : list N).
Arguments RelationshipOneNode {N} Data.
Arguments RelationshipManyNode {N} Data.

Inductive Node := mkNode {
  Type_ : string;
  ID : string;
  ClientID : string;
  Attributes : option (gmap string Any);
  Relationships : option (gmap string (Linkage Node)) }.

Record OnePayload := mkOnePayload {
  OneData : Node;
  OneIncluded : list Node }.

Record ManyPayload := mkManyPayload {
  ManyData : option (list Node);
  ManyIncluded : list Node;
  ManyMeta : option (gmap string Any) }.

(** Modelled from the spec: the constant [clientIDAnnotation] is declared
    outside the sources; the tag grammar of the spec spells it. *)
Definition clientIDAnnotation : string := "client-id".

Inductive Error :=
| ErrBadJSONAPIStructTag
| ErrBadJSONAPIID
| ErrExpectedSlice.

(** What a call of the engine does: return a value, return an error, or
    panic.  The first two leave the shared [included] map as [inc]. *)
Inductive Outcome (A : Type) :=
| Done (a : A) (inc : gmap string Node)
| Failed (e : Error) (inc : gmap string Node)
| Panicked.
Arguments Done {A} a inc.
Arguments Failed {A} e inc.
Arguments Panicked {A}.

(** What a top-level operation hands back. *)
Inductive Result (A : Type) :=
| Ok (a : A)
| Err (e : Error)
| Panic.
Arguments Ok {A} a.
Arguments Err {A} e.
Arguments Panic {A}.

(** ** response.go *)

Definition newNode : Node := mkNode "" "" "" None None.

Definition setID (n : Node) (id : string) : Node :=
  mkNode (Type_ n) id (ClientID n) (Attributes n) (Relationships n).
Definition setType (n : Node) (ty : string) : Node :=
  mkNode ty (ID n) (ClientID n) (Attributes n) (Relationships n).
Definition setClientID (n : Node) (c : string) : Node :=
  mkNode (Type_ n) (ID n) c (Attributes n) (Relationships n).
Definition setAttributes (n : Node) (a : gmap string Any) : Node :=
  mkNode (Type_ n) (ID n) (ClientID n) (Some a) (Relationships n).
Definition setRelationships (n : Node) (r : gmap string (Linkage Node)) : Node :=
  mkNode (Type_ n) (ID n) (ClientID n) (Attributes n) (Some r).

(** The map behind a field that may still be nil; [make] on first use. *)
Definition madeMap {V : Type} (m : option (gmap string V)) : gmap string V :=
  default ∅ m.

Definition toShallowNode (node : Node) : Node :=
  mkNode (Type_ node) (ID node) "" None None.

(** [fmt.Sprintf("%s,%s", n.Type, n.ID)] *)
Definition includedKey (n : Node) : string := Type_ n +:+ "," +:+ ID n.

(** [appendIncluded(m, n)] for one node: kept only if its key is new. *)
Definition appendIncluded (included : gmap string Node) (n : Node) : gmap string Node :=
  let k := includedKey n in
  match included !! k with
  | Some _ => included
  | None => <[k := n]> included
  end.

(** [nodeMapValues]: the values of the map, in the map's own order. *)
Definition nodeMapValues (m : gmap string Node) : list Node :=
  (map_to_list m).*2.

(** [fieldValue.String()]: the string itself, and for any other kind the
    text ["<T Value>"] (the model does not carry the name of [T]). *)
Definition reflectString (v : Value) : string :=
  match v with
  | VString s => s
  | VInt _ => "<int Value>"
  | VInt64 _ => "<int64 Value>"
  | VUint64 _ => "<uint64 Value>"
  | VBool _ => "<bool Value>"
  | VTime _ => "<time.Time Value>"
  | VTimePtr _ => "<*time.Time Value>"
  | VNilPtr | VStructPtr _ => "<*T Value>"
  | VNilSlice | VSlice _ => "<[]T Value>"
  end.

(** [fieldValue.Interface() == reflect.Zero(fieldValue.Type()).Interface()]
    outside the two time types: [None] is the run-time panic of comparing
    values of a slice type. *)
Definition equalsZero (v : Value) : option bool :=
  match v with
  | VString s => Some (bool_decide (s = ""))
  | VInt n | VInt64 n | VUint64 n => Some (n =? 0)%Z
  | VBool b => Some (negb b)
  | VTime t => Some (bool_decide (t = zeroTime))
  | VTimePtr t => Some (bool_decide (t = None))
  | VNilPtr => Some true
  | VStructPtr _ => Some false
  | VNilSlice | VSlice _ => None
  end.

(** The variables of [visitModelNode]'s loop: the node under construction,
    the pending error and the shared [included] map. *)
Record Frame := mkFrame {
  node : Node;
  er : option Error;
  included : gmap string Node }.

(** How one pass through the loop body ends: at the next field (by falling
    through or by [continue]), by [break], or in a panic. *)
Inductive Step :=
| Next (s : Frame)
| Break (s : Frame)
| Crash.

Definition withNode (s : Frame) (n : Node) : Frame := mkFrame n (er s) (included s).
Definition withEr (s : Frame) (e : Error) : Frame := mkFrame (node s) (Some e) (included s).
Definition withIncluded (s : Frame) (inc : gmap string Node) : Frame :=
  mkFrame (node s) (er s) inc.

(** [args[i]]; the loop only reads indices it has checked. *)
Definition arg (args : list string) (i : nat) : string := nth i args "".

(** [if node.Attributes == nil { node.Attributes = make(...) }], and the
    same for the relationships. *)
Definition makeAttributes (s : Frame) : Frame :=
  withNode s (setAttributes (node s) (madeMap (Attributes (node s)))).
Definition makeRelationships (s : Frame) : Frame :=
  withNode s (setRelationships (node s) (madeMap (Relationships (node s)))).

Definition setAttr (s : Frame) (name : string) (v : Any) : Frame :=
  withNode s (setAttributes (node s) (<[name := v]> (madeMap (Attributes (node s))))).

Definition setRel (s : Frame) (name : string) (l : Linkage Node) : Frame :=
  withNode s (setRelationships (node s) (<[name := l]> (madeMap (Relationships (node s))))).

(** The loop of [visitModelNodeRelationships] (and of [marshalMany]): visit
    the models in order, appending each node; the first error returns. *)
Fixpoint visitEach (visit : Value -> gmap string Node -> bool -> Outcome Node)
    (models : list Value) (nodes : list Node)
    (inc : gmap string Node) (sideload : bool) : Outcome (list Node) :=
  match models with
  | [] => Done nodes inc
  | n :: models' =>
      match visit n inc sideload with
      | Done node inc' => visitEach visit models' (nodes ++ [node])%list inc' sideload
      | Failed err inc' => Failed err inc'
      | Panicked => Panicked
      end
  end.

Definition visitModelNodeRelationships
    (visit : Value -> gmap string Node -> bool -> Outcome Node)
    (relationName : string) (models : list Value)
    (inc : gmap string Node) (sideload : bool) : Outcome (list Node) :=
  visitEach visit models [] inc sideload.

(** The attribute branch, shared by [visitModelNode] and [visitMetaNode]:
    what is stored under the wire name, [None] when the field is skipped
    by [continue], or a panic (outer [None]). *)
Definition attrValue (fieldValue : Value) (omitEmpty : bool) : option (option Any) :=
  match fieldValue with
  | VTime t =>
      if IsZero t then Some None
      else Some (Some (Some (VInt64 (Unix t))))
  | VTimePtr None =>
      if omitEmpty then Some None
      else Some (Some None)
  | VTimePtr (Some tm) =>
      if IsZero tm && omitEmpty then Some None
      else Some (Some (Some (VInt64 (Unix tm))))
  | _ =>
      if omitEmpty then
        match equalsZero fieldValue with
        | None => None
        | Some true => Some None
        | Some false => Some (Some (Some fieldValue))
        end
      else Some (Some (Some fieldValue))
  end.

(** One pass through the body of the loop of [visitModelNode], with the
    recursive calls made through [visit]. *)
Definition visitField (visit : Value -> gmap string Node -> bool -> Outcome Node)
    (f : string * Value) (s : Frame) (sideload : bool) : Step :=
  let '(tag, fieldValue) := f in
  if bool_decide (tag = "") then Next s
  else
    let args := Split tag "," in
    if (length args <? 1)%nat then Break (withEr s ErrBadJSONAPIStructTag)
    else
      let annotation := arg args 0 in
      if (bool_decide (annotation = clientIDAnnotation) && negb (length args =? 1)%nat)
         || (negb (bool_decide (annotation = clientIDAnnotation)) && (length args <? 2)%nat)
      then Break (withEr s ErrBadJSONAPIStructTag)
      else if bool_decide (annotation = "primary") then
        (* the [break] of the [default] case leaves the [switch] only *)
        let s :=
          match fieldValue with
          | VString nID => withNode s (setID (node s) nID)
          | VInt nID => withNode s (setID (node s) (FormatInt nID))
          | VInt64 nID => withNode s (setID (node s) (FormatInt nID))
          | VUint64 nID => withNode s (setID (node s) (FormatInt nID))
          | _ => withEr s ErrBadJSONAPIID
          end in
        Next (withNode s (setType (node s) (arg args 1)))
      else if bool_decide (annotation = clientIDAnnotation) then
        let clientID := reflectString fieldValue in
        if bool_decide (clientID = "") then Next s
        else Next (withNode s (setClientID (node s) clientID))
      else if bool_decide (annotation = "attr") then
        let omitEmpty :=
          if (2 <? length args)%nat then bool_decide (arg args 2 = "omitempty")
          else false in
        let s := makeAttributes s in
        match attrValue fieldValue omitEmpty with
        | None => Crash
        | Some None => Next s
        | Some (Some v) => Next (setAttr s (arg args 1) v)
        end
      else if bool_decide (annotation = "relation") then
        match fieldValue with
        | VNilSlice | VSlice [] => Next s
        | VSlice models =>
            let s := makeRelationships s in
            match visitModelNodeRelationships visit (arg args 1) models (included s) sideload with
            | Done d inc =>
                if sideload then
                  Next (setRel (withIncluded s (fold_left appendIncluded d inc))
                               (arg args 1)
                               (RelationshipManyNode (map toShallowNode d)))
                else
                  Next (setRel (withIncluded s inc) (arg args 1) (RelationshipManyNode d))
            | Failed err inc => Break (withEr (withIncluded s inc) err)
            | Panicked => Crash
            end
        | VNilPtr | VTimePtr None => Next s
        | VStructPtr _ | VTimePtr (Some _) =>
            let s := makeRelationships s in
            match visit fieldValue (included s) sideload with
            | Done relationship inc =>
                if sideload then
                  Next (setRel (withIncluded s (appendIncluded inc relationship))
                               (arg args 1)
                               (RelationshipOneNode (toShallowNode relationship)))
                else
                  Next (setRel (withIncluded s inc) (arg args 1)
                               (RelationshipOneNode relationship))
            | Failed err inc => Break (withEr (withIncluded s inc) err)
            | Panicked => Crash
            end
        | _ => Crash
        end
      else Break (withEr s ErrBadJSONAPIStructTag).

(** The [for] loop over the fields. *)
Fixpoint visitFields (visit : Value -> gmap string Node -> bool -> Outcome Node)
    (fields : list (string * Value)) (s : Frame) (sideload : bool) : Step :=
  match fields with
  | [] => Next s
  | f :: fields' =>
      match visitField visit f s sideload with
      | Next s' => visitFields visit fields' s' sideload
      | stop => stop
      end
  end.

(** The end of [visitModelNode]: the pending error, or else the node. *)
Definition visitReturn (r : Step) : Outcome Node :=
  match r with
  | Next s | Break s =>
      match er s with
      | Some e => Failed e (included s)
      | None => Done (node s) (included s)
      end
  | Crash => Panicked
  end.

(** [visitModelNode(model, included, sideload)].  [Elem()] and [NumField()]
    panic unless [model] is a non-nil pointer to a struct; a [time.Time]
    behind a pointer is a struct without tagged fields.  In embedded mode
    the Go caller passes a nil [included], which is then never read. *)
Fixpoint visitModelNode (model : Value) (inc : gmap string Node)
    (sideload : bool) {struct model} : Outcome Node :=
  match model with
  | VStructPtr fields =>
      visitReturn (visitFields visitModelNode fields (mkFrame newNode None inc) sideload)
  | VTimePtr (Some _) => Done newNode inc
  | _ => Panicked
  end.

(** The loop variables of [visitMetaNode]. *)
Record MetaFrame := mkMetaFrame {
  metaNode : gmap string Any;
  metaEr : option Error }.

Inductive MetaStep :=
| MetaNext (s : MetaFrame)
| MetaBreak (s : MetaFrame)
| MetaCrash.

Definition visitMetaField (f : string * Value) (s : MetaFrame) : MetaStep :=
  let '(tag, fieldValue) := f in
  if bool_decide (tag = "") then MetaNext s
  else
    let args := Split tag "," in
    if (length args <? 1)%nat || (2 <? length args)%nat
    then MetaBreak (mkMetaFrame (metaNode s) (Some ErrBadJSONAPIStructTag))
    else
      let omitEmpty :=
        if (length args =? 2)%nat then bool_decide (arg args 1 = "omitempty")
        else false in
      if (length args =? 2)%nat && negb omitEmpty
      then MetaBreak (mkMetaFrame (metaNode s) (Some ErrBadJSONAPIStructTag))
      else
        match attrValue fieldValue omitEmpty with
        | None => MetaCrash
        | Some None => MetaNext s
        | Some (Some v) => MetaNext (mkMetaFrame (<[arg args 0 := v]> (metaNode s)) (metaEr s))
        end.

Fixpoint visitMetaFields (fields : list (string * Value)) (s : MetaFrame) : MetaStep :=
  match fields with
  | [] => MetaNext s
  | f :: fields' =>
      match visitMetaField f s with
      | MetaNext s' => visitMetaFields fields' s'
      | stop => stop
      end
  end.

Definition visitMetaNode (meta : Value) : Result (gmap string Any) :=
  match meta with
  | VStructPtr fields =>
      match visitMetaFields fields (mkMetaFrame ∅ None) with
      | MetaNext s | MetaBreak s =>
          match metaEr s with
          | Some e => Err e
          | None => Ok (metaNode s)
          end
      | MetaCrash => Panic
      end
  | VTimePtr (Some _) => Ok ∅
  | _ => Panic
  end.

(** The loop of [marshalMany]; [data] is a nil slice until the first
    [append]. *)
Fixpoint marshalManyLoop (models : list Value) (data : option (list Node))
    (inc : gmap string Node) : Outcome (option (list Node)) :=
  match models with
  | [] => Done data inc
  | model :: models' =>
      match visitModelNode model inc true with
      | Done node inc' => marshalManyLoop models' (Some (default [] data ++ [node])%list) inc'
      | Failed err inc' => Failed err inc'
      | Panicked => Panicked
      end
  end.

Definition marshalMany (models : list Value) (meta : Any) : Result ManyPayload :=
  match marshalManyLoop models None ∅ with
  | Done data inc =>
      let data := if (length models =? 0)%nat then Some [] else data in
      let payload := mkManyPayload data (nodeMapValues inc) None in
      match meta with
      | Some meta =>
          match visitMetaNode meta with
          | Ok node => Ok (mkManyPayload (ManyData payload) (ManyIncluded payload) (Some node))
          | Err err => Err err
          | Panic => Panic
          end
      | None => Ok payload
      end
  | Failed err _ => Err err
  | Panicked => Panic
  end.

Definition MarshalMany (models : list Value) : Result ManyPayload :=
  marshalMany models None.

Definition MarshalOne (model : Value) : Result OnePayload :=
  match visitModelNode model ∅ true with
  | Done rootNode inc => Ok (mkOnePayload rootNode (nodeMapValues inc))
  | Failed err _ => Err err
  | Panicked => Panic
  end.

Definition convertToSliceInterface (i : Value) : Result (list Value) :=
  match i with
  | VNilSlice => Ok []
  | VSlice vals => Ok vals
  | _ => Err ErrExpectedSlice
  end.

(** The writers below hand their payload to [json.NewEncoder(w).Encode];
    the text encoding is outside the model, the payload is what they
    produce. *)
Definition MarshalOnePayload (model : Value) : Result OnePayload :=
  MarshalOne model.

Definition MarshalManyPayload (models : Value) : Result ManyPayload :=
  match convertToSliceInterface models with
  | Ok m => MarshalMany m
  | Err err => Err err
  | Panic => Panic
  end.

Definition MarshalManyPayloadWithMeta (models : Value) (meta : Any) : Result ManyPayload :=
  match convertToSliceInterface models with
  | Ok m => marshalMany m meta
  | Err err => Err err
  | Panic => Panic
  end.

Definition MarshalOnePayloadWithoutIncluded (model : Value) : Result OnePayload :=
  match visitModelNode model ∅ true with
  | Done rootNode _ => Ok (mkOnePayload rootNode [])
  | Failed err _ => Err err
  | Panicked => Panic
  end.

Definition MarshalOnePayloadEmbedded (model : Value) : Result OnePayload :=
  match visitModelNode model ∅ false with
  | Done rootNode _ => Ok (mkOnePayload rootNode [])
  | Failed err _ => Err err
  | Panicked => Panic
  end.

(** ** The sentences of the specification that the code is compared with *)

(** The Tag Interpreter's rule of rejection, in the specification's words:
    zero components, or a [primary] descriptor with more than two
    components, or a descriptor other than [client-id] with fewer than
    two, or a [client-id] descriptor with other than one component. *)
Definition specRejectsTag (tag : string) : Prop :=
  let args := Split tag "," in
  length args = 0%nat
  ∨ (arg args 0 = "primary" ∧ (2 < length args)%nat)
  ∨ (arg args 0 ≠ clientIDAnnotation ∧ (length args < 2)%nat)
  ∨ (arg args 0 = clientIDAnnotation ∧ length args ≠ 1%nat).

(** What the code rejects a descriptor for. *)
Definition codeRejectsTag (tag : string) : Prop :=
  let args := Split tag "," in
  (arg args 0 = clientIDAnnotation ∧ length args ≠ 1%nat)
  ∨ (arg args 0 ≠ clientIDAnnotation ∧ (length args < 2)%nat)
  ∨ arg args 0 ∉ ["primary"; clientIDAnnotation; "attr"; "relation"].

(** A time "with sub-millisecond components truncated", in UTC. *)
Definition truncateToMilli (t : Time) : Time :=
  mkTime (unixSec t) (nsec t - nsec t mod Millisecond) UTC.

(** A time "at second granularity", in its own zone. *)
Definition truncateToSecond (t : Time) : Time :=
  mkTime (unixSec t) 0 (offset t).

(** The times Go represents: the nanoseconds lie within the second. *)
Definition validTime (t : Time) : Prop := 0 <= nsec t < 1000000000.

(** What a node maps an attribute name to, if anything. *)
Definition attrOf (n : Node) (name : string) : option Any :=
  madeMap (Attributes n) !! name.

(** A value that makes the engine visit nothing further. *)
Definition isScalar (v : Value) : bool :=
  match v with
  | VStructPtr _ | VSlice _ | VTimePtr (Some _) => false
  | _ => true
  end.

(** The fields that store an attribute under the wire name [name]. *)
Definition writesAttr (name : string) (f : string * Value) : Prop :=
  ∃ rest, Split f.1 "," = "attr" :: name :: rest.

(** [omitEmpty] as the attribute branch computes it from the components
    after the wire name. *)
Definition omitEmptyOf (rest : list string) : bool :=
  bool_decide (rest !! 0%nat = Some "omitempty").

(** A relationship field with nothing to link: an empty or nil slice, or
    a nil pointer. *)
Definition isEmptyRelation (v : Value) : bool :=
  match v with
  | VNilSlice | VSlice [] | VNilPtr | VTimePtr None => true
  | _ => false
  end.

#[global] Instance codeRejectsTag_dec tag : Decision (codeRejectsTag tag).
Proof. unfold codeRejectsTag. apply _. Defined.

(** ** The dedup invariant, stated *)

Fixpoint hasComma (s : string) : bool :=
  match s with
  | EmptyString => false
  | String c s' => Ascii.eqb c "," || hasComma s'
  end.

(** The resource a node stands for. *)
Definition typeID (n : Node) : string * string := (Type_ n, ID n).

(** A reference: type and id and nothing else. *)
Definition shallow (n : Node) : Prop :=
  ClientID n = "" ∧ Attributes n = None ∧ Relationships n = None.

Definition linkageNodes (l : Linkage Node) : list Node :=
  match l with
  | RelationshipOneNode n => [n]
  | RelationshipManyNode ns => ns
  end.

(** [r] is a node of some relationship linkage of [n]. *)
Definition linkedFrom (n r : Node) : Prop :=
  ∃ name l, madeMap (Relationships n) !! name = Some l ∧ r ∈ linkageNodes l.

(** The sideloading invariant of a payload with roots [roots] and included
    list [incl]: no two included nodes have the same (type, id); every
    linkage node of a root or of an included node is shallow and is
    resolved by an included node of its (type, id). *)
Definition deduplicated (roots incl : list Node) : Prop :=
  NoDup (typeID <$> incl)
  ∧ ∀ n r, n ∈ (roots ++ incl)%list → linkedFrom n r →
      shallow r ∧ ∃ n', n' ∈ incl ∧ typeID n' = typeID r.

(** What holds of a node built by a sideloading visit, against the
    included map [inc] of that moment. *)
Definition goodNode (inc : gmap string Node) (n : Node) : Prop :=
  hasComma (Type_ n) = false
  ∧ ∀ r, linkedFrom n r →
      shallow r ∧ hasComma (Type_ r) = false ∧ is_Some (inc !! includedKey r).

(** The included map during a sideloading marshal. *)
Definition goodIncluded (inc : gmap string Node) : Prop :=
  ∀ k n, inc !! k = Some n → k = includedKey n ∧ goodNode inc n.

(** What the dedup argument asks of a visit of [v]. *)
Definition visitOK (visit : Value -> gmap string Node -> bool -> Outcome Node)
    (v : Value) : Prop :=
  ∀ inc, goodIncluded inc →
    match visit v inc true with
    | Done n inc' => goodIncluded inc' ∧ inc ⊆ inc' ∧ goodNode inc' n
    | Failed _ inc' => goodIncluded inc' ∧ inc ⊆ inc'
    | Panicked => True
    end.

(** The invariant of the loop of a sideloading visit. *)
Definition goodFrame (s : Frame) : Prop :=
  goodIncluded (included s) ∧ goodNode (included s) (node s).

(** A visit of [v] that returns has kept the entries of the included map. *)
Definition visitMono (visit : Value -> gmap string Node -> bool -> Outcome Node)
    (sideload : bool) (v : Value) : Prop :=
  ∀ inc, match visit v inc sideload with
         | Done _ inc' | Failed _ inc' => inc ⊆ inc'
         | Panicked => True
         end.

(** The scenario of the specification with a second branch: a person whose
    pet and whose list of pets both reach the animal of id 7, the list
    through instances of other names. *)
Definition examplePerson : Value :=
  VStructPtr
    [("primary,people", VString "42");
     ("attr,name", VString "Alice");
     ("relation,pet",
        VStructPtr [("primary,animals", VString "7"); ("attr,name", VString "Rex")]);
     ("relation,pets",
        VSlice [VStructPtr [("primary,animals", VString "7"); ("attr,name", VString "Max")];
                VStructPtr [("primary,animals", VString "8"); ("attr,name", VString "Tom")]])].

(** What the marshal of [examplePerson] returns. *)
Definition examplePayload : OnePayload :=
  match MarshalOne examplePerson with
  | Ok p => p
  | _ => mkOnePayload newNode []
  end.

(** ** Checks by enumeration *)

(** [check] on the [fuel] integers from [lo] upwards. *)
Fixpoint checkRange (check : Z -> bool) (fuel : nat) (lo : Z) : bool :=
  match fuel with
  | O => true
  | S fuel' => check lo && checkRange check fuel' (lo + 1)
  end.

(** A number below 100 is written by [appendInt] as its two digits. *)
Definition twoDigits (x : Z) : string :=
  String (digitChar (x / 10)) (String (digitChar (x mod 10)) "").

Definition fourDigits (x : Z) : string :=
  String (digitChar (x / 1000)) (String (digitChar (x / 100 mod 10))
    (String (digitChar (x / 10 mod 10)) (String (digitChar (x mod 10)) ""))).

(** ** Sideloaded against embedded *)

Definition shallowLinkage (l : Linkage Node) : Linkage Node :=
  match l with
  | RelationshipOneNode n => RelationshipOneNode (toShallowNode n)
  | RelationshipManyNode ns => RelationshipManyNode (map toShallowNode ns)
  end.

(** A node with every node of its linkages cut down to a reference. *)
Definition shallowLinks (n : Node) : Node :=
  mkNode (Type_ n) (ID n) (ClientID n) (Attributes n)
         (match Relationships n with
          | Some rels => Some (shallowLinkage <$> rels)
          | None => None
          end).

(** The node of mode [sideload] that answers to the embedded node [n]. *)
Definition inMode (sideload : bool) (n : Node) : Node :=
  if sideload then shallowLinks n else n.

(** Two outcomes that differ in the included map only, the first being
    of mode [sideload] and the second embedded. *)
Definition agree (sideload : bool) (o1 o2 : Outcome Node) : Prop :=
  match o1, o2 with
  | Done n1 _, Done n2 _ => n1 = inMode sideload n2
  | Failed e1 _, Failed e2 _ => e1 = e2
  | Panicked, Panicked => True
  | _, _ => False
  end.

Definition agreeList (sideload : bool) (o1 o2 : Outcome (list Node)) : Prop :=
  match o1, o2 with
  | Done d1 _, Done d2 _ => d1 = map (inMode sideload) d2
  | Failed e1 _, Failed e2 _ => e1 = e2
  | Panicked, Panicked => True
  | _, _ => False
  end.

Definition agreeFrame (sideload : bool) (s1 s2 : Frame) : Prop :=
  node s1 = inMode sideload (node s2) ∧ er s1 = er s2.

Definition agreeStep (sideload : bool) (r1 r2 : Step) : Prop :=
  match r1, r2 with
  | Next s1, Next s2 => agreeFrame sideload s1 s2
  | Break s1, Break s2 => er s1 = er s2
  | Crash, Crash => True
  | _, _ => False
  end.

Definition visitAgrees (visit : Value -> gmap string Node -> bool -> Outcome Node)
    (sideload : bool) (v : Value) : Prop :=
  ∀ inc1 inc2, agree sideload (visit v inc1 sideload) (visit v inc2 false).

(** What two top-level results have in common when they differ in the
    included list only. *)
Definition agreeResult (sideload : bool) (r1 r2 : Result OnePayload) : Prop :=
  match r1, r2 with
  | Ok p1, Ok p2 => OneData p1 = inMode sideload (OneData p2)
  | Err e1, Err e2 => e1 = e2
  | Panic, Panic => True
  | _, _ => False
  end.

(** A visit of [v] in embedded mode hands the included map back as it
    got it. *)
Definition visitKeeps (visit : Value -> gmap string Node -> bool -> Outcome Node)
    (v : Value) : Prop :=
  ∀ inc, match visit v inc false with
         | Done _ inc' | Failed _ inc' => inc' = inc
         | Panicked => True
         end.

(** ** Many objects against one *)

(** [n] is the root node that [MarshalOne] returns for [model]. *)
Definition rootOf (model : Value) (n : Node) : Prop :=
  ∃ p, MarshalOne model = Ok p ∧ OneData p = n.

(** The types a primary key may have. *)
Definition isSupportedID (v : Value) : bool :=
  match v with
  | VString _ | VInt _ | VInt64 _ | VUint64 _ => true
  | _ => false
  end.

(** The fields that carry a [jsonapi] tag. *)
Definition tagged (fields : list (string * Value)) : list (string * Value) :=
  filter (λ f, f.1 ≠ "") fields.

(** What the many-marshal of [examplePerson] twice returns. *)
Definition exampleManyPayload : ManyPayload :=
  match MarshalMany [examplePerson; examplePerson] with
  | Ok p => p
  | _ => mkManyPayload None [] None
  end.

(** ** The meta object *)

(** What [visitMetaNode] rejects a descriptor for: more than two
    components, or a second component other than [omitempty]. *)
Definition metaRejectsTag (tag : string) : Prop :=
  let args := Split tag "," in
  tag ≠ "" ∧ ((2 < length args)%nat
              ∨ (length args = 2%nat ∧ arg args 1 ≠ "omitempty")).

#[global] Instance metaRejectsTag_dec tag : Decision (metaRejectsTag tag).
Proof. unfold metaRejectsTag. apply _. Defined.

(** The descriptor of a model field that stores what a meta field of
    descriptor [tag] stores. *)
Definition attrTagOfMeta (tag : string) : string :=
  if bool_decide (tag = "") then "" else "attr," +:+ tag.

Definition asAttributes (fields : list (string * Value)) : list (string * Value) :=
  map (λ f, (attrTagOfMeta f.1, f.2)) fields.

(** ** Where errors come from *)

(** The two errors of a visit. *)
Definition isVisitError (e : Error) : Prop :=
  e = ErrBadJSONAPIStructTag ∨ e = ErrBadJSONAPIID.

Definition visitErrs (visit : Value -> gmap string Node -> bool -> Outcome Node)
    (sideload : bool) (v : Value) : Prop :=
  ∀ inc e inc', visit v inc sideload = Failed e inc' → isVisitError e.

(** [reflect.Slice] as the kind of a value. *)
Definition isSliceKind (v : Value) : bool :=
  match v with
  | VNilSlice | VSlice _ => true
  | _ => false
  end.

(** ** The linkage of a relationship *)

(** What a node maps a relationship name to, if anything. *)
Definition relOf (n : Node) (name : string) : option (Linkage Node) :=
  madeMap (Relationships n) !! name.

(** The fields that store a linkage under the wire name [name]. *)
Definition writesRel (name : string) (f : string * Value) : Prop :=
  ∃ rest, Split f.1 "," = "relation" :: name :: rest.

(** [r] is the root node that [MarshalOnePayloadEmbedded] returns for
    [model]. *)
Definition embeddedRootOf (model : Value) (r : Node) : Prop :=
  MarshalOnePayloadEmbedded model = Ok (mkOnePayload r []).

(** What a linkage holds for a related node: the node itself when
    embedding, its reference when sideloading. *)
Definition linkNode (sideload : bool) (r : Node) : Node :=
  if sideload then toShallowNode r else r.

(** An owner whose list of pets holds the same animal twice, and what a
    sideloading visit returns for it. *)
Definition exampleAnimal : Value :=
  VStructPtr [("primary,animals", VString "7"); ("attr,name", VString "Rex")].

Definition exampleOwner : Value :=
  VStructPtr [("primary,people", VString "1");
              ("relation,pets", VSlice [exampleAnimal; exampleAnimal])].

Definition exampleOwnerVisit : Node * gmap string Node :=
  match visitModelNode exampleOwner ∅ true with
  | Done n inc => (n, inc)
  | _ => (newNode, ∅)
  end.

(** ** The included map, key by key *)

(** Two outcomes of sideloading visits that are the same but for the
    included map, and there the same under the key [k]. *)
Definition sameAt {A : Type} (k : string) (o1 o2 : Outcome A) : Prop :=
  match o1, o2 with
  | Done a1 i1, Done a2 i2 => a1 = a2 ∧ i1 !! k = i2 !! k
  | Failed e1 i1, Failed e2 i2 => e1 = e2 ∧ i1 !! k = i2 !! k
  | Panicked, Panicked => True
  | _, _ => False
  end.

Definition sameFrameAt (k : string) (s1 s2 : Frame) : Prop :=
  node s1 = node s2 ∧ er s1 = er s2 ∧ included s1 !! k = included s2 !! k.

Definition sameStepAt (k : string) (r1 r2 : Step) : Prop :=
  match r1, r2 with
  | Next s1, Next s2 | Break s1, Break s2 => sameFrameAt k s1 s2
  | Crash, Crash => True
  | _, _ => False
  end.

(** What a sideloading visit of [v] leaves under a key depends on what
    was under that key, and on nothing else in the included map. *)
Definition visitAt (visit : Value -> gmap string Node -> bool -> Outcome Node)
    (v : Value) : Prop :=
  ∀ k inc1 inc2, inc1 !! k = inc2 !! k → sameAt k (visit v inc1 true) (visit v inc2 true).

(** ** The related objects of a model, in two orders *)

(** The objects that the pass over one field hands to [appendIncluded],
    in the order of the calls: for a single related object, what its own
    visit inserts and then the object; for a slice, what the visits of
    all its elements insert and only then the elements. *)
Definition insertedOf (insertedIn : Value -> list Value) (f : string * Value) : list Value :=
  let '(tag, fieldValue) := f in
  if bool_decide (arg (Split tag ",") 0 = "relation") then
    match fieldValue with
    | VStructPtr _ | VTimePtr (Some _) => insertedIn fieldValue ++ [fieldValue]
    | VSlice models => flat_map insertedIn models ++ models
    | _ => []
    end
  else [].

(** The related objects of [model], at any depth, in the order in which a
    sideloading visit that returns a node inserts their nodes. *)
Fixpoint inserted (model : Value) : list Value :=
  match model with
  | VStructPtr fields => flat_map (insertedOf inserted) fields
  | _ => []
  end.

(** The same objects in the order in which their visits start. *)
Definition visitedOf (visitedIn : Value -> list Value) (f : string * Value) : list Value :=
  let '(tag, fieldValue) := f in
  if bool_decide (arg (Split tag ",") 0 = "relation") then
    match fieldValue with
    | VStructPtr _ | VTimePtr (Some _) => fieldValue :: visitedIn fieldValue
    | VSlice models => flat_map (λ m, m :: visitedIn m) models
    | _ => []
    end
  else [].

Fixpoint visited (model : Value) : list Value :=
  match model with
  | VStructPtr fields => flat_map (visitedOf visited) fields
  | _ => []
  end.

(** The included list [incl] holds, of the objects [reached] taken in
    that order, the node of the first one of each (type, id) and nothing
    else: for every (type, id) the nodes of [incl] that have it are that
    one node, or none when no object reached has it. *)
Definition keepsFirst (reached : list Value) (incl : list Node) : Prop :=
  ∃ ns, Forall2 rootOf reached ns
        ∧ ∀ t : string * string,
            filter (λ x, typeID x = t) incl
            = option_list (find (λ x, bool_decide (typeID x = t)) ns).

(** Every object reached has exactly one node of its (type, id) in
    [incl], the node of an object reached. *)
Definition eachOnce (reached : list Value) (incl : list Node) : Prop :=
  ∀ r, r ∈ reached →
    ∃ nr n r', rootOf r nr ∧ filter (λ x, typeID x = typeID nr) incl = [n]
               ∧ r' ∈ reached ∧ rootOf r' n.

(** The dedup invariant of a payload with roots [roots] whose marshal
    reached the related objects [reached], in insertion order. *)
Definition sideloadedOnce (roots : list Node) (reached : list Value)
    (incl : list Node) : Prop :=
  deduplicated roots incl ∧ keepsFirst reached incl ∧ eachOnce reached incl.

(** What a sideloading visit of [v] adds to the included map. *)
Definition insertsInOrder (v : Value) : Prop :=
  ∀ inc n inc', visitModelNode v inc true = Done n inc' →
    ∃ ns, Forall2 rootOf (inserted v) ns ∧ inc' = fold_left appendIncluded ns inc.

(** A pet owner whose list of pets holds the animal of id 7 under the
    name Rex and then an animal whose friend is the animal of id 7 under
    the name Max. *)
Definition exampleRex : Value :=
  VStructPtr [("primary,animals", VString "7"); ("attr,name", VString "Rex")].

Definition exampleMax : Value :=
  VStructPtr [("primary,animals", VString "7"); ("attr,name", VString "Max")].

Definition exampleTom : Value :=
  VStructPtr [("primary,animals", VString "9"); ("attr,name", VString "Tom");
              ("relation,friend", exampleMax)].

Definition exampleKennel : Value :=
  VStructPtr [("primary,people", VString "1");
              ("relation,pets", VSlice [exampleRex; exampleTom])].

Definition exampleKennelPayload : OnePayload :=
  match MarshalOne exampleKennel with
  | Ok p => p
  | _ => mkOnePayload newNode []
  end.

Definition exampleRexNode : Node :=
  match MarshalOne exampleRex with
  | Ok p => OneData p
  | _ => newNode
  end.

(* ===================================================================== *)
(** * Part II: properties                                                *)
(* ===================================================================== *)

(** ** The two null literals *)

(** C5: decoding the literal [null] through either time codec returns no
    error and leaves the stored time as it was, whatever it was. *)
Theorem C5_null_leaves_time_untouched :
  ∀ (local : Z -> Z) (t : Time),
    ISO8601Datetime_UnmarshalJSON t "null" = (t, None)
    ∧ UnixMilli_UnmarshalJSON local t "null" = (t, None).
Proof. intros local t. split; reflexivity. Qed.

(** ** Shape of a split descriptor *)

Lemma Split_nonempty s sep : Split s sep ≠ [].
Proof.
  destruct s as [|c s]; simpl; [done|].
  destruct (Ascii.eqb c sep); [done|]. by destruct (Split s sep).
Qed.

Lemma Split_two_tag_nonempty tag a b rest :
  Split tag "," = a :: b :: rest → tag ≠ "".
Proof. intros H ->. simpl in H. discriminate. Qed.

Lemma visitField_empty_relation visit tag name rest val s sideload :
  Split tag "," = "relation" :: name :: rest →
  isEmptyRelation val = true →
  visitField visit (tag, val) s sideload = Next s.
Proof.
  intros Hsplit Hval. pose proof (Split_two_tag_nonempty _ _ _ _ Hsplit) as Hne.
  unfold visitField. rewrite Hsplit. simpl.
  rewrite bool_decide_eq_false_2 by done.
  by destruct val as [| | | | | |[?|]| | | |[|??]].
Qed.

(** ** The loop over the fields *)

Lemma visitFields_app visit pre post s sideload :
  visitFields visit (pre ++ post) s sideload =
    match visitFields visit pre s sideload with
    | Next s' => visitFields visit post s' sideload
    | stop => stop
    end.
Proof.
  revert s. induction pre as [|f pre IH]; intros s; simpl; [done|].
  destruct (visitField visit f s sideload); auto.
Qed.

(** A field whose pass is the identity can be left out of the object. *)
Lemma visitFields_skip visit pre f post s sideload :
  (∀ s', visitField visit f s' sideload = Next s') →
  visitFields visit (pre ++ f :: post) s sideload
  = visitFields visit (pre ++ post) s sideload.
Proof.
  intros Hf. rewrite !visitFields_app. destruct (visitFields visit pre s sideload); try done.
  simpl. by rewrite Hf.
Qed.

(** C7: a relationship field holding an empty collection or a nil single
    value makes its pass through the loop the identity, whatever a visit
    would do (none is made): no entry under its wire name, nothing added to
    the included map; the object marshals as if the field were not there. *)
Theorem C7_empty_relation_contributes_nothing :
  ∀ (tag name : string) (rest : list string) (val : Value),
    Split tag "," = "relation" :: name :: rest →
    isEmptyRelation val = true →
    (∀ visit s sideload, visitField visit (tag, val) s sideload = Next s)
    ∧ (∀ pre post inc sideload,
         visitModelNode (VStructPtr (pre ++ (tag, val) :: post)) inc sideload
         = visitModelNode (VStructPtr (pre ++ post)) inc sideload).
Proof.
  intros tag name rest val Hsplit Hval. split.
  - intros. by eapply visitField_empty_relation.
  - intros. simpl. f_equal. apply visitFields_skip.
    intros. by eapply visitField_empty_relation.
Qed.

Lemma C7_witness :
  Split "relation,pets" "," = ["relation"; "pets"]
  ∧ (∀ pre post inc sideload,
       visitModelNode (VStructPtr (pre ++ ("relation,pets", VSlice []) :: post)) inc sideload
       = visitModelNode (VStructPtr (pre ++ post)) inc sideload).
Proof.
  split; [reflexivity|].
  apply (C7_empty_relation_contributes_nothing "relation,pets" "pets" [] (VSlice []));
    reflexivity.
Defined.

(** ** The empty collection *)

(** C6, as stated, fails: with a meta object whose descriptor is malformed
    the many-marshal of an empty collection returns an error. *)
Lemma C6_counterexample :
  ¬ ∃ p, marshalMany [] (Some (VStructPtr [("a,b,c", VInt 1)])) = Ok p
         ∧ ManyData p = Some [].
Proof. intros (p & H & _). vm_compute in H. discriminate. Qed.

(** C6, amended: [MarshalMany] of an empty collection succeeds with [data]
    an explicit empty list; [marshalMany] does the same unless a meta
    object is given whose encoding fails, and then returns that failure. *)
Theorem C6_empty_collection_data_is_empty_list :
  MarshalMany [] = Ok (mkManyPayload (Some []) [] None)
  ∧ ∀ meta : Value,
      marshalMany [] (Some meta) =
        match visitMetaNode meta with
        | Ok node => Ok (mkManyPayload (Some []) [] (Some node))
        | Err err => Err err
        | Panic => Panic
        end.
Proof.
  split; [reflexivity|]. intros meta. unfold marshalMany. simpl.
  unfold nodeMapValues. rewrite map_to_list_empty. simpl.
  by destruct (visitMetaNode meta).
Qed.

(** ** Attribute fields *)

Lemma omitEmpty_of_args a b rest :
  (if (2 <? length (a :: b :: rest))%nat
   then bool_decide (arg (a :: b :: rest) 2 = "omitempty") else false)
  = omitEmptyOf rest.
Proof.
  unfold omitEmptyOf. destruct rest as [|x rest]; [done|].
  change (bool_decide (x = "omitempty") = bool_decide (Some x = Some "omitempty")).
  apply bool_decide_ext. split; [by intros ->|by intros [= ->]].
Qed.

(** The pass over an attribute field, by what the attribute branch
    decides for the value. *)
Lemma visitField_attr visit tag name rest v s sideload :
  Split tag "," = "attr" :: name :: rest →
  visitField visit (tag, v) s sideload =
    match attrValue v (omitEmptyOf rest) with
    | None => Crash
    | Some None => Next (makeAttributes s)
    | Some (Some a) => Next (setAttr s name a)
    end.
Proof.
  intros Hsplit. pose proof (Split_two_tag_nonempty _ _ _ _ Hsplit) as Hne.
  unfold visitField. rewrite Hsplit, bool_decide_eq_false_2 by done.
  rewrite (omitEmpty_of_args "attr" name rest).
  cbn [length Nat.ltb Nat.leb Nat.eqb arg nth negb andb orb].
  change (bool_decide ("attr" = clientIDAnnotation)) with false.
  change (bool_decide ("attr" = "primary")) with false.
  change (bool_decide ("attr" = "attr")) with true.
  cbn [negb andb orb].
  by destruct (attrValue v (omitEmptyOf rest)) as [[a|]|].
Qed.

(** Only an attribute field of that wire name changes what a name is
    mapped to. *)
Lemma visitField_attr_frame visit f s sideload s' name :
  ¬ writesAttr name f →
  visitField visit f s sideload = Next s' →
  attrOf (node s') name = attrOf (node s) name.
Proof.
  destruct f as [tag v]. intros Hw. unfold visitField.
  case_bool_decide; [by intros [= <-]|].
  destruct (Split tag ",") as [|a [|b rest]] eqn:Hsplit.
  - by destruct (Split_nonempty tag ",").
  - cbn [length Nat.ltb Nat.leb Nat.eqb arg nth negb andb orb].
    destruct (decide (a = clientIDAnnotation)) as [->|Hc].
    + change (bool_decide (clientIDAnnotation = clientIDAnnotation)) with true.
      change (bool_decide (clientIDAnnotation = "primary")) with false.
      cbn [negb andb orb]. case_bool_decide; by intros [= <-].
    + rewrite (bool_decide_eq_false_2 _ Hc). discriminate.
  - cbn [length Nat.ltb Nat.leb Nat.eqb arg nth negb andb orb].
    destruct (decide (a = clientIDAnnotation)) as [->|Hc]; [discriminate|].
    rewrite !(bool_decide_eq_false_2 _ Hc). cbn [negb andb orb].
    destruct (decide (a = "primary")) as [->|Hp].
    { intros [= <-]. by destruct v. }
    rewrite (bool_decide_eq_false_2 _ Hp).
    destruct (decide (a = "attr")) as [->|Hattr].
    { assert (b ≠ name) as Hb.
      { intros ->. apply Hw. by exists rest. }
      change (bool_decide ("attr" = "attr")) with true. cbn iota.
      destruct (attrValue v _) as [[x|]|]; intros [= <-]; try done.
      unfold attrOf, setAttr. simpl. by rewrite lookup_insert_ne. }
    rewrite (bool_decide_eq_false_2 _ Hattr).
    case_bool_decide; [|discriminate].
    destruct v as [| | | | | |[?|]| | | |[|??]]; try discriminate;
      try (by intros [= <-]).
    + destruct (visit _ _ _); try discriminate.
      by destruct sideload; intros [= <-].
    + destruct (visit _ _ _); try discriminate.
      by destruct sideload; intros [= <-].
    + destruct (visitModelNodeRelationships _ _ _ _ _); try discriminate.
      by destruct sideload; intros [= <-].
Qed.

Lemma visitFields_attr_frame visit fields s sideload s' name :
  Forall (λ f, ¬ writesAttr name f) fields →
  visitFields visit fields s sideload = Next s' →
  attrOf (node s') name = attrOf (node s) name.
Proof.
  intros Hall. revert s. induction Hall as [|f fields Hf _ IH]; intros s; simpl.
  - by intros [= <-].
  - destruct (visitField visit f s sideload) as [s1| |] eqn:Hstep; try discriminate.
    intros Hrest. rewrite (IH _ Hrest). by eapply visitField_attr_frame.
Qed.

(** A [break] always comes with an error set. *)
Lemma visitField_Break_er visit f s sideload s' :
  visitField visit f s sideload = Break s' → is_Some (er s').
Proof.
  destruct f as [tag v]. unfold visitField.
  repeat (case_bool_decide; cbn [negb andb orb]); try discriminate;
    repeat match goal with
    | |- context [if ?b then _ else _] => destruct b
    | |- context [match attrValue ?a ?b with _ => _ end] => destruct (attrValue a b) as [[?|]|]
    | |- context [match ?v with VString _ => _ | _ => _ end] => destruct v as [| | | | | |[?|]| | | |[|??]]
    | |- context [match visit ?a ?b ?c with _ => _ end] => destruct (visit a b c)
    | |- context [match visitModelNodeRelationships ?a ?b ?c ?d ?e with _ => _ end] =>
        destruct (visitModelNodeRelationships a b c d e)
    end; try discriminate; by intros [= <-].
Qed.

Lemma visitFields_Break_er visit fields s sideload s' :
  visitFields visit fields s sideload = Break s' → is_Some (er s').
Proof.
  revert s. induction fields as [|f fields IH]; intros s; simpl; [discriminate|].
  destruct (visitField visit f s sideload) as [s1|s1|] eqn:Hstep; try discriminate.
  - apply IH.
  - intros [= <-]. by eapply visitField_Break_er.
Qed.

(** A visit that returns a node ran its loop to the end without error. *)
Lemma visitModelNode_Done_fields fields inc sideload n inc' :
  visitModelNode (VStructPtr fields) inc sideload = Done n inc' →
  ∃ s', visitFields visitModelNode fields (mkFrame newNode None inc) sideload = Next s'
        ∧ node s' = n ∧ er s' = None ∧ included s' = inc'.
Proof.
  simpl. destruct (visitFields _ _ _ _) as [s'|s'|] eqn:Hloop; simpl; try discriminate.
  - destruct (er s') eqn:He; [discriminate|]. intros [= <- <-]. by exists s'.
  - apply visitFields_Break_er in Hloop as [e He]. by rewrite He.
Qed.

(** What the node of a visited object maps an attribute name to, when one
    field alone stores under that name. *)
Lemma visitModelNode_attr_lookup tag name rest v pre post inc sideload n inc' :
  Split tag "," = "attr" :: name :: rest →
  Forall (λ f, ¬ writesAttr name f) (pre ++ post) →
  visitModelNode (VStructPtr (pre ++ (tag, v) :: post)) inc sideload = Done n inc' →
  attrOf n name =
    match attrValue v (omitEmptyOf rest) with
    | Some (Some a) => Some a
    | _ => None
    end.
Proof.
  intros Hsplit [Hpre Hpost]%Forall_app Hdone.
  apply visitModelNode_Done_fields in Hdone as (sF & Hloop & <- & _ & _).
  rewrite visitFields_app in Hloop.
  destruct (visitFields _ pre _ _) as [s1| |] eqn:H1; try discriminate.
  cbn [visitFields] in Hloop. rewrite (visitField_attr _ _ _ _ _ _ _ Hsplit) in Hloop.
  pose proof (visitFields_attr_frame _ _ _ _ _ _ Hpre H1) as Hf1.
  change (attrOf (node {| node := newNode; er := None; included := inc |}) name)
    with (@None Any) in Hf1.
  destruct (attrValue v (omitEmptyOf rest)) as [[a|]|]; try discriminate.
  - rewrite (visitFields_attr_frame _ _ _ _ _ _ Hpost Hloop).
    unfold attrOf, setAttr. simpl. by rewrite lookup_insert_eq.
  - by rewrite (visitFields_attr_frame _ _ _ _ _ _ Hpost Hloop).
Qed.



(** For a value of a comparable type that equals its zero value the
    attribute is left out with omitempty and stored as it is without. *)
Lemma zero_attribute_of_comparable_type
    tag name rest v pre post inc sideload n inc' :
  Split tag "," = "attr" :: name :: rest →
  Forall (λ f, ¬ writesAttr name f) (pre ++ post) →
  visitModelNode (VStructPtr (pre ++ (tag, v) :: post)) inc sideload = Done n inc' →
  (∀ t, v ≠ VTime t) → (∀ t, v ≠ VTimePtr t) →
  equalsZero v = Some true →
  attrOf n name = if omitEmptyOf rest then None else Some (Some v).
Proof.
  intros Hsplit Hothers Hdone Ht Hp Hz.
  rewrite (visitModelNode_attr_lookup _ _ _ _ _ _ _ _ _ _ Hsplit Hothers Hdone).
  destruct v; try (by destruct (Ht t)); try (by destruct (Hp t));
    simpl in *; destruct (omitEmptyOf rest); try done;
    by injection Hz as ->.
Qed.

(** C9 at its failing input: an attribute field of a slice type holding
    the nil slice, tagged omitempty.  The comparison with the zero value
    panics, in the field's pass and so in the whole marshal; without
    omitempty the same field is stored. *)
Theorem C9_omitempty_on_a_slice_panics :
  (∀ visit s sideload,
     visitField visit ("attr,tags,omitempty", VNilSlice) s sideload = Crash)
  ∧ MarshalOne (VStructPtr [("primary,posts", VString "1");
                            ("attr,tags,omitempty", VNilSlice)]) = Panic
  ∧ ∃ p, MarshalOne (VStructPtr [("primary,posts", VString "1");
                                 ("attr,tags", VNilSlice)]) = Ok p
         ∧ attrOf (OneData p) "tags" = Some (Some VNilSlice).
Proof.
  split; [|split].
  - intros. by rewrite (visitField_attr _ _ "tags" ["omitempty"]).
  - reflexivity.
  - eexists. split; [reflexivity|]. reflexivity.
Qed.

(** ** Field descriptors *)

(** Closes [x ∈ l] or [x ∉ l] for a list of literal strings. *)
Ltac roles :=
  rewrite ?elem_of_cons, ?elem_of_nil; intuition (try discriminate; try congruence).

(** A descriptor the code rejects stops the visit before the field's value
    is looked at. *)
Lemma visitField_rejected visit tag v s sideload :
  tag ≠ "" → codeRejectsTag tag →
  visitField visit (tag, v) s sideload = Break (withEr s ErrBadJSONAPIStructTag).
Proof.
  intros Hne Hrej. unfold visitField, codeRejectsTag in *.
  rewrite bool_decide_eq_false_2 by done.
  destruct (Split tag ",") as [|a [|b rest]] eqn:Hsplit.
  - by destruct (Split_nonempty tag ",").
  - cbn [length Nat.ltb Nat.leb Nat.eqb arg nth negb andb orb] in *.
    destruct (decide (a = clientIDAnnotation)) as [->|Hc].
    + destruct Hrej as [[_ ?]|[[? _]|Hn]]; try done.
      exfalso. apply Hn. roles.
    + by rewrite !(bool_decide_eq_false_2 _ Hc).
  - cbn [length Nat.ltb Nat.leb Nat.eqb arg nth negb andb orb] in *.
    destruct (decide (a = clientIDAnnotation)) as [->|Hc]; [done|].
    rewrite !(bool_decide_eq_false_2 _ Hc). cbn [negb andb orb].
    destruct Hrej as [[? _]|[[_ ?]|Hn]]; [done|lia|].
    rewrite !bool_decide_eq_false_2; [done|intros ->; apply Hn; roles..].
Qed.

(** A descriptor the code accepts never fails the visit of a one-field
    object whose value needs no visit of its own. *)
Lemma visitField_accepted visit tag v s sideload s' :
  ¬ codeRejectsTag tag → isScalar v = true →
  visitField visit (tag, v) s sideload = Break s' →
  er s' ≠ Some ErrBadJSONAPIStructTag.
Proof.
  intros Hacc Hv. unfold visitField, codeRejectsTag in *.
  case_bool_decide; [discriminate|].
  destruct (Split tag ",") as [|a [|b rest]] eqn:Hsplit.
  - by destruct (Split_nonempty tag ",").
  - cbn [length Nat.ltb Nat.leb Nat.eqb arg nth negb andb orb] in *.
    destruct (decide (a = clientIDAnnotation)) as [->|Hc].
    + change (bool_decide (clientIDAnnotation = clientIDAnnotation)) with true.
      change (bool_decide (clientIDAnnotation = "primary")) with false.
      cbn [negb andb orb]. by case_bool_decide.
    + exfalso. apply Hacc. right. left. split; [done|lia].
  - cbn [length Nat.ltb Nat.leb Nat.eqb arg nth negb andb orb] in *.
    destruct (decide (a = clientIDAnnotation)) as [->|Hc].
    { exfalso. apply Hacc. left. split; [done|lia]. }
    rewrite !(bool_decide_eq_false_2 _ Hc). cbn [negb andb orb].
    destruct (decide (a = "primary")) as [->|Hp]; [done|].
    rewrite (bool_decide_eq_false_2 _ Hp).
    destruct (decide (a = "attr")) as [->|Hattr].
    { change (bool_decide ("attr" = "attr")) with true. cbn iota.
      by destruct (attrValue v _) as [[x|]|]. }
    rewrite (bool_decide_eq_false_2 _ Hattr).
    destruct (decide (a = "relation")) as [->|Hrel].
    { change (bool_decide ("relation" = "relation")) with true. cbn iota.
      by destruct v as [| | | | | |[?|]| | | |[|??]]. }
    exfalso. apply Hacc. right. right. roles.
Qed.

(** A pass that goes on to the next field leaves the pending error as it
    was, or has set the primary-key error. *)
Lemma visitField_Next_er visit f s sideload s' :
  visitField visit f s sideload = Next s' →
  er s' = er s ∨ er s' = Some ErrBadJSONAPIID.
Proof.
  destruct f as [tag v]. unfold visitField.
  repeat (case_bool_decide; cbn [negb andb orb]); try discriminate;
    repeat match goal with
    | |- context [if ?b then _ else _] => destruct b
    | |- context [match attrValue ?a ?b with _ => _ end] => destruct (attrValue a b) as [[?|]|]
    | |- context [match ?v with VString _ => _ | _ => _ end] => destruct v as [| | | | | |[?|]| | | |[|??]]
    | |- context [match visit ?a ?b ?c with _ => _ end] => destruct (visit a b c)
    | |- context [match visitModelNodeRelationships ?a ?b ?c ?d ?e with _ => _ end] =>
        destruct (visitModelNodeRelationships a b c d e)
    end; try discriminate; intros [= <-]; auto.
Qed.

(** C4, as stated, fails in both directions: a [primary] descriptor with
    three components is accepted, and a descriptor with an unknown first
    component is rejected although it has two components. *)
Lemma C4_counterexample :
  ¬ ((∃ inc', visitModelNode (VStructPtr [("primary,people,extra", VString "1")]) ∅ true
              = Failed ErrBadJSONAPIStructTag inc')
     ↔ specRejectsTag "primary,people,extra")
  ∧ ¬ ((∃ inc', visitModelNode (VStructPtr [("label,name", VString "x")]) ∅ true
                = Failed ErrBadJSONAPIStructTag inc')
       ↔ specRejectsTag "label,name").
Proof.
  split.
  - intros [_ H]. destruct H as [inc' H]; [|discriminate H].
    right. left. split; [reflexivity|]. simpl. lia.
  - intros [H _]. destruct H as [H|[[H _]|[[_ H]|[H _]]]];
      [by exists ∅|vm_compute in H..]; try discriminate. lia.
Qed.

(** C4, amended: the descriptor of a field is rejected with
    [ErrBadJSONAPIStructTag] exactly when it is a [client-id] descriptor
    with other than one component, or another descriptor with fewer than
    two, or its first component is none of the four roles.  Rejection
    comes before the value is looked at; the converse is read off an
    object of that one field whose value starts no visit of its own. *)
Theorem C4_descriptor_rejection :
  ∀ (tag : string) (v : Value) (inc : gmap string Node) (sideload : bool),
    tag ≠ "" →
    (codeRejectsTag tag →
       visitModelNode (VStructPtr [(tag, v)]) inc sideload
       = Failed ErrBadJSONAPIStructTag inc)
    ∧ (isScalar v = true →
       (∃ inc', visitModelNode (VStructPtr [(tag, v)]) inc sideload
                = Failed ErrBadJSONAPIStructTag inc') →
       codeRejectsTag tag).
Proof.
  intros tag v inc sideload Hne. split.
  - intros Hrej. cbn [visitModelNode visitFields].
    by rewrite visitField_rejected.
  - intros Hv [inc' H]. destruct (decide (codeRejectsTag tag)) as [|Hacc]; [done|].
    exfalso. cbn [visitModelNode visitFields] in H.
    destruct (visitField visitModelNode (tag, v) _ sideload) as [s'|s'|] eqn:Hstep;
      simpl in H; try discriminate.
    + apply visitField_Next_er in Hstep as [He|He]; simpl in He; rewrite He in H;
        discriminate.
    + pose proof (visitField_accepted _ _ _ _ _ _ Hacc Hv Hstep) as Her.
      destruct (er s') as [[]|]; try discriminate. done.
Qed.

Lemma C4_witness :
  "attr" ≠ ""
  ∧ visitModelNode (VStructPtr [("attr", VString "x")]) ∅ true
    = Failed ErrBadJSONAPIStructTag ∅.
Proof.
  split; [discriminate|].
  refine (proj1 (C4_descriptor_rejection "attr" (VString "x") ∅ true _) _).
  - discriminate.
  - right. left. split; [discriminate|]. simpl. lia.
Defined.

(** ** Errors during a visit *)

(** A rejected descriptor ends the loop at once: the fields after it are
    not visited and the error is the one returned, unless an earlier
    primary-key error is pending and is thereby replaced. *)
Lemma rejected_descriptor_stops_the_loop visit pre tag v post s s1 sideload :
  tag ≠ "" → codeRejectsTag tag →
  visitFields visit pre s sideload = Next s1 →
  visitReturn (visitFields visit (pre ++ (tag, v) :: post) s sideload)
  = Failed ErrBadJSONAPIStructTag (included s1).
Proof.
  intros Hne Hrej Hpre. rewrite visitFields_app, Hpre. cbn [visitFields].
  by rewrite visitField_rejected.
Qed.

(** C3 at its failing input: a primary key of an unsupported type (a bool)
    followed by a relationship and by a malformed descriptor.  The visit
    goes on after the primary-key error: the related animal is visited and
    put into the included map, and the error returned is the later one, of
    the descriptor, not the first.  With nothing after the key the
    primary-key error is what is returned. *)
Theorem C3_bad_primary_key_does_not_stop_the_visit :
  let pet := VStructPtr [("primary,animals", VString "7")] in
  let model := VStructPtr [("primary,people", VBool true);
                           ("relation,pet", pet);
                           ("label", VString "")] in
  (∃ inc', visitModelNode model ∅ true = Failed ErrBadJSONAPIStructTag inc'
           ∧ is_Some (inc' !! "animals,7"))
  ∧ MarshalOne model = Err ErrBadJSONAPIStructTag
  ∧ visitModelNode (VStructPtr [("primary,people", VBool true)]) ∅ true
    = Failed ErrBadJSONAPIID ∅.
Proof.
  intros pet model. split; [|split]; [|reflexivity..].
  eexists. split; [reflexivity|]. by eexists.
Qed.

(** ** Decimal text of integers *)

Lemma wrap64_id z : minInt64 <= z <= maxInt64 → wrap64 z = z.
Proof.
  unfold minInt64, maxInt64, wrap64. intros Hz.
  rewrite Z.mod_small; lia.
Qed.

(** The digits of a positive number: not empty, the first a digit. *)
Lemma string_of_uint_head (d : Decimal.uint) :
  d ≠ Decimal.Nil →
  ∃ c s, NilEmpty.string_of_uint d = String c s
         ∧ Ascii.eqb c "-" = false ∧ Ascii.eqb c "+" = false.
Proof. destruct d; try done; intros _; by eexists _, _. Qed.

Lemma ParseInt_positive p :
  Z.pos p <= maxInt64 → ParseInt (FormatInt (Z.pos p)) = inr (Z.pos p).
Proof.
  intros Hp. unfold FormatInt. simpl.
  pose proof (DecimalPos.Unsigned.to_uint_nonnil p) as Hnil.
  pose proof (NilZero.usu _ Hnil) as Husu.
  assert (NilZero.string_of_uint (Pos.to_uint p) = NilEmpty.string_of_uint (Pos.to_uint p)) as Hs
    by (by destruct (Pos.to_uint p)).
  destruct (string_of_uint_head _ Hnil) as (c & s & Hcs & Hminus & Hplus).
  rewrite Hs, Hcs in *. unfold ParseInt. rewrite Hminus, Hplus. simpl orb. cbv iota.
  rewrite Husu. unfold Z.of_uint. rewrite DecimalPos.Unsigned.of_to. simpl Z.of_N.
  simpl negb. simpl andb.
  destruct (2 ^ 63 <=? Z.pos p)%Z eqn:Hle; [|done].
  apply Z.leb_le in Hle. unfold maxInt64 in Hp. lia.
Qed.

Lemma ParseInt_negative p :
  minInt64 <= Z.neg p → ParseInt (FormatInt (Z.neg p)) = inr (Z.neg p).
Proof.
  intros Hp. unfold FormatInt. simpl.
  pose proof (DecimalPos.Unsigned.to_uint_nonnil p) as Hnil.
  pose proof (NilZero.usu _ Hnil) as Husu.
  unfold ParseInt. change (Ascii.eqb "-" "-") with true.
  change (Ascii.eqb "-" "+") with false. simpl orb. cbv iota.
  rewrite Husu. unfold Z.of_uint. rewrite DecimalPos.Unsigned.of_to. simpl Z.of_N.
  simpl negb. simpl andb.
  destruct (2 ^ 63 <? Z.pos p)%Z eqn:Hlt; [|done].
  apply Z.ltb_lt in Hlt. unfold minInt64 in Hp. lia.
Qed.

(** [strconv.ParseInt] reads back what [strconv.FormatInt] wrote. *)
Lemma ParseInt_FormatInt n :
  minInt64 <= n <= maxInt64 → ParseInt (FormatInt n) = inr n.
Proof.
  intros [Hlo Hhi]. destruct n as [|p|p].
  - reflexivity.
  - by apply ParseInt_positive.
  - by apply ParseInt_negative.
Qed.

Lemma FormatInt_not_null n : FormatInt n ≠ "null".
Proof.
  unfold FormatInt. destruct n as [|p|p]; simpl; [done| |done].
  pose proof (DecimalPos.Unsigned.to_uint_nonnil p) as Hnil.
  destruct (Pos.to_uint p); try done.
Qed.

(** ** The epoch-millisecond codec *)

(** [time.Unix(v/1000, v%1000*1e6)]: Go's truncating division followed by
    the carry of a negative nanosecond count is the floor division. *)
Lemma time_Unix_of_millis local v :
  minInt64 <= v <= maxInt64 →
  In (time_Unix local (Z.quot v 1000) (Z.rem v 1000 * Millisecond)) UTC
  = mkTime (v / 1000) (v mod 1000 * Millisecond) UTC.
Proof.
  unfold minInt64, maxInt64, Millisecond. intros Hv.
  pose proof (Z.quot_rem' v 1000) as Hqr.
  assert (-1000 < Z.rem v 1000 < 1000) as Hr
    by (pose proof (Z.rem_bound_abs v 1000); lia).
  unfold time_Unix, In.
  destruct (Z.rem v 1000 * 1000000 <? 0)%Z eqn:Hneg; simpl orb; cbv iota.
  - apply Z.ltb_lt in Hneg.
    assert (Z.quot (Z.rem v 1000 * 1000000) 1000000000 = 0) as ->
      by (apply Z.quot_small_iff; lia).
    replace (Z.rem v 1000 * 1000000 - 0 * 1000000000) with (Z.rem v 1000 * 1000000) by lia.
    rewrite (proj2 (Z.ltb_lt _ _) Hneg).
    assert (v < 0) by (pose proof (Z.rem_sign_nz v 1000); destruct (Z.sgn_spec v) as [[? ?]|[[? ?]|[? ?]]];
                       destruct (Z.sgn_spec (Z.rem v 1000)) as [[? ?]|[[? ?]|[? ?]]]; lia).
    rewrite !wrap64_id by (unfold minInt64, maxInt64; try rewrite wrap64_id;
                           unfold minInt64, maxInt64; lia).
    simpl. f_equal; Z.div_mod_to_equations; lia.
  - apply Z.ltb_ge in Hneg.
    destruct (1000000000 <=? Z.rem v 1000 * 1000000)%Z eqn:Hbig;
      [apply Z.leb_le in Hbig; lia|].
    simpl. f_equal; Z.div_mod_to_equations; lia.
Qed.

(** Decoding the decimal text of an [int64]. *)
Lemma UnixMilli_UnmarshalJSON_FormatInt local t n :
  minInt64 <= n <= maxInt64 →
  UnixMilli_UnmarshalJSON local t (FormatInt n)
  = (mkTime (n / 1000) (n mod 1000 * Millisecond) UTC, None).
Proof.
  intros Hn. unfold UnixMilli_UnmarshalJSON.
  rewrite bool_decide_eq_false_2 by apply FormatInt_not_null.
  rewrite ParseInt_FormatInt by done.
  by rewrite time_Unix_of_millis.
Qed.

(** The largest millisecond count whose nanosecond count fits [int64]. *)
Lemma UnixMilli_MarshalJSON_of_millis n :
  -9223372036854 <= n <= 9223372036854 →
  UnixMilli_MarshalJSON (mkTime (n / 1000) (n mod 1000 * Millisecond) UTC) = FormatInt n.
Proof.
  intros Hn. unfold UnixMilli_MarshalJSON, UnixNano, Millisecond. simpl. f_equal.
  replace (n / 1000 * 1000000000 + n mod 1000 * 1000000) with (n * 1000000)
    by (Z.div_mod_to_equations; lia).
  rewrite wrap64_id by (unfold minInt64, maxInt64; lia).
  by rewrite Z.quot_mul.
Qed.

(** C10, as stated, fails: ten trillion milliseconds (the year 2286) is an
    [int64], decodes, and is written back as another number, its
    nanosecond count having wrapped around. *)
Lemma C10_counterexample :
  minInt64 <= 10000000000000 <= maxInt64
  ∧ ∀ local t,
      UnixMilli_MarshalJSON (UnixMilli_UnmarshalJSON local t (FormatInt 10000000000000)).1
      = "-8446744073709"
      ∧ FormatInt 10000000000000 ≠ "-8446744073709".
Proof.
  split; [by vm_compute|]. intros local t.
  rewrite UnixMilli_UnmarshalJSON_FormatInt by (by vm_compute).
  split; [by vm_compute|]. by vm_compute.
Qed.

(** C10, amended: the decimal text of any [int64] decodes without error
    to a time in UTC, whatever the target held before and whatever the
    local zone is; written back, that time gives the same text when the
    count is at most 9223372036854 in magnitude, so that its nanosecond
    count fits an [int64]. *)
Theorem C10_decode_then_encode :
  ∀ (n : Z) (local : Z -> Z) (t : Time),
    minInt64 <= n <= maxInt64 →
    ∃ t', UnixMilli_UnmarshalJSON local t (FormatInt n) = (t', None)
          ∧ offset t' = UTC
          ∧ (-9223372036854 <= n <= 9223372036854 →
             UnixMilli_MarshalJSON t' = FormatInt n).
Proof.
  intros n local t Hn. eexists. split; [by apply UnixMilli_UnmarshalJSON_FormatInt|].
  split; [done|]. apply UnixMilli_MarshalJSON_of_millis.
Qed.

Lemma C10_witness :
  minInt64 <= 1257894000999 <= maxInt64
  ∧ ∃ t', UnixMilli_UnmarshalJSON (λ _, 3600) zeroTime (FormatInt 1257894000999) = (t', None)
          ∧ offset t' = UTC
          ∧ UnixMilli_MarshalJSON t' = FormatInt 1257894000999.
Proof.
  assert (minInt64 <= 1257894000999 <= maxInt64) as H by (by vm_compute).
  split; [exact H|].
  destruct (C10_decode_then_encode 1257894000999 (λ _, 3600) zeroTime H)
    as (t' & Hdec & Hutc & Henc).
  exists t'. split; [exact Hdec|]. split; [exact Hutc|].
  apply Henc. by vm_compute.
Defined.

(** ** Sideloading: one node per resource *)

(** Induction on values through the fields of structs and the elements
    of slices. *)
Lemma Value_nested_ind (P : Value → Prop) :
  (∀ s, P (VString s)) → (∀ n, P (VInt n)) → (∀ n, P (VInt64 n)) →
  (∀ n, P (VUint64 n)) → (∀ b, P (VBool b)) → (∀ t, P (VTime t)) →
  (∀ t, P (VTimePtr t)) → P VNilPtr →
  (∀ fields, Forall (λ f, P f.2) fields → P (VStructPtr fields)) →
  P VNilSlice →
  (∀ elems, Forall P elems → P (VSlice elems)) →
  ∀ v, P v.
Proof.
  intros Hs Hi Hi64 Hu Hb Ht Htp Hnp Hst Hns Hsl.
  fix IH 1.
  intros [s|n|n|n|b|t|t| |fields| |elems];
    [apply Hs|apply Hi|apply Hi64|apply Hu|apply Hb|apply Ht|apply Htp|apply Hnp|
     |apply Hns|].
  - apply Hst. induction fields as [|[tag v] fields IHf]; constructor; [apply IH|apply IHf].
  - apply Hsl. induction elems as [|v elems IHe]; constructor; [apply IH|apply IHe].
Qed.

(** No component of a descriptor split at the commas holds a comma. *)
Lemma Split_no_comma s : Forall (λ x, hasComma x = false) (Split s ",").
Proof.
  induction s as [|c s IH]; simpl.
  - by repeat constructor.
  - destruct (Ascii.eqb c ",") eqn:Hc.
    + by constructor.
    + pose proof (Split_nonempty s ",") as Hne.
      destruct (Split s ",") as [|x xs]; [done|].
      apply Forall_cons in IH as [Hx Hxs]. constructor; [|done].
      simpl. by rewrite Hc.
Qed.

Lemma arg_Split_no_comma tag i : hasComma (arg (Split tag ",") i) = false.
Proof.
  unfold arg. destruct (nth_in_or_default i (Split tag ",") "") as [Hin| ->]; [|done].
  pose proof (Split_no_comma tag) as Hall. rewrite Forall_forall in Hall.
  apply Hall. by apply list_elem_of_In.
Qed.

(** The key of the included map determines type and id, the type being
    free of commas. *)
Lemma comma_key_inj a b a' b' :
  hasComma a = false → hasComma a' = false →
  a +:+ "," +:+ b = a' +:+ "," +:+ b' → a = a' ∧ b = b'.
Proof.
  revert a'. induction a as [|c a IH]; intros [|c' a'] Ha Ha' Heq.
  - change (String "," b = String "," b') in Heq. by injection Heq as ->.
  - change (String "," b = String c' (a' +:+ "," +:+ b')) in Heq.
    injection Heq as <- _. simpl in Ha'. done.
  - change (String c (a +:+ "," +:+ b) = String "," b') in Heq.
    injection Heq as -> _. simpl in Ha. done.
  - change (String c (a +:+ "," +:+ b) = String c' (a' +:+ "," +:+ b')) in Heq.
    injection Heq as -> Heq. simpl in Ha, Ha'.
    apply orb_false_elim in Ha as [_ Ha]. apply orb_false_elim in Ha' as [_ Ha'].
    by destruct (IH a' Ha Ha' Heq) as [-> ->].
Qed.

Lemma includedKey_inj n m :
  hasComma (Type_ n) = false → hasComma (Type_ m) = false →
  includedKey n = includedKey m → typeID n = typeID m.
Proof.
  intros Hn Hm Hk. unfold typeID.
  destruct (comma_key_inj _ _ _ _ Hn Hm Hk) as [-> ->]. done.
Qed.

Lemma goodNode_mono inc inc' n :
  inc ⊆ inc' → goodNode inc n → goodNode inc' n.
Proof.
  intros Hsub [Hty Hlinks]. split; [done|]. intros r Hr.
  destruct (Hlinks r Hr) as (Hsh & Hc & [m Hm]). split_and!; try done.
  exists m. by eapply lookup_weaken.
Qed.

(** [appendIncluded] keeps what is there: a node whose key is taken is
    dropped, a new one is added beside the others. *)
Lemma appendIncluded_taken inc n :
  is_Some (inc !! includedKey n) → appendIncluded inc n = inc.
Proof. intros [m Hm]. unfold appendIncluded. by rewrite Hm. Qed.

Lemma appendIncluded_subseteq inc n : inc ⊆ appendIncluded inc n.
Proof.
  unfold appendIncluded. destruct (inc !! includedKey n) eqn:Hk; [done|].
  by apply insert_subseteq.
Qed.

Lemma appendIncluded_has inc n : is_Some (appendIncluded inc n !! includedKey n).
Proof.
  unfold appendIncluded. destruct (inc !! includedKey n) eqn:Hk; [by rewrite Hk|].
  by rewrite lookup_insert_eq.
Qed.

Lemma appendIncluded_good inc n :
  goodIncluded inc → goodNode inc n → goodIncluded (appendIncluded inc n).
Proof.
  intros Hinc Hn k m Hkm.
  pose proof (appendIncluded_subseteq inc n) as Hsub.
  unfold appendIncluded in Hkm. destruct (inc !! includedKey n) eqn:Hk.
  - destruct (Hinc k m Hkm) as [-> Hm]. split; [done|]. by eapply goodNode_mono.
  - apply lookup_insert_Some in Hkm as [[<- <-]|[_ Hkm]].
    + split; [done|]. by eapply goodNode_mono.
    + destruct (Hinc k m Hkm) as [-> Hm]. split; [done|]. by eapply goodNode_mono.
Qed.

Lemma fold_appendIncluded_subseteq d inc : inc ⊆ fold_left appendIncluded d inc.
Proof.
  revert inc. induction d as [|n d IH]; intros inc; simpl; [done|].
  etrans; [apply appendIncluded_subseteq|apply IH].
Qed.

Lemma fold_appendIncluded_good d inc :
  goodIncluded inc → Forall (goodNode inc) d →
  goodIncluded (fold_left appendIncluded d inc).
Proof.
  revert inc. induction d as [|n d IH]; intros inc Hinc Hd; simpl; [done|].
  apply Forall_cons in Hd as [Hn Hd]. apply IH.
  - by apply appendIncluded_good.
  - eapply Forall_impl; [exact Hd|]. intros m. apply goodNode_mono.
    apply appendIncluded_subseteq.
Qed.

Lemma fold_appendIncluded_has d inc n :
  n ∈ d → is_Some (fold_left appendIncluded d inc !! includedKey n).
Proof.
  revert inc. induction d as [|m d IH]; intros inc Hin; simpl.
  - by apply elem_of_nil in Hin.
  - apply elem_of_cons in Hin as [->|Hin]; [|by apply IH].
    destruct (appendIncluded_has inc m) as [x Hx]. exists x.
    eapply lookup_weaken; [exact Hx|apply fold_appendIncluded_subseteq].
Qed.

Lemma includedKey_toShallowNode n : includedKey (toShallowNode n) = includedKey n.
Proof. done. Qed.

Lemma shallow_toShallowNode n : shallow (toShallowNode n).
Proof. done. Qed.

(** The loop over the models of a relationship or of a many-marshal. *)
Lemma visitEach_ok visit models nodes inc :
  Forall (visitOK visit) models →
  goodIncluded inc → Forall (goodNode inc) nodes →
  match visitEach visit models nodes inc true with
  | Done ns inc' => goodIncluded inc' ∧ inc ⊆ inc' ∧ Forall (goodNode inc') ns
  | Failed _ inc' => goodIncluded inc' ∧ inc ⊆ inc'
  | Panicked => True
  end.
Proof.
  intros Hmodels. revert nodes inc.
  induction Hmodels as [|m models Hm _ IH]; intros nodes inc Hinc Hnodes; simpl; [done|].
  specialize (Hm inc Hinc). destruct (visit m inc true) as [n inc1|e inc1|]; [|done..].
  destruct Hm as (Hinc1 & Hsub & Hn).
  assert (Forall (goodNode inc1) (nodes ++ [n])%list) as Hnodes1.
  { apply Forall_app. split; [|by apply Forall_singleton].
    eapply Forall_impl; [exact Hnodes|]. intros x. by apply goodNode_mono. }
  specialize (IH _ _ Hinc1 Hnodes1).
  destruct (visitEach visit models (nodes ++ [n])%list inc1 true) as [ns inc2|e inc2|]; [| |done].
  - destruct IH as (? & ? & ?). split_and!; try done. by etrans.
  - destruct IH as (? & ?). split; [done|]. by etrans.
Qed.

(** A node keeps the invariant when fields other than its type and its
    relationships change. *)
Lemma goodNode_same_links inc n n' :
  Type_ n' = Type_ n → madeMap (Relationships n') = madeMap (Relationships n) →
  goodNode inc n → goodNode inc n'.
Proof.
  intros Hty Hrel [Hc Hlinks]. split; [by rewrite Hty|].
  intros r (name & l & Hl & Hr). apply Hlinks. exists name, l.
  by rewrite <- Hrel.
Qed.

Lemma goodNode_setType inc n ty :
  hasComma ty = false → goodNode inc n → goodNode inc (setType n ty).
Proof. intros Hty [_ Hlinks]. by split. Qed.

Lemma goodNode_setRel inc n name l :
  goodNode inc n →
  (∀ r, r ∈ linkageNodes l →
     shallow r ∧ hasComma (Type_ r) = false ∧ is_Some (inc !! includedKey r)) →
  goodNode inc (setRelationships n (<[name := l]> (madeMap (Relationships n)))).
Proof.
  intros [Hc Hlinks] Hl. split; [done|].
  intros r (name' & l' & Hl' & Hr). simpl in Hl'.
  apply lookup_insert_Some in Hl' as [[<- <-]|[_ Hl']]; [by apply Hl|].
  apply Hlinks. by exists name', l'.
Qed.

(** One pass of a sideloading visit keeps the invariant and only adds to
    the included map. *)
Lemma visitField_ok visit tag v s :
  visitOK visit v →
  (∀ elems, v = VSlice elems → Forall (visitOK visit) elems) →
  goodFrame s →
  match visitField visit (tag, v) s true with
  | Next s' | Break s' => goodFrame s' ∧ included s ⊆ included s'
  | Crash => True
  end.
Proof.
  intros Hself Helems [Hinc Hnode]. unfold visitField.
  case_bool_decide; [done|].
  destruct (_ <? _)%nat; [done|].
  destruct (_ || _); [done|].
  case_bool_decide.
  { split; [|by destruct v]. split; [by destruct v|].
    apply goodNode_setType; [apply arg_Split_no_comma|]. by destruct v. }
  case_bool_decide.
  { case_bool_decide; [done|]. split; [|done]. split; [done|].
    by eapply goodNode_same_links; [..|exact Hnode]. }
  case_bool_decide.
  { destruct (attrValue v _) as [[a|]|]; [| |done].
    - split; [|done]. split; [done|]. by eapply goodNode_same_links; [..|exact Hnode].
    - split; [|done]. split; [done|]. by eapply goodNode_same_links; [..|exact Hnode]. }
  case_bool_decide; [|done].
  assert (goodNode (included s) (node (makeRelationships s))) as Hnode1
    by (by eapply goodNode_same_links; [..|exact Hnode]).
  destruct v as [| | | | | |[t|]| |fields| |[|m models]]; try done.
  - (* a pointer to a time *)
    specialize (Hself _ Hinc). cbn [makeRelationships withNode included] in *.
    destruct (visit (VTimePtr (Some t)) (included s) true) as [n inc|e inc|]; [| |done].
    + destruct Hself as (Hinc' & Hsub & Hn).
      pose proof (appendIncluded_subseteq inc n) as Hsub'.
      split; [|by etrans]. split; [by apply appendIncluded_good|].
      apply goodNode_setRel.
      * eapply goodNode_mono; [|exact Hnode1]. by etrans.
      * intros r [->|[]%elem_of_nil]%elem_of_cons. split; [done|].
        split; [exact (proj1 Hn)|]. exact (appendIncluded_has inc n).
    + destruct Hself as (Hinc' & Hsub). split; [|done]. split; [done|].
      by eapply goodNode_mono.
  - (* a pointer to a struct *)
    specialize (Hself _ Hinc). cbn [makeRelationships withNode included] in *.
    destruct (visit (VStructPtr fields) (included s) true) as [n inc|e inc|]; [| |done].
    + destruct Hself as (Hinc' & Hsub & Hn).
      pose proof (appendIncluded_subseteq inc n) as Hsub'.
      split; [|by etrans]. split; [by apply appendIncluded_good|].
      apply goodNode_setRel.
      * eapply goodNode_mono; [|exact Hnode1]. by etrans.
      * intros r [->|[]%elem_of_nil]%elem_of_cons. split; [done|].
        split; [exact (proj1 Hn)|]. exact (appendIncluded_has inc n).
    + destruct Hself as (Hinc' & Hsub). split; [|done]. split; [done|].
      by eapply goodNode_mono.
  - (* a slice *)
    specialize (Helems _ eq_refl).
    pose proof (visitEach_ok visit (m :: models) [] (included s) Helems Hinc
                  (Forall_nil_2 _)) as Hloop.
    unfold visitModelNodeRelationships. cbn [makeRelationships withNode included] in *.
    destruct (visitEach visit (m :: models) [] (included s) true) as [d inc|e inc|];
      [| |done].
    + destruct Hloop as (Hinc' & Hsub & Hd).
      pose proof (fold_appendIncluded_subseteq d inc) as Hsub'.
      split; [|by etrans]. split; [by apply fold_appendIncluded_good|].
      apply goodNode_setRel.
      * eapply goodNode_mono; [|exact Hnode1]. by etrans.
      * intros r (n & -> & Hn)%list_elem_of_fmap. split; [done|].
        rewrite Forall_forall in Hd. split; [exact (proj1 (Hd n Hn))|].
        exact (fold_appendIncluded_has d inc n Hn).
    + destruct Hloop as (Hinc' & Hsub). split; [|done]. split; [done|].
      by eapply goodNode_mono.
Qed.

Lemma visitFields_ok visit fields s :
  Forall (λ f, visitOK visit f.2
               ∧ ∀ elems, f.2 = VSlice elems → Forall (visitOK visit) elems) fields →
  goodFrame s →
  match visitFields visit fields s true with
  | Next s' | Break s' => goodFrame s' ∧ included s ⊆ included s'
  | Crash => True
  end.
Proof.
  intros Hfields. revert s.
  induction Hfields as [|[tag v] fields [Hv Hel] _ IH]; intros s Hs;
    cbn [visitFields]; [done|].
  pose proof (visitField_ok visit tag v s Hv Hel Hs) as Hstep.
  destruct (visitField visit (tag, v) s true) as [s1|s1|]; [|done..].
  destruct Hstep as [Hs1 Hsub]. specialize (IH s1 Hs1).
  destruct (visitFields visit fields s1 true) as [s2|s2|]; [| |done];
    (destruct IH as [? ?]; split; [done|by etrans]).
Qed.

Lemma goodNode_newNode inc : goodNode inc newNode.
Proof.
  split; [done|]. intros r (name & l & Hl & _).
  change (madeMap (Relationships newNode)) with (∅ : gmap string (Linkage Node)) in Hl.
  by rewrite lookup_empty in Hl.
Qed.

(** The sideloading visit keeps the invariant of the included map, only
    adds to the map, and returns a node whose linkages are shallow and
    resolved by the map. *)
Lemma visitModelNode_ok v :
  visitOK visitModelNode v
  ∧ ∀ elems, v = VSlice elems → Forall (visitOK visitModelNode) elems.
Proof.
  induction v as [s|n|n|n|b|t|t| |fields IH| |elems IH] using Value_nested_ind;
    try (split; [by intros inc Hinc|by intros elems' [=]]).
  - split; [|by intros elems' [=]]. intros inc Hinc. destruct t as [t|]; [|done].
    simpl. split_and!; [done..|apply goodNode_newNode].
  - split; [|by intros elems' [=]]. intros inc Hinc.
    pose proof (visitFields_ok visitModelNode fields (mkFrame newNode None inc) IH
                  (conj Hinc (goodNode_newNode inc))) as Hloop.
    cbn [visitModelNode].
    destruct (visitFields visitModelNode fields _ true) as [s'|s'|]; [| |done];
      destruct Hloop as [[Hinc' Hnode] Hsub]; simpl in Hsub; unfold visitReturn;
      by destruct (er s').
  - split; [by intros inc Hinc|]. intros elems' [= <-].
    eapply Forall_impl; [exact IH|]. by intros x [Hx _].
Qed.

(** Whatever the mode, a visit leaves every entry of the included map as
    it found it. *)
Lemma visitEach_mono visit models nodes inc sideload :
  Forall (visitMono visit sideload) models →
  match visitEach visit models nodes inc sideload with
  | Done _ inc' | Failed _ inc' => inc ⊆ inc'
  | Panicked => True
  end.
Proof.
  intros Hmodels. revert nodes inc.
  induction Hmodels as [|m models Hm _ IH]; intros nodes inc; simpl; [done|].
  specialize (Hm inc). destruct (visit m inc sideload) as [n inc1|e inc1|]; [|done..].
  specialize (IH (nodes ++ [n])%list inc1).
  destruct (visitEach visit models (nodes ++ [n])%list inc1 sideload); [..|done];
    by etrans.
Qed.

Lemma visitField_mono visit tag v s sideload :
  visitMono visit sideload v →
  (∀ elems, v = VSlice elems → Forall (visitMono visit sideload) elems) →
  match visitField visit (tag, v) s sideload with
  | Next s' | Break s' => included s ⊆ included s'
  | Crash => True
  end.
Proof.
  intros Hself Helems. unfold visitField.
  case_bool_decide; [done|].
  destruct (_ <? _)%nat; [done|].
  destruct (_ || _); [done|].
  case_bool_decide; [by destruct v|].
  case_bool_decide; [by case_bool_decide|].
  case_bool_decide; [by destruct (attrValue v _) as [[a|]|]|].
  case_bool_decide; [|done].
  destruct v as [| | | | | |[t|]| |fields| |[|m models]]; try done.
  - specialize (Hself (included s)). cbn [makeRelationships withNode included].
    destruct (visit _ _ _) as [n inc|e inc|]; [|done..].
    destruct sideload; [|done]. cbn. etrans; [done|apply appendIncluded_subseteq].
  - specialize (Hself (included s)). cbn [makeRelationships withNode included].
    destruct (visit _ _ _) as [n inc|e inc|]; [|done..].
    destruct sideload; [|done]. cbn. etrans; [done|apply appendIncluded_subseteq].
  - pose proof (visitEach_mono visit (m :: models) [] (included s) sideload
                  (Helems _ eq_refl)) as Hloop.
    unfold visitModelNodeRelationships. cbn [makeRelationships withNode included].
    destruct (visitEach _ _ _ _ _) as [d inc|e inc|]; [|done..].
    destruct sideload; [|done]. cbn. etrans; [done|apply fold_appendIncluded_subseteq].
Qed.

Lemma visitFields_mono visit fields s sideload :
  Forall (λ f, visitMono visit sideload f.2
               ∧ ∀ elems, f.2 = VSlice elems → Forall (visitMono visit sideload) elems)
         fields →
  match visitFields visit fields s sideload with
  | Next s' | Break s' => included s ⊆ included s'
  | Crash => True
  end.
Proof.
  intros Hfields. revert s.
  induction Hfields as [|[tag v] fields [Hv Hel] _ IH]; intros s;
    cbn [visitFields]; [done|].
  pose proof (visitField_mono visit tag v s sideload Hv Hel) as Hstep.
  destruct (visitField visit (tag, v) s sideload) as [s1|s1|]; [|done..].
  specialize (IH s1).
  destruct (visitFields visit fields s1 sideload); [..|done]; by etrans.
Qed.

Lemma visitModelNode_mono sideload v :
  visitMono visitModelNode sideload v
  ∧ ∀ elems, v = VSlice elems → Forall (visitMono visitModelNode sideload) elems.
Proof.
  induction v as [s|n|n|n|b|t|t| |fields IH| |elems IH] using Value_nested_ind;
    try (split; [by intros inc|by intros elems' [=]]).
  - split; [|by intros elems' [=]]. intros inc. by destruct t; simpl.
  - split; [|by intros elems' [=]]. intros inc.
    pose proof (visitFields_mono visitModelNode fields (mkFrame newNode None inc)
                  sideload IH) as Hloop.
    cbn [visitModelNode].
    destruct (visitFields visitModelNode fields _ sideload) as [s'|s'|]; [| |done];
      unfold visitReturn; by destruct (er s').
  - split; [by intros inc|]. intros elems' [= <-].
    eapply Forall_impl; [exact IH|]. by intros x [Hx _].
Qed.

(** From the invariant of the map to the property of the payload. *)
Lemma deduplicated_of_good roots inc :
  goodIncluded inc → Forall (goodNode inc) roots →
  deduplicated roots (nodeMapValues inc).
Proof.
  intros Hinc Hroots. unfold nodeMapValues. split.
  - apply (NoDup_fmap_1 (λ p : string * string, p.1 +:+ "," +:+ p.2)).
    rewrite <- !list_fmap_compose.
    rewrite (list_fmap_ext _ fst (map_to_list inc)); [apply NoDup_fst_map_to_list|].
    intros i [k n] Hi. apply list_elem_of_lookup_2, elem_of_map_to_list in Hi.
    by destruct (Hinc k n Hi) as [-> _].
  - assert (∀ n, goodNode inc n → ∀ r, linkedFrom n r →
              shallow r ∧ ∃ n', n' ∈ (map_to_list inc).*2 ∧ typeID n' = typeID r) as Hlinks.
    { intros n [_ Hn] r Hr. destruct (Hn r Hr) as (Hsh & Hc & [n' Hn']).
      split; [done|]. exists n'. split.
      - apply list_elem_of_fmap. exists (includedKey r, n'). split; [done|].
        by apply elem_of_map_to_list.
      - destruct (Hinc _ _ Hn') as [Hk [Hc' _]]. by apply includedKey_inj. }
    intros n r [Hn|Hn]%elem_of_app Hr.
    + rewrite Forall_forall in Hroots. by eapply Hlinks; [apply Hroots|].
    + apply list_elem_of_fmap in Hn as ([k n'] & -> & Hn).
      apply elem_of_map_to_list in Hn. destruct (Hinc _ _ Hn) as [_ Hgood].
      by eapply Hlinks.
Qed.

Lemma goodIncluded_empty : goodIncluded ∅.
Proof. intros k n Hk. by rewrite lookup_empty in Hk. Qed.

Lemma marshalManyLoop_ok models data inc :
  goodIncluded inc → Forall (goodNode inc) (default [] data) →
  match marshalManyLoop models data inc with
  | Done data' inc' => goodIncluded inc' ∧ Forall (goodNode inc') (default [] data')
  | _ => True
  end.
Proof.
  revert data inc. induction models as [|m models IH]; intros data inc Hinc Hdata;
    simpl; [done|].
  pose proof (proj1 (visitModelNode_ok m) inc Hinc) as Hm.
  destruct (visitModelNode m inc true) as [n inc1|e inc1|]; [|done..].
  destruct Hm as (Hinc1 & Hsub & Hn). apply IH; [done|]. simpl.
  apply Forall_app. split; [|by apply Forall_singleton].
  eapply Forall_impl; [exact Hdata|]. intros x. by apply goodNode_mono.
Qed.

Lemma MarshalOne_deduplicated model p :
  MarshalOne model = Ok p → deduplicated [OneData p] (OneIncluded p).
Proof.
  unfold MarshalOne.
  pose proof (proj1 (visitModelNode_ok model) ∅ goodIncluded_empty) as Hv.
  destruct (visitModelNode model ∅ true) as [n inc|e inc|]; [|done..].
  intros [= <-]. destruct Hv as (Hinc & _ & Hn). simpl.
  apply deduplicated_of_good; [done|by apply Forall_singleton].
Qed.

Lemma MarshalMany_deduplicated models p :
  MarshalMany models = Ok p →
  deduplicated (default [] (ManyData p)) (ManyIncluded p).
Proof.
  unfold MarshalMany, marshalMany.
  pose proof (marshalManyLoop_ok models None ∅ goodIncluded_empty (Forall_nil_2 _)) as Hloop.
  destruct (marshalManyLoop models None ∅) as [data inc|e inc|]; [|done..].
  intros [= <-]. destruct Hloop as [Hinc Hdata]. simpl.
  apply deduplicated_of_good; [done|].
  by destruct (length models =? 0)%nat; [apply Forall_nil_2|].
Qed.

(** ** Checks by enumeration *)

Lemma checkRange_spec check fuel lo :
  checkRange check fuel lo = true →
  ∀ z, lo <= z < lo + Z.of_nat fuel → check z = true.
Proof.
  revert lo. induction fuel as [|fuel IH]; intros lo Hall z Hz; [lia|].
  simpl in Hall. apply andb_true_iff in Hall as [Hlo Hrest].
  destruct (decide (z = lo)) as [->|Hne]; [done|].
  apply (IH (lo + 1)); [done|lia].
Qed.

Lemma checkRange_below check n :
  checkRange check (Z.to_nat n) 0 = true → ∀ z, 0 <= z < n → check z = true.
Proof.
  intros Hall z Hz. apply (checkRange_spec _ _ _ Hall). lia.
Qed.

(** ** Digits *)

Lemma digitChar_spec d :
  0 <= d < 10 → isDigit (digitChar d) = true ∧ digitVal (digitChar d) = d.
Proof.
  intros Hd.
  assert (checkRange (λ d, isDigit (digitChar d) && (digitVal (digitChar d) =? d)%Z)
            (Z.to_nat 10) 0 = true) as Hall by (by vm_compute).
  pose proof (checkRange_below _ _ Hall d Hd) as H. simpl in H.
  apply andb_true_iff in H as [H1 H2]. split; [done|]. by apply Z.eqb_eq.
Qed.

Lemma appendInt_two x : 0 <= x < 100 → appendInt x 2 = twoDigits x.
Proof.
  intros Hx.
  assert (checkRange (λ x, String.eqb (appendInt x 2) (twoDigits x)) (Z.to_nat 100) 0
          = true) as Hall by (by vm_compute).
  apply String.eqb_eq. by apply (checkRange_below _ _ Hall).
Qed.

Lemma appendInt_four x : 0 <= x < 10000 → appendInt x 4 = fourDigits x.
Proof.
  intros Hx.
  assert (checkRange (λ x, String.eqb (appendInt x 4) (fourDigits x)) (Z.to_nat 10000) 0
          = true) as Hall by (by vm_compute).
  apply String.eqb_eq. by apply (checkRange_below _ _ Hall).
Qed.

(** ** The calendar *)

(** The year of the era and the day of that year. *)
Lemma yearOfEra_bounds doe :
  0 <= doe < 146097 →
  let yoe := (doe - doe / 1460 + doe / 36524 - doe / 146096) / 365 in
  let doy := doe - (365 * yoe + yoe / 4 - yoe / 100) in
  0 <= yoe < 400 ∧ 0 <= doy <= 365
  ∧ (doy = 365 → (yoe + 1) mod 4 = 0 ∧ ((yoe + 1) mod 100 ≠ 0 ∨ yoe = 399)).
Proof.
  intros H yoe doy. subst doy yoe. Z.div_mod_to_equations; lia.
Qed.

Lemma monthOfYear_bounds doy :
  0 <= doy <= 365 →
  let mp := (5 * doy + 2) / 153 in
  let d := doy - (153 * mp + 2) / 5 + 1 in
  0 <= mp <= 11 ∧ 1 <= d <= 31
  ∧ (mp = 1 ∨ mp = 3 ∨ mp = 6 ∨ mp = 8 → d <= 30)
  ∧ (mp = 11 → d <= 29 ∧ (d = 29 → doy = 365)).
Proof.
  intros H mp d. subst d mp. Z.div_mod_to_equations; lia.
Qed.

Lemma civilFromDays_inverse days :
  let '(y, m, d) := civilFromDays days in
  1 <= m <= 12 ∧ 1 <= d <= daysIn m y ∧ daysFromCivil y m d = days.
Proof.
  unfold civilFromDays.
  set (z := days + 719468). set (era := z / 146097). set (doe := z mod 146097).
  assert (0 <= doe < 146097) as Hdoe by (apply Z.mod_pos_bound; lia).
  assert (z = era * 146097 + doe) as Hz by (subst era doe; Z.div_mod_to_equations; lia).
  pose proof (yearOfEra_bounds doe Hdoe) as Hy. cbv zeta in Hy.
  set (yoe := (doe - doe / 1460 + doe / 36524 - doe / 146096) / 365) in *.
  set (doy := doe - (365 * yoe + yoe / 4 - yoe / 100)) in *.
  destruct Hy as (Hyoe & Hdoy & Hleap).
  pose proof (monthOfYear_bounds doy Hdoy) as Hm. cbv zeta in Hm.
  set (mp := (5 * doy + 2) / 153) in *.
  set (d := doy - (153 * mp + 2) / 5 + 1) in *.
  destruct Hm as (Hmp & Hd & H30 & H29).
  assert (z = days + 719468) as Hzd by done.
  assert (doy = doe - (365 * yoe + yoe / 4 - yoe / 100)) as Hdoy_eq by done.
  assert (d = doy - (153 * mp + 2) / 5 + 1) as Hd_eq by done.
  clearbody z era doe yoe doy mp d.
  destruct (Z.ltb_spec mp 10) as [Hlt|Hge].
  - (* March to December *)
    assert ((mp + 3 <=? 2)%Z = false) as -> by lia.
    split; [lia|]. split.
    + unfold daysIn. replace (mp + 3 =? 2)%Z with false by lia.
      destruct (_ || _) eqn:H; [|lia].
      repeat (apply orb_true_iff in H as [H|H]); apply Z.eqb_eq in H; lia.
    + unfold daysFromCivil.
      assert ((mp + 3 <=? 2)%Z = false) as -> by lia.
      assert ((2 <? mp + 3)%Z = true) as -> by lia.
      Z.div_mod_to_equations; lia.
  - (* January and February *)
    assert ((mp - 9 <=? 2)%Z = true) as -> by lia.
    split; [lia|]. split.
    + unfold daysIn, isLeap.
      destruct (Z.eqb_spec (mp - 9) 2) as [H2|H2].
      * destruct H29 as [Hle Hfeb]; [lia|].
        destruct (decide (d = 29)) as [Hd29|Hd29]; [|destruct (_ && _); lia].
        destruct (Hleap (Hfeb Hd29)) as [H4 H100].
        assert ((yoe + era * 400 + 1) mod 4 = (yoe + 1) mod 4) as ->
          by (replace (yoe + era * 400 + 1) with (yoe + 1 + era * 100 * 4) by lia;
              apply Z_mod_plus_full).
        assert ((yoe + era * 400 + 1) mod 100 = (yoe + 1) mod 100) as ->
          by (replace (yoe + era * 400 + 1) with (yoe + 1 + era * 4 * 100) by lia;
              apply Z_mod_plus_full).
        assert ((yoe + era * 400 + 1) mod 400 = (yoe + 1) mod 400) as ->
          by (replace (yoe + era * 400 + 1) with (yoe + 1 + era * 400) by lia;
              apply Z_mod_plus_full).
        rewrite H4. simpl andb.
        destruct H100 as [H100| ->].
        -- apply Z.eqb_neq in H100. rewrite H100. simpl. lia.
        -- simpl. lia.
      * replace (_ || _) with false; [lia|].
        symmetry. repeat (apply orb_false_iff; split); apply Z.eqb_neq; lia.
    + unfold daysFromCivil.
      assert ((mp - 9 <=? 2)%Z = true) as -> by lia.
      assert ((2 <? mp - 9)%Z = false) as -> by lia.
      Z.div_mod_to_equations; lia.
Qed.

(** The years of four digits: from 0000-01-01 to 9999-12-31. *)
Lemma civilFromDays_year days :
  -719528 <= days <= 2932896 →
  0 <= (civilFromDays days).1.1 <= 9999.
Proof.
  intros Hdays. unfold civilFromDays. cbn [fst].
  set (z := days + 719468). set (era := z / 146097). set (doe := z mod 146097).
  assert (0 <= doe < 146097) as Hdoe by (apply Z.mod_pos_bound; lia).
  assert (z = era * 146097 + doe) as Hz by (subst era doe; Z.div_mod_to_equations; lia).
  assert (-60 <= z <= 3652364) as Hzr by (subst z; lia).
  set (yoe := (doe - doe / 1460 + doe / 36524 - doe / 146096) / 365).
  set (doy := doe - (365 * yoe + yoe / 4 - yoe / 100)).
  set (mp := (5 * doy + 2) / 153).
  assert (0 <= yoe < 400 ∧ 0 <= mp <= 11
          ∧ (doe >= 146037 → yoe = 399 ∧ mp >= 10)
          ∧ (doe <= 146036 → yoe = 399 → mp < 10)) as (Hyoe & Hmp & Hlast & Hfirst).
  { subst mp doy yoe. clear Hz Hzr. clearbody doe. Z.div_mod_to_equations; lia. }
  clearbody z era doe yoe doy mp.
  assert (-1 <= era <= 24) as Hera by lia.
  assert (era = -1 → doe >= 146037) as Hneg by lia.
  assert (era = 24 → doe <= 146036) as Hpos by lia.
  destruct (Z.ltb_spec mp 10) as [Hlt|Hge].
  - assert ((mp + 3 <=? 2)%Z = false) as -> by lia. lia.
  - assert ((mp - 9 <=? 2)%Z = true) as -> by lia. lia.
Qed.

Lemma daysIn_le_31 m y : daysIn m y <= 31.
Proof.
  unfold daysIn. destruct (m =? 2)%Z; [by destruct (isLeap y)|].
  by destruct (_ || _).
Qed.

(** The clock of a day. *)
Lemma clock_of_seconds secs :
  0 <= secs < 86400 →
  0 <= secs / 3600 < 24 ∧ 0 <= secs mod 3600 / 60 < 60 ∧ 0 <= secs mod 60 < 60
  ∧ secs / 3600 * 3600 + secs mod 3600 / 60 * 60 + secs mod 60 = secs.
Proof. intros H. Z.div_mod_to_equations. lia. Qed.

(** ** Reading back what [Format] wrote *)

Lemma append_assoc (a b c : string) : (a +:+ b) +:+ c = a +:+ b +:+ c.
Proof.
  induction a as [|x a IH]; [done|].
  change (String x ((a +:+ b) +:+ c) = String x (a +:+ b +:+ c)). by rewrite IH.
Qed.

Lemma getnum_twoDigits x rest fixed :
  0 <= x < 100 → getnum (twoDigits x +:+ rest) fixed = Some (x, rest).
Proof.
  intros Hx.
  change (getnum (String (digitChar (x / 10)) (String (digitChar (x mod 10)) rest)) fixed
          = Some (x, rest)).
  unfold getnum.
  destruct (digitChar_spec (x / 10)) as [-> ->]; [Z.div_mod_to_equations; lia|].
  destruct (digitChar_spec (x mod 10)) as [-> ->]; [Z.div_mod_to_equations; lia|].
  do 2 f_equal. Z.div_mod_to_equations. lia.
Qed.

Lemma getyear_fourDigits y rest :
  0 <= y < 10000 → getyear (fourDigits y +:+ rest) = Some (y, rest).
Proof.
  intros Hy.
  change (getyear (String (digitChar (y / 1000)) (String (digitChar (y / 100 mod 10))
            (String (digitChar (y / 10 mod 10)) (String (digitChar (y mod 10)) rest))))
          = Some (y, rest)).
  unfold getyear.
  destruct (digitChar_spec (y / 1000)) as [-> ->]; [Z.div_mod_to_equations; lia|].
  destruct (digitChar_spec (y / 100 mod 10)) as [-> ->]; [Z.div_mod_to_equations; lia|].
  destruct (digitChar_spec (y / 10 mod 10)) as [-> ->]; [Z.div_mod_to_equations; lia|].
  destruct (digitChar_spec (y mod 10)) as [-> ->]; [Z.div_mod_to_equations; lia|].
  cbn [andb]. do 2 f_equal. Z.div_mod_to_equations. lia.
Qed.

Lemma require_holds b : b = true → require b = Some tt.
Proof. by intros ->. Qed.

Lemma skip_literal c rest : skip (String c "" +:+ rest) c = Some rest.
Proof.
  change (skip (String c rest) c = Some rest). unfold skip.
  by rewrite Ascii.eqb_refl.
Qed.

(** The zone written by [Format], read back, for an offset of whole
    minutes within a day and an hour. *)
Lemma parseZone_formatZone off rest :
  off mod 60 = 0 → -89940 <= off <= 89940 →
  parseFraction (formatZone off +:+ String quoteChar rest)
  = (0, formatZone off +:+ String quoteChar rest)
  ∧ parseZone (formatZone off +:+ String quoteChar rest)
    = Some (if (off =? 0)%Z then inl tt else inr off, String quoteChar rest).
Proof.
  intros Hmin Hoff. unfold formatZone.
  destruct (Z.eqb_spec off 0) as [->|Hnz]; [done|].
  set (zone := Z.quot off 60).
  assert (off = zone * 60) as Hzone
    by (subst zone; Z.to_euclidean_division_equations; lia).
  assert (0 <= Z.quot (Z.abs zone) 60 <= 24 ∧ 0 <= Z.rem (Z.abs zone) 60 < 60
          ∧ Z.abs zone = Z.quot (Z.abs zone) 60 * 60 + Z.rem (Z.abs zone) 60)
    as (Hh & Hm & Habs) by (Z.to_euclidean_division_equations; lia).
  rewrite !appendInt_two by lia. clearbody zone.
  set (h := Z.quot (Z.abs zone) 60) in *. set (mn := Z.rem (Z.abs zone) 60) in *.
  clearbody h mn.
  assert (∀ x, 0 <= x < 100 →
            getnum (String (digitChar (x / 10)) (String (digitChar (x mod 10)) "")) true
            = Some (x, "")) as Hget
    by (intros x Hx; exact (getnum_twoDigits x "" true Hx)).
  assert ((24 <? h)%Z = false) as H24 by lia.
  assert ((60 <? mn)%Z = false) as H60 by lia.
  destruct (Z.ltb_spec zone 0) as [Hneg|Hpos].
  - split; [done|].
    change (parseZone (String "-" (String (digitChar (h / 10)) (String (digitChar (h mod 10))
              (String ":" (String (digitChar (mn / 10)) (String (digitChar (mn mod 10))
                 (String quoteChar rest)))))))
            = Some (inr off, String quoteChar rest)).
    cbn [parseZone]. rewrite !Hget by lia. cbn. rewrite H24, H60. cbn.
    do 3 f_equal. lia.
  - split; [done|].
    change (parseZone (String "+" (String (digitChar (h / 10)) (String (digitChar (h mod 10))
              (String ":" (String (digitChar (mn / 10)) (String (digitChar (mn mod 10))
                 (String quoteChar rest)))))))
            = Some (inr off, String quoteChar rest)).
    cbn [parseZone]. rewrite !Hget by lia. cbn. rewrite H24, H60. cbn.
    do 3 f_equal. lia.
Qed.

(** The calendar codec reads back what it wrote: the second and the
    offset of the time, for the years of four digits and the offsets of
    whole minutes that the layout can carry. *)
Lemma Parse_Format t :
  -62167219200 <= unixSec t + offset t < 253402300800 →
  offset t mod 60 = 0 → -89940 <= offset t <= 89940 →
  Parse (jsonQuote (Format t)) = Some (truncateToSecond t).
Proof.
  intros Habs Hmin Hoff. unfold Format.
  set (abs := unixSec t + offset t) in *.
  assert (-719528 <= abs / 86400 <= 2932896) as Hdays
    by (Z.div_mod_to_equations; lia).
  assert (0 <= abs mod 86400 < 86400) as Hsecs by (apply Z.mod_pos_bound; lia).
  assert (abs = abs / 86400 * 86400 + abs mod 86400) as Hsplit
    by (Z.div_mod_to_equations; lia).
  pose proof (civilFromDays_inverse (abs / 86400)) as Hcal.
  pose proof (civilFromDays_year (abs / 86400) Hdays) as Hyear.
  destruct (civilFromDays (abs / 86400)) as [[y m] d]. cbn [fst] in Hyear.
  destruct Hcal as (Hm & Hd & Hback).
  destruct (clock_of_seconds _ Hsecs) as (Hhh & Hmi & Hss & Hclock).
  set (secs := abs mod 86400) in *.
  pose proof (daysIn_le_31 m y) as Hd31.
  rewrite appendInt_four, !appendInt_two by lia.
  destruct (parseZone_formatZone (offset t) "" Hmin Hoff) as [Hfrac Hzone].
  unfold jsonQuote.
  change (String quoteChar ?s +:+ ?r) with (String quoteChar (s +:+ r)).
  rewrite !append_assoc.
  unfold Parse. cbn [skip]. rewrite Ascii.eqb_refl. cbn [mbind option_bind].
  rewrite getyear_fourDigits by lia. cbn [mbind option_bind].
  rewrite skip_literal. cbn [mbind option_bind].
  rewrite getnum_twoDigits by lia. cbn [mbind option_bind].
  rewrite (require_holds (negb ((m <=? 0)%Z || (12 <? m)%Z))) by lia.
  cbn [mbind option_bind].
  rewrite skip_literal. cbn [mbind option_bind].
  rewrite getnum_twoDigits by lia. cbn [mbind option_bind].
  rewrite skip_literal. cbn [mbind option_bind].
  rewrite getnum_twoDigits by lia. cbn [mbind option_bind].
  rewrite (require_holds (negb ((secs / 3600 <? 0)%Z || (24 <=? secs / 3600)%Z))) by lia.
  cbn [mbind option_bind].
  rewrite skip_literal. cbn [mbind option_bind].
  rewrite getnum_twoDigits by lia. cbn [mbind option_bind].
  rewrite (require_holds (negb ((secs mod 3600 / 60 <? 0)%Z
                                || (60 <=? secs mod 3600 / 60)%Z))) by lia.
  cbn [mbind option_bind].
  rewrite skip_literal. cbn [mbind option_bind].
  rewrite getnum_twoDigits by lia. cbn [mbind option_bind].
  rewrite (require_holds (negb ((secs mod 60 <? 0)%Z || (60 <=? secs mod 60)%Z))) by lia.
  cbn [mbind option_bind].
  rewrite Hfrac, Hzone. cbn [mbind option_bind skip].
  rewrite Ascii.eqb_refl. cbn [mbind option_bind].
  rewrite (require_holds (bool_decide ("" = ""))) by done.
  cbn [mbind option_bind].
  rewrite (require_holds (negb ((d <? 1)%Z || (daysIn m y <? d)%Z))) by lia.
  cbn [mbind option_bind].
  unfold truncateToSecond, Date, UTC. rewrite Hback.
  destruct (Z.eqb_spec (offset t) 0) as [H0|H0]; f_equal; f_equal; lia.
Qed.

Lemma ISO8601Datetime_round_trip t0 t :
  -62167219200 <= unixSec t + offset t < 253402300800 →
  offset t mod 60 = 0 → -89940 <= offset t <= 89940 →
  ISO8601Datetime_UnmarshalJSON t0 (ISO8601Datetime_MarshalJSON t)
  = (truncateToSecond t, None).
Proof.
  intros Habs Hmin Hoff. unfold ISO8601Datetime_UnmarshalJSON, ISO8601Datetime_MarshalJSON.
  rewrite bool_decide_eq_false_2 by (by unfold jsonQuote).
  by rewrite Parse_Format.
Qed.

(** ** The epoch-millisecond codec, there and back *)

Lemma UnixMilli_round_trip local t0 t :
  validTime t →
  minInt64 <= unixSec t * 1000000000 + nsec t <= maxInt64 →
  UnixMilli_UnmarshalJSON local t0 (UnixMilli_MarshalJSON t)
  = (let ms := Z.quot (unixSec t * 1000000000 + nsec t) Millisecond in
     mkTime (ms / 1000) (ms mod 1000 * Millisecond) UTC, None).
Proof.
  intros Hvalid Hrange. unfold UnixMilli_MarshalJSON, UnixNano.
  rewrite wrap64_id by done. apply UnixMilli_UnmarshalJSON_FormatInt.
  unfold minInt64, maxInt64, Millisecond in *.
  Z.to_euclidean_division_equations. lia.
Qed.

(** C2, as stated, fails for both codecs.  Half a millisecond before the
    epoch is written by the millisecond codec as 0 and read back as the
    epoch, a millisecond after the truncated time.  In a zone 19 minutes
    and 32 seconds east of UTC the calendar codec writes the offset as
    +00:19 and reads back an instant 32 seconds later; and the year 10000
    is written with five digits, which the decoder rejects. *)
Lemma C2_counterexample :
  validTime (mkTime (-1) 999500000 0)
  ∧ (∀ local t0,
       unixSec (UnixMilli_UnmarshalJSON local t0
                  (UnixMilli_MarshalJSON (mkTime (-1) 999500000 0))).1
       ≠ unixSec (truncateToMilli (mkTime (-1) 999500000 0)))
  ∧ (∀ t0,
       unixSec (ISO8601Datetime_UnmarshalJSON t0
                  (ISO8601Datetime_MarshalJSON (mkTime 0 0 1172))).1
       ≠ unixSec (truncateToSecond (mkTime 0 0 1172)))
  ∧ (∀ t0,
       (ISO8601Datetime_UnmarshalJSON t0
          (ISO8601Datetime_MarshalJSON (mkTime 253402300800 0 0))).2
       = Some ParseErr).
Proof.
  split; [by vm_compute|]. split; [|split].
  - intros local t0. rewrite UnixMilli_round_trip; by vm_compute.
  - intros t0. by vm_compute.
  - intros t0. by vm_compute.
Qed.

(** C2, amended.  The millisecond codec, for a time whose nanosecond
    count fits an [int64]: decoding the encoding gives the time in UTC
    whose millisecond count is that nanosecond count divided by a million
    and rounded toward zero, which is the time with its sub-millisecond
    part truncated when the time is not before the epoch or has no such
    part.  The calendar codec, for a time whose local year has four digits
    and whose offset is a whole number of minutes of at most 24 hours and
    59 minutes: decoding the encoding gives the same second at the same
    offset, without nanoseconds. *)
Theorem C2_round_trips :
  ∀ (local : Z -> Z) (t0 t : Time),
    validTime t →
    (minInt64 <= unixSec t * 1000000000 + nsec t <= maxInt64 →
     ∃ t', UnixMilli_UnmarshalJSON local t0 (UnixMilli_MarshalJSON t) = (t', None)
           ∧ offset t' = UTC ∧ validTime t' ∧ nsec t' mod Millisecond = 0
           ∧ unixSec t' * 1000 + nsec t' / Millisecond
             = Z.quot (unixSec t * 1000000000 + nsec t) Millisecond
           ∧ (0 <= unixSec t ∨ nsec t mod Millisecond = 0 → t' = truncateToMilli t))
    ∧ (-62167219200 <= unixSec t + offset t < 253402300800 →
       offset t mod 60 = 0 → -89940 <= offset t <= 89940 →
       ISO8601Datetime_UnmarshalJSON t0 (ISO8601Datetime_MarshalJSON t)
       = (truncateToSecond t, None)).
Proof.
  intros local t0 t Hvalid. split; [|apply ISO8601Datetime_round_trip].
  intros Hrange. eexists. split; [by apply UnixMilli_round_trip|].
  unfold validTime, truncateToMilli, Millisecond, minInt64, maxInt64 in *. cbn.
  set (ns := unixSec t * 1000000000 + nsec t) in *.
  split_and!; try done; try (Z.to_euclidean_division_equations; lia).
  intros Hpos. f_equal; subst ns; Z.to_euclidean_division_equations; lia.
Qed.

Lemma C2_witness :
  validTime (mkTime 1257894000 999123456 (-25200))
  ∧ UnixMilli_UnmarshalJSON (λ _, 3600) zeroTime
      (UnixMilli_MarshalJSON (mkTime 1257894000 999123456 (-25200)))
    = (truncateToMilli (mkTime 1257894000 999123456 (-25200)), None)
  ∧ ISO8601Datetime_UnmarshalJSON zeroTime
      (ISO8601Datetime_MarshalJSON (mkTime 1257894000 999123456 (-25200)))
    = (truncateToSecond (mkTime 1257894000 999123456 (-25200)), None).
Proof.
  assert (validTime (mkTime 1257894000 999123456 (-25200))) as Hvalid
    by (vm_compute; split; first [discriminate|reflexivity]).
  assert (minInt64 <= unixSec (mkTime 1257894000 999123456 (-25200)) * 1000000000
                      + nsec (mkTime 1257894000 999123456 (-25200)) <= maxInt64) as Hrange
    by (vm_compute; split; first [discriminate|reflexivity]).
  assert (0 <= unixSec (mkTime 1257894000 999123456 (-25200))) as Hpos
    by (vm_compute; discriminate).
  assert (-62167219200 <= unixSec (mkTime 1257894000 999123456 (-25200))
                          + offset (mkTime 1257894000 999123456 (-25200))
          < 253402300800) as Hyear
    by (vm_compute; split; first [discriminate|reflexivity]).
  assert (offset (mkTime 1257894000 999123456 (-25200)) mod 60 = 0) as Hmin
    by (vm_compute; reflexivity).
  assert (-89940 <= offset (mkTime 1257894000 999123456 (-25200)) <= 89940) as Hoff
    by (vm_compute; split; first [discriminate|reflexivity]).
  destruct (C2_round_trips (λ _, 3600) zeroTime (mkTime 1257894000 999123456 (-25200)) Hvalid)
    as [Hmilli Hiso].
  split; [exact Hvalid|]. split.
  - destruct (Hmilli Hrange) as (t' & Heq & _ & _ & _ & _ & Htrunc).
    rewrite Heq. f_equal. apply Htrunc. left. exact Hpos.
  - exact (Hiso Hyear Hmin Hoff).
Defined.

(** ** Sideloaded against embedded *)

Lemma toShallowNode_inMode sideload n :
  toShallowNode (inMode sideload n) = toShallowNode n.
Proof. by destruct sideload. Qed.

Lemma inMode_newNode sideload : inMode sideload newNode = newNode.
Proof. by destruct sideload. Qed.

Lemma visitEach_agrees visit sideload models nodes1 nodes2 inc1 inc2 :
  Forall (visitAgrees visit sideload) models →
  nodes1 = map (inMode sideload) nodes2 →
  agreeList sideload (visitEach visit models nodes1 inc1 sideload)
                     (visitEach visit models nodes2 inc2 false).
Proof.
  intros Hmodels. revert nodes1 nodes2 inc1 inc2.
  induction Hmodels as [|m models Hm _ IH]; intros nodes1 nodes2 inc1 inc2 Hnodes;
    simpl; [done|].
  specialize (Hm inc1 inc2).
  destruct (visit m inc1 sideload) as [n1 i1|e1 i1|],
           (visit m inc2 false) as [n2 i2|e2 i2|]; try done.
  apply IH. rewrite map_app. simpl in *. by subst.
Qed.

Lemma madeMap_inMode sideload n :
  madeMap (Relationships (inMode sideload n))
  = if sideload then shallowLinkage <$> madeMap (Relationships n)
    else madeMap (Relationships n).
Proof.
  destruct sideload; [|done]. unfold shallowLinks. simpl.
  destruct (Relationships n); [done|]. simpl. by rewrite fmap_empty.
Qed.

Lemma inMode_setRel sideload n name l :
  setRelationships (inMode sideload n)
    (<[name := if sideload then shallowLinkage l else l]>
       (madeMap (Relationships (inMode sideload n))))
  = inMode sideload (setRelationships n (<[name := l]> (madeMap (Relationships n)))).
Proof.
  rewrite madeMap_inMode. destruct sideload; [|done].
  unfold inMode, shallowLinks, setRelationships.
  cbn [Type_ ID ClientID Attributes Relationships]. by rewrite fmap_insert.
Qed.

Lemma inMode_makeRelationships sideload n :
  setRelationships (inMode sideload n) (madeMap (Relationships (inMode sideload n)))
  = inMode sideload (setRelationships n (madeMap (Relationships n))).
Proof.
  rewrite madeMap_inMode. by destruct sideload.
Qed.

Lemma map_toShallowNode_inMode sideload d :
  map toShallowNode (map (inMode sideload) d) = map toShallowNode d.
Proof.
  rewrite map_map. apply map_ext. intros n. apply toShallowNode_inMode.
Qed.

(** One pass in mode [sideload] against the same pass embedded. *)
Lemma visitField_agrees visit sideload tag v s1 s2 :
  visitAgrees visit sideload v →
  (∀ elems, v = VSlice elems → Forall (visitAgrees visit sideload) elems) →
  agreeFrame sideload s1 s2 →
  agreeStep sideload (visitField visit (tag, v) s1 sideload)
                     (visitField visit (tag, v) s2 false).
Proof.
  intros Hself Helems [Hnode Her]. unfold visitField.
  case_bool_decide; [done|].
  destruct (_ <? _)%nat; [done|].
  destruct (_ || _); [done|].
  case_bool_decide.
  { unfold agreeStep, agreeFrame.
    destruct v; (split; [|done]); simpl; rewrite Hnode; by destruct sideload. }
  case_bool_decide.
  { unfold agreeStep, agreeFrame.
    destruct (bool_decide (reflectString v = "")); [done|].
    split; [|done]. simpl. rewrite Hnode. by destruct sideload. }
  case_bool_decide.
  { unfold agreeStep, agreeFrame.
    destruct (attrValue v _) as [[a|]|]; [| |done];
      (split; [|done]); simpl; rewrite Hnode; by destruct sideload. }
  case_bool_decide; [|done].
  unfold agreeStep, agreeFrame.
  destruct v as [| | | | | |[t|]| |fields| |[|m models]]; try done.
  - specialize (Hself (included (makeRelationships s1)) (included (makeRelationships s2))).
    destruct (visit _ (included (makeRelationships s1)) sideload) as [n1 i1|e1 i1|],
             (visit _ (included (makeRelationships s2)) false) as [n2 i2|e2 i2|];
      try done; simpl in Hself; [|by subst].
    subst n1. destruct sideload; (split; [|done]);
      cbn [node setRel withNode withIncluded makeRelationships included]; rewrite Hnode.
    + exact (inMode_setRel true (node s2) _ (RelationshipOneNode n2)).
    + reflexivity.
  - specialize (Hself (included (makeRelationships s1)) (included (makeRelationships s2))).
    destruct (visit _ (included (makeRelationships s1)) sideload) as [n1 i1|e1 i1|],
             (visit _ (included (makeRelationships s2)) false) as [n2 i2|e2 i2|];
      try done; simpl in Hself; [|by subst].
    subst n1. destruct sideload; (split; [|done]);
      cbn [node setRel withNode withIncluded makeRelationships included]; rewrite Hnode.
    + exact (inMode_setRel true (node s2) _ (RelationshipOneNode n2)).
    + reflexivity.
  - pose proof (visitEach_agrees visit sideload (m :: models) [] []
                  (included (makeRelationships s1)) (included (makeRelationships s2))
                  (Helems _ eq_refl) eq_refl) as Hloop.
    unfold visitModelNodeRelationships.
    destruct (visitEach visit (m :: models) [] (included (makeRelationships s1)) sideload)
      as [d1 i1|e1 i1|],
      (visitEach visit (m :: models) [] (included (makeRelationships s2)) false)
      as [d2 i2|e2 i2|]; try done; simpl in Hloop; [|by subst].
    subst d1. destruct sideload; (split; [|done]);
      cbn [node setRel withNode withIncluded makeRelationships included]; rewrite Hnode.
    + rewrite map_toShallowNode_inMode.
      exact (inMode_setRel true (node s2) _ (RelationshipManyNode d2)).
    + by rewrite map_id.
Qed.

Lemma visitFields_agrees visit sideload fields s1 s2 :
  Forall (λ f, visitAgrees visit sideload f.2
               ∧ ∀ elems, f.2 = VSlice elems → Forall (visitAgrees visit sideload) elems)
         fields →
  agreeFrame sideload s1 s2 →
  agreeStep sideload (visitFields visit fields s1 sideload)
                     (visitFields visit fields s2 false).
Proof.
  intros Hfields. revert s1 s2.
  induction Hfields as [|[tag v] fields [Hv Hel] _ IH]; intros s1 s2 Hs;
    cbn [visitFields]; [done|].
  pose proof (visitField_agrees visit sideload tag v s1 s2 Hv Hel Hs) as Hstep.
  destruct (visitField visit (tag, v) s1 sideload) as [s1'|s1'|],
           (visitField visit (tag, v) s2 false) as [s2'|s2'|]; try done.
  by apply IH.
Qed.

Lemma visitModelNode_agrees sideload v :
  visitAgrees visitModelNode sideload v
  ∧ ∀ elems, v = VSlice elems → Forall (visitAgrees visitModelNode sideload) elems.
Proof.
  induction v as [s|n|n|n|b|t|t| |fields IH| |elems IH] using Value_nested_ind;
    try (split; [by intros inc1 inc2|by intros elems' [=]]).
  - split; [|by intros elems' [=]]. intros inc1 inc2. destruct t as [t|]; [|done].
    simpl. by rewrite inMode_newNode.
  - split; [|by intros elems' [=]]. intros inc1 inc2.
    pose proof (visitFields_agrees visitModelNode sideload fields
                  (mkFrame newNode None inc1) (mkFrame newNode None inc2) IH
                  (conj (eq_sym (inMode_newNode sideload)) eq_refl)) as Hloop.
    cbn [visitModelNode].
    destruct (visitFields visitModelNode fields _ sideload) as [s1|s1|],
             (visitFields visitModelNode fields _ false) as [s2|s2|] eqn:H2; try done.
    + destruct Hloop as [Hnode Her]. unfold visitReturn. rewrite Her.
      by destruct (er s2).
    + simpl in Hloop. unfold visitReturn. rewrite Hloop.
      apply visitFields_Break_er in H2 as [e He]. by rewrite He.
  - split; [by intros inc1 inc2|]. intros elems' [= <-].
    eapply Forall_impl; [exact IH|]. by intros x [Hx _].
Qed.

(** The included map in embedded mode *)

Lemma visitEach_keeps visit models nodes inc :
  Forall (visitKeeps visit) models →
  match visitEach visit models nodes inc false with
  | Done _ inc' | Failed _ inc' => inc' = inc
  | Panicked => True
  end.
Proof.
  intros Hmodels. revert nodes inc.
  induction Hmodels as [|m models Hm _ IH]; intros nodes inc; simpl; [done|].
  specialize (Hm inc). destruct (visit m inc false) as [n inc1|e inc1|]; [|done..].
  subst inc1. apply IH.
Qed.

Lemma visitField_keeps visit tag v s :
  visitKeeps visit v →
  (∀ elems, v = VSlice elems → Forall (visitKeeps visit) elems) →
  match visitField visit (tag, v) s false with
  | Next s' | Break s' => included s' = included s
  | Crash => True
  end.
Proof.
  intros Hself Helems. unfold visitField.
  case_bool_decide; [done|].
  destruct (_ <? _)%nat; [done|].
  destruct (_ || _); [done|].
  case_bool_decide; [by destruct v|].
  case_bool_decide; [by case_bool_decide|].
  case_bool_decide; [by destruct (attrValue v _) as [[a|]|]|].
  case_bool_decide; [|done].
  destruct v as [| | | | | |[t|]| |fields| |[|m models]]; try done.
  - specialize (Hself (included s)). cbn [makeRelationships withNode included].
    by destruct (visit _ _ _) as [n inc|e inc|].
  - specialize (Hself (included s)). cbn [makeRelationships withNode included].
    by destruct (visit _ _ _) as [n inc|e inc|].
  - pose proof (visitEach_keeps visit (m :: models) [] (included s) (Helems _ eq_refl))
      as Hloop.
    unfold visitModelNodeRelationships. cbn [makeRelationships withNode included].
    by destruct (visitEach _ _ _ _ _) as [d inc|e inc|].
Qed.

Lemma visitFields_keeps visit fields s :
  Forall (λ f, visitKeeps visit f.2
               ∧ ∀ elems, f.2 = VSlice elems → Forall (visitKeeps visit) elems) fields →
  match visitFields visit fields s false with
  | Next s' | Break s' => included s' = included s
  | Crash => True
  end.
Proof.
  intros Hfields. revert s.
  induction Hfields as [|[tag v] fields [Hv Hel] _ IH]; intros s;
    cbn [visitFields]; [done|].
  pose proof (visitField_keeps visit tag v s Hv Hel) as Hstep.
  destruct (visitField visit (tag, v) s false) as [s1|s1|]; [|done..].
  specialize (IH s1).
  destruct (visitFields visit fields s1 false); [..|done]; congruence.
Qed.

Lemma visitModelNode_keeps v :
  visitKeeps visitModelNode v
  ∧ ∀ elems, v = VSlice elems → Forall (visitKeeps visitModelNode) elems.
Proof.
  induction v as [s|n|n|n|b|t|t| |fields IH| |elems IH] using Value_nested_ind;
    try (split; [by intros inc|by intros elems' [=]]).
  - split; [|by intros elems' [=]]. intros inc. by destruct t; simpl.
  - split; [|by intros elems' [=]]. intros inc.
    pose proof (visitFields_keeps visitModelNode fields (mkFrame newNode None inc) IH)
      as Hloop.
    cbn [visitModelNode].
    destruct (visitFields visitModelNode fields _ false) as [s'|s'|]; [| |done];
      unfold visitReturn; by destruct (er s').
  - split; [by intros inc|]. intros elems' [= <-].
    eapply Forall_impl; [exact IH|]. by intros x [Hx _].
Qed.

(** X1: marshaling embedded reads and writes no included map: whatever map
    the visit is given, it hands the same map back, on success and on
    error alike. *)
Theorem X1_embedded_visit_keeps_included :
  ∀ (model : Value) (inc : gmap string Node),
    match visitModelNode model inc false with
    | Done _ inc' | Failed _ inc' => inc' = inc
    | Panicked => True
    end.
Proof. intros model. apply (proj1 (visitModelNode_keeps model)). Qed.

(** X2: the sideloading marshal and the embedded marshal of one object
    fail together, with the same error, panic together, and succeed
    together; the sideloaded root is then the embedded root with every
    node of its linkages cut down to type and id. *)
Theorem X2_sideloaded_root_is_embedded_root_with_references :
  ∀ model : Value,
    agreeResult true (MarshalOne model) (MarshalOnePayloadEmbedded model)
    ∧ agreeResult true (MarshalOnePayloadWithoutIncluded model)
                       (MarshalOnePayloadEmbedded model).
Proof.
  intros model.
  pose proof (proj1 (visitModelNode_agrees true model) ∅ ∅) as H.
  unfold MarshalOne, MarshalOnePayloadWithoutIncluded, MarshalOnePayloadEmbedded.
  by destruct (visitModelNode model ∅ true), (visitModelNode model ∅ false).
Qed.

Lemma visitModelNode_any_included model sideload inc1 inc2 :
  agree false (visitModelNode model inc1 sideload) (visitModelNode model inc2 sideload).
Proof.
  destruct sideload.
  - pose proof (proj1 (visitModelNode_agrees true model) inc1 ∅) as H1.
    pose proof (proj1 (visitModelNode_agrees true model) inc2 ∅) as H2.
    destruct (visitModelNode model inc1 true), (visitModelNode model inc2 true),
             (visitModelNode model ∅ false); simpl in *; try done; congruence.
  - apply (proj1 (visitModelNode_agrees false model)).
Qed.

(** X3: what a visit returns, node, error or panic, does not depend on
    what the included map holds when it starts. *)
Theorem X3_visit_result_independent_of_included :
  ∀ (model : Value) (sideload : bool) (inc1 inc2 : gmap string Node),
    agree false (visitModelNode model inc1 sideload) (visitModelNode model inc2 sideload).
Proof. intros model sideload inc1 inc2. apply visitModelNode_any_included. Qed.

(** ** Many objects against one *)

Lemma rootOf_visit model inc n inc' :
  visitModelNode model inc true = Done n inc' → rootOf model n.
Proof.
  intros Hv. pose proof (visitModelNode_any_included model true ∅ inc) as H.
  rewrite Hv in H. unfold rootOf, MarshalOne.
  destruct (visitModelNode model ∅ true) as [n0 i0| |]; try done.
  simpl in H. subst n0. by eexists.
Qed.

Lemma marshalManyLoop_roots models data inc :
  match marshalManyLoop models data inc with
  | Done data' _ =>
      ∃ ns, default [] data' = (default [] data ++ ns)%list
            ∧ Forall2 rootOf models ns
            ∧ (models ≠ [] → is_Some data')
  | Failed e _ =>
      ∃ pre m post, models = (pre ++ m :: post)%list
                    ∧ Forall (λ x, ∃ n, rootOf x n) pre
                    ∧ MarshalOne m = Err e
  | Panicked => True
  end.
Proof.
  revert data inc. induction models as [|m models IH]; intros data inc; simpl.
  - exists []. by rewrite app_nil_r.
  - destruct (visitModelNode m inc true) as [n inc1|e inc1|] eqn:Hm; [| |done].
    + specialize (IH (Some (default [] data ++ [n])%list) inc1).
      pose proof (rootOf_visit _ _ _ _ Hm) as Hroot.
      destruct (marshalManyLoop models _ inc1) as [data' inc2|e inc2|]; [| |done].
      * destruct IH as (ns & Hdata & Hns & Hsome). exists (n :: ns).
        split_and!; [|by constructor|].
        -- rewrite Hdata. simpl. by rewrite <- app_assoc.
        -- intros _. destruct models as [|m' models']; [|by apply Hsome].
           apply Forall2_nil_inv_l in Hns as ->. simpl in Hdata.
           destruct data'; [done|]. simpl in Hdata. by destruct (default [] data).
      * destruct IH as (pre & m' & post & -> & Hpre & Hfail).
        exists (m :: pre), m', post. split_and!; [done| |done].
        constructor; [by exists n|done].
    + exists [], m, models. split_and!; [done..|].
      pose proof (visitModelNode_any_included m true ∅ inc) as H.
      rewrite Hm in H. unfold MarshalOne.
      destruct (visitModelNode m ∅ true); try done. simpl in H. by subst.
Qed.

(** X4: the data of a many-marshal is, in order, the root nodes that
    [MarshalOne] returns for the models one by one; and when the
    many-marshal returns an error, that error is the one of [MarshalOne] on
    the first model for which it fails. *)
Theorem X4_many_data_is_the_list_of_single_roots :
  ∀ models : list Value,
    (∀ p, MarshalMany models = Ok p →
       ∃ ns, ManyData p = Some ns ∧ Forall2 rootOf models ns)
    ∧ (∀ e, MarshalMany models = Err e →
         ∃ pre m post, models = (pre ++ m :: post)%list
                       ∧ Forall (λ x, ∃ n, rootOf x n) pre
                       ∧ MarshalOne m = Err e).
Proof.
  intros models. unfold MarshalMany, marshalMany.
  pose proof (marshalManyLoop_roots models None ∅) as Hloop.
  destruct (marshalManyLoop models None ∅) as [data inc|e inc|]; split; try done.
  - intros p [= <-]. destruct Hloop as (ns & Hdata & Hns & Hsome). simpl in *.
    destruct models as [|m models]; simpl.
    + apply Forall2_nil_inv_l in Hns as ->. by exists [].
    + destruct Hsome as [d ->]; [done|]. simpl in Hdata. subst d. by exists ns.
  - by intros e' [= <-].
Qed.

(** ** Fields without a tag *)

Lemma visitField_untagged visit v s sideload :
  visitField visit ("", v) s sideload = Next s.
Proof. done. Qed.

Lemma visitFields_tagged visit fields s sideload :
  visitFields visit (tagged fields) s sideload = visitFields visit fields s sideload.
Proof.
  revert s. induction fields as [|[tag v] fields IH]; intros s; [done|].
  unfold tagged in *. rewrite filter_cons. cbn [fst].
  destruct (decide (tag ≠ "")) as [Hne|Heq].
  - cbn [visitFields]. destruct (visitField visit (tag, v) s sideload); [apply IH|done..].
  - assert (tag = "") as -> by (by destruct (decide (tag = ""))).
    cbn [visitFields]. rewrite visitField_untagged. apply IH.
Qed.

Lemma visitMetaFields_tagged fields s :
  visitMetaFields (tagged fields) s = visitMetaFields fields s.
Proof.
  revert s. induction fields as [|[tag v] fields IH]; intros s; [done|].
  unfold tagged in *. rewrite filter_cons. cbn [fst].
  destruct (decide (tag ≠ "")) as [Hne|Heq].
  - cbn [visitMetaFields]. destruct (visitMetaField (tag, v) s); [apply IH|done..].
  - assert (tag = "") as -> by (by destruct (decide (tag = ""))).
    cbn [visitMetaFields]. change (visitMetaField ("", v) s) with (MetaNext s). apply IH.
Qed.

(** X5: a field without a [jsonapi] tag takes no part in a marshal,
    whatever it holds: an object and the object without its untagged
    fields are visited alike, as a model and as a meta object. *)
Theorem X5_untagged_fields_are_ignored :
  ∀ (fields : list (string * Value)) (inc : gmap string Node) (sideload : bool),
    visitModelNode (VStructPtr (tagged fields)) inc sideload
    = visitModelNode (VStructPtr fields) inc sideload
    ∧ visitMetaNode (VStructPtr (tagged fields)) = visitMetaNode (VStructPtr fields).
Proof.
  intros fields inc sideload. split.
  - cbn [visitModelNode]. by rewrite visitFields_tagged.
  - unfold visitMetaNode. by rewrite visitMetaFields_tagged.
Qed.

(** ** A pending error *)

(** No pass through the loop clears the pending error. *)
Lemma visitField_er_stays visit f s sideload s' :
  is_Some (er s) → visitField visit f s sideload = Next s' → is_Some (er s').
Proof.
  intros Hs Hstep. apply visitField_Next_er in Hstep as [->| ->]; [done|by eexists].
Qed.

Lemma visitFields_er_stays visit fields s sideload s' :
  is_Some (er s) → visitFields visit fields s sideload = Next s' → is_Some (er s').
Proof.
  revert s. induction fields as [|f fields IH]; intros s Hs; cbn [visitFields].
  - by intros [= <-].
  - destruct (visitField visit f s sideload) as [s1| |] eqn:Hstep; try discriminate.
    apply IH. by eapply visitField_er_stays.
Qed.

Lemma visitField_bad_primary visit tag ty rest v s sideload :
  Split tag "," = "primary" :: ty :: rest → isSupportedID v = false →
  ∃ s', visitField visit (tag, v) s sideload = Next s' ∧ er s' = Some ErrBadJSONAPIID
        ∧ included s' = included s.
Proof.
  intros Hsplit Hv. pose proof (Split_two_tag_nonempty _ _ _ _ Hsplit) as Hne.
  unfold visitField. rewrite Hsplit, bool_decide_eq_false_2 by done.
  cbn [length Nat.ltb Nat.leb Nat.eqb arg nth negb andb orb].
  change (bool_decide ("primary" = clientIDAnnotation)) with false.
  change (bool_decide ("primary" = "primary")) with true.
  cbn [negb andb orb]. eexists. split; [reflexivity|]. by destruct v.
Qed.

(** X6: an object with a primary key of an unsupported type never yields a
    node, whatever its other fields are: its visit returns an error (or
    panics in a later field), and so does [MarshalOne]. *)
Theorem X6_unsupported_primary_key_never_yields_a_node :
  ∀ (pre post : list (string * Value)) (tag ty : string) (rest : list string) (v : Value),
    Split tag "," = "primary" :: ty :: rest →
    isSupportedID v = false →
    (∀ inc sideload n inc',
       visitModelNode (VStructPtr (pre ++ (tag, v) :: post)) inc sideload ≠ Done n inc')
    ∧ (∀ p, MarshalOne (VStructPtr (pre ++ (tag, v) :: post)) ≠ Ok p).
Proof.
  intros pre post tag ty rest v Hsplit Hv.
  assert (∀ inc sideload n inc',
            visitModelNode (VStructPtr (pre ++ (tag, v) :: post)) inc sideload ≠ Done n inc')
    as Hvisit.
  { intros inc sideload n inc' Hdone.
    apply visitModelNode_Done_fields in Hdone as (sF & Hloop & _ & Her & _).
    rewrite visitFields_app in Hloop.
    destruct (visitFields _ pre _ _) as [s1| |] eqn:Hpre; try discriminate.
    cbn [visitFields] in Hloop.
    destruct (visitField_bad_primary visitModelNode tag ty rest v s1 sideload Hsplit Hv)
      as (s2 & Hstep & Her2 & _).
    rewrite Hstep in Hloop.
    assert (is_Some (er sF)) as [e He]
      by (eapply visitFields_er_stays; [|exact Hloop]; by rewrite Her2).
    congruence. }
  split; [exact Hvisit|]. intros p. unfold MarshalOne.
  destruct (visitModelNode _ ∅ true) as [n inc'| |] eqn:Hv'; [|done..].
  by destruct (Hvisit _ _ _ _ Hv').
Qed.

Lemma X6_witness :
  Split "primary,people" "," = ["primary"; "people"]
  ∧ ∀ p, MarshalOne (VStructPtr ([("attr,name", VString "Alice")]
                                 ++ ("primary,people", VBool true)
                                 :: [("attr,age", VInt 30)])) ≠ Ok p.
Proof.
  split; [reflexivity|].
  exact (proj2 (X6_unsupported_primary_key_never_yields_a_node
                  [("attr,name", VString "Alice")] [("attr,age", VInt 30)]
                  "primary,people" "people" [] (VBool true) eq_refl eq_refl)).
Defined.

(** ** Errors of related objects *)

(** X7: an error in a related object is the error of the whole marshal:
    when the fields before a relationship field marshal without error on
    their own and [MarshalOne] fails on the object the field points to,
    [MarshalOne] fails on the whole object with that error, whatever
    fields follow. *)
Theorem X7_error_of_a_related_object_reaches_the_top :
  ∀ (pre post : list (string * Value)) (tag name : string) (rest : list string)
    (fields : list (string * Value)) (e : Error),
    Split tag "," = "relation" :: name :: rest →
    (∃ p, MarshalOne (VStructPtr pre) = Ok p) →
    MarshalOne (VStructPtr fields) = Err e →
    MarshalOne (VStructPtr (pre ++ (tag, VStructPtr fields) :: post)) = Err e.
Proof.
  intros pre post tag name rest fields e Hsplit [p Hpre] Hchild.
  unfold MarshalOne in *.
  destruct (visitModelNode (VStructPtr pre) ∅ true) as [n0 inc0| |] eqn:Hv; try done.
  apply visitModelNode_Done_fields in Hv as (s1 & Hloop & _ & Her & _).
  cbn [visitModelNode]. rewrite visitFields_app, Hloop. cbn [visitFields].
  pose proof (Split_two_tag_nonempty _ _ _ _ Hsplit) as Hne.
  unfold visitField. rewrite Hsplit, bool_decide_eq_false_2 by done.
  cbn [length Nat.ltb Nat.leb Nat.eqb arg nth negb andb orb].
  change (bool_decide ("relation" = clientIDAnnotation)) with false.
  change (bool_decide ("relation" = "primary")) with false.
  change (bool_decide ("relation" = "attr")) with false.
  change (bool_decide ("relation" = "relation")) with true.
  cbn [negb andb orb].
  pose proof (visitModelNode_any_included (VStructPtr fields) true
                (included (makeRelationships s1)) ∅) as Hind.
  destruct (visitModelNode (VStructPtr fields) ∅ true) as [|e0 i0|] eqn:Hc; try done.
  injection Hchild as ->.
  destruct (visitModelNode (VStructPtr fields) (included (makeRelationships s1)) true)
    as [|e1 i1|]; try done.
  simpl in Hind. subst e1. done.
Qed.

Lemma X7_witness :
  MarshalOne (VStructPtr ([("primary,people", VString "1")]
                          ++ ("relation,pet", VStructPtr [("label", VString "")])
                          :: [("attr,name", VString "Alice")]))
  = Err ErrBadJSONAPIStructTag.
Proof.
  apply (X7_error_of_a_related_object_reaches_the_top
           [("primary,people", VString "1")] [("attr,name", VString "Alice")]
           "relation,pet" "pet" [] [("label", VString "")] ErrBadJSONAPIStructTag).
  - reflexivity.
  - eexists. vm_compute. reflexivity.
  - vm_compute. reflexivity.
Defined.

Lemma X4_witness :
  MarshalMany [examplePerson; examplePerson] = Ok exampleManyPayload
  ∧ ∃ ns, ManyData exampleManyPayload = Some ns
          ∧ Forall2 rootOf [examplePerson; examplePerson] ns.
Proof.
  assert (MarshalMany [examplePerson; examplePerson] = Ok exampleManyPayload) as Hp
    by (vm_compute; reflexivity).
  split; [exact Hp|].
  exact (proj1 (X4_many_data_is_the_list_of_single_roots [examplePerson; examplePerson])
           exampleManyPayload Hp).
Defined.

(** ** The meta object *)

Lemma visitMetaField_rejected tag v s :
  metaRejectsTag tag →
  visitMetaField (tag, v) s = MetaBreak (mkMetaFrame (metaNode s) (Some ErrBadJSONAPIStructTag)).
Proof.
  intros [Hne Hrej]. unfold visitMetaField. rewrite bool_decide_eq_false_2 by done.
  pose proof (Split_nonempty tag ",") as Hnil.
  destruct (Split tag ",") as [|a [|b [|c rest]]]; [done|simpl in Hrej; lia| |done].
  destruct Hrej as [Hlen|[_ Hb]]; [simpl in Hlen; lia|].
  cbn [length Nat.ltb Nat.leb Nat.eqb arg nth negb andb orb] in *.
  by rewrite bool_decide_eq_false_2.
Qed.

Lemma visitMetaField_accepted tag v s :
  ¬ metaRejectsTag tag →
  match visitMetaField (tag, v) s with
  | MetaNext s' => metaEr s' = metaEr s
  | MetaBreak _ => False
  | MetaCrash => True
  end.
Proof.
  intros Hacc. unfold visitMetaField, metaRejectsTag in *.
  case_bool_decide; [done|].
  pose proof (Split_nonempty tag ",") as Hnil.
  destruct (Split tag ",") as [|a [|b [|c rest]]]; [done| | |].
  - cbn [length Nat.ltb Nat.leb Nat.eqb arg nth negb andb orb].
    by destruct (attrValue v false) as [[x|]|].
  - cbn [length Nat.ltb Nat.leb Nat.eqb arg nth negb andb orb] in *.
    destruct (decide (b = "omitempty")) as [->|Hb].
    + change (bool_decide ("omitempty" = "omitempty")) with true. cbn [negb].
      by destruct (attrValue v true) as [[x|]|].
    + exfalso. apply Hacc. split; [done|]. by right.
  - exfalso. apply Hacc. split; [done|]. left. simpl. lia.
Qed.

Lemma visitMetaFields_error fields s :
  match visitMetaFields fields s with
  | MetaNext s' => metaEr s' = metaEr s
  | MetaBreak s' =>
      metaEr s' = Some ErrBadJSONAPIStructTag ∧ Exists (λ f, metaRejectsTag f.1) fields
  | MetaCrash => True
  end.
Proof.
  revert s. induction fields as [|[tag v] fields IH]; intros s; cbn [visitMetaFields]; [done|].
  destruct (decide (metaRejectsTag tag)) as [Hrej|Hacc].
  - rewrite visitMetaField_rejected by done. split; [done|]. by left.
  - pose proof (visitMetaField_accepted tag v s Hacc) as Hstep.
    destruct (visitMetaField (tag, v) s) as [s1|s1|]; [|done..].
    specialize (IH s1). destruct (visitMetaFields fields s1) as [s2|s2|]; [| |done].
    + congruence.
    + destruct IH as [? ?]. split; [done|]. by right.
Qed.

(** X8: [visitMetaNode] returns no error but [ErrBadJSONAPIStructTag], and
    returns it only for an object that has a field whose descriptor has
    more than two components or a second component other than
    [omitempty]; such a descriptor, alone, always gives that error,
    whatever the field holds.  Any first component is taken as a name. *)
Theorem X8_meta_descriptor_rejection :
  (∀ fields e, visitMetaNode (VStructPtr fields) = Err e →
     e = ErrBadJSONAPIStructTag ∧ Exists (λ f, metaRejectsTag f.1) fields)
  ∧ (∀ tag v, metaRejectsTag tag →
       visitMetaNode (VStructPtr [(tag, v)]) = Err ErrBadJSONAPIStructTag).
Proof.
  split.
  - intros fields e. unfold visitMetaNode.
    pose proof (visitMetaFields_error fields (mkMetaFrame ∅ None)) as Hloop.
    destruct (visitMetaFields fields _) as [s'|s'|]; [| |done].
    + simpl in Hloop. by rewrite Hloop.
    + destruct Hloop as [-> Hex]. by intros [= <-].
  - intros tag v Hrej. unfold visitMetaNode. cbn [visitMetaFields].
    by rewrite visitMetaField_rejected.
Qed.

Lemma X8_witness :
  visitMetaNode (VStructPtr [("total,int", VInt 3)]) = Err ErrBadJSONAPIStructTag.
Proof.
  apply (proj2 X8_meta_descriptor_rejection "total,int" (VInt 3)).
  split; [discriminate|]. right. split; [reflexivity|discriminate].
Defined.

Lemma Split_attr_prefix tag : Split ("attr," +:+ tag) "," = "attr" :: Split tag ",".
Proof.
  change ("attr," +:+ tag)
    with (String "a" (String "t" (String "t" (String "r" (String "," tag))))).
  reflexivity.
Qed.

(** One field of a meta object against the attribute field of the same
    name and value. *)
Lemma visitMetaField_as_attribute visit tag v ms ms' s sideload :
  visitMetaField (tag, v) ms = MetaNext ms' →
  madeMap (Attributes (node s)) = metaNode ms →
  ∃ s', visitField visit (attrTagOfMeta tag, v) s sideload = Next s'
        ∧ madeMap (Attributes (node s')) = metaNode ms'
        ∧ er s' = er s ∧ included s' = included s.
Proof.
  intros Hmeta Hattrs. unfold attrTagOfMeta. unfold visitMetaField in Hmeta.
  case_bool_decide as Htag.
  { injection Hmeta as <-. subst tag. by exists s. }
  pose proof (Split_nonempty tag ",") as Hnil.
  pose proof (Split_attr_prefix tag) as Hsplit.
  destruct (Split tag ",") as [|name [|b [|c rest]]] eqn:Hargs; [done| | |done].
  - cbn [length Nat.ltb Nat.leb Nat.eqb arg nth negb andb orb] in Hmeta.
    rewrite (visitField_attr visit _ name [] v s sideload Hsplit).
    change (omitEmptyOf []) with false.
    destruct (attrValue v false) as [[a|]|]; [| |done]; injection Hmeta as <-;
      eexists; (split; [reflexivity|]); simpl; by rewrite ?Hattrs.
  - cbn [length Nat.ltb Nat.leb Nat.eqb arg nth negb andb orb] in Hmeta.
    destruct (decide (b = "omitempty")) as [->|Hb];
      [|by rewrite (bool_decide_eq_false_2 _ Hb) in Hmeta].
    change (bool_decide ("omitempty" = "omitempty")) with true in Hmeta.
    cbn [negb] in Hmeta.
    rewrite (visitField_attr visit _ name ["omitempty"] v s sideload Hsplit).
    change (omitEmptyOf ["omitempty"]) with true.
    destruct (attrValue v true) as [[a|]|]; [| |done]; injection Hmeta as <-;
      eexists; (split; [reflexivity|]); simpl; by rewrite ?Hattrs.
Qed.

Lemma visitMetaFields_as_attributes visit fields ms ms' s sideload :
  visitMetaFields fields ms = MetaNext ms' →
  madeMap (Attributes (node s)) = metaNode ms →
  ∃ s', visitFields visit (asAttributes fields) s sideload = Next s'
        ∧ madeMap (Attributes (node s')) = metaNode ms'
        ∧ er s' = er s ∧ included s' = included s.
Proof.
  revert ms s. induction fields as [|[tag v] fields IH]; intros ms s Hmeta Hattrs.
  - injection Hmeta as <-. by exists s.
  - cbn [visitMetaFields] in Hmeta.
    destruct (visitMetaField (tag, v) ms) as [ms1| |] eqn:Hstep; try discriminate.
    destruct (visitMetaField_as_attribute visit tag v ms ms1 s sideload Hstep Hattrs)
      as (s1 & Hs1 & Hattrs1 & Her1 & Hinc1).
    destruct (IH ms1 s1 Hmeta Hattrs1) as (s' & Hs' & Hattrs' & Her' & Hinc').
    exists s'. cbn [asAttributes map fst snd visitFields]. fold (asAttributes fields).
    rewrite Hs1. split_and!; [done..|congruence|congruence].
Qed.

(** X9: the meta encoder stores what the attribute branch stores: when
    [visitMetaNode] returns a mapping for an object, the visit of the
    object whose fields carry the same descriptors behind the role [attr]
    returns, in either mode and without touching the included map, a node
    whose attributes are that mapping. *)
Theorem X9_meta_is_the_attributes_of_the_object :
  ∀ (fields : list (string * Value)) (m : gmap string Any),
    visitMetaNode (VStructPtr fields) = Ok m →
    ∀ (inc : gmap string Node) (sideload : bool),
      ∃ n, visitModelNode (VStructPtr (asAttributes fields)) inc sideload = Done n inc
           ∧ madeMap (Attributes n) = m.
Proof.
  intros fields m Hmeta inc sideload. unfold visitMetaNode in Hmeta.
  pose proof (visitMetaFields_error fields (mkMetaFrame ∅ None)) as Herr.
  destruct (visitMetaFields fields _) as [ms'|ms'|] eqn:Hloop; [| |done].
  - simpl in Herr. rewrite Herr in Hmeta. injection Hmeta as <-.
    destruct (visitMetaFields_as_attributes visitModelNode fields _ ms'
                (mkFrame newNode None inc) sideload Hloop eq_refl)
      as (s' & Hs' & Hattrs & Her & Hinc).
    exists (node s'). cbn [visitModelNode]. rewrite Hs'. unfold visitReturn.
    simpl in Her, Hinc. by rewrite Her, Hinc.
  - destruct Herr as [Herr _]. by rewrite Herr in Hmeta.
Qed.

Lemma X9_witness :
  ∃ n, visitModelNode
         (VStructPtr (asAttributes [("total", VInt 3); ("next,omitempty", VString "")]))
         ∅ true = Done n ∅
       ∧ madeMap (Attributes n) = {["total" := Some (VInt 3)]}.
Proof.
  apply (X9_meta_is_the_attributes_of_the_object
           [("total", VInt 3); ("next,omitempty", VString "")]
           {["total" := Some (VInt 3)]}).
  vm_compute. reflexivity.
Defined.

(** ** Where errors come from *)

Lemma visitEach_errs visit sideload models nodes inc e inc' :
  Forall (visitErrs visit sideload) models →
  visitEach visit models nodes inc sideload = Failed e inc' → isVisitError e.
Proof.
  intros Hmodels. revert nodes inc.
  induction Hmodels as [|m models Hm _ IH]; intros nodes inc; simpl; [done|].
  destruct (visit m inc sideload) as [n inc1|e1 inc1|] eqn:Hv; [apply IH| |done].
  intros [= <- <-]. by eapply Hm.
Qed.

Lemma visitField_errs visit sideload tag v s :
  visitErrs visit sideload v →
  (∀ elems, v = VSlice elems → Forall (visitErrs visit sideload) elems) →
  (∀ e, er s = Some e → isVisitError e) →
  match visitField visit (tag, v) s sideload with
  | Next s' | Break s' => ∀ e, er s' = Some e → isVisitError e
  | Crash => True
  end.
Proof.
  intros Hself Helems Hs. unfold visitField.
  assert (∀ e, Some ErrBadJSONAPIStructTag = Some e → isVisitError e) as Htag
    by (intros e [= <-]; by left).
  case_bool_decide; [done|].
  destruct (_ <? _)%nat; [done|].
  destruct (_ || _); [done|].
  case_bool_decide.
  { destruct v; try done; simpl; intros e [= <-]; by right. }
  case_bool_decide; [by case_bool_decide|].
  case_bool_decide; [by destruct (attrValue v _) as [[a|]|]|].
  case_bool_decide; [|done].
  destruct v as [| | | | | |[t|]| |fields| |[|m models]]; try done.
  - destruct (visit _ _ _) as [n inc|e0 inc|] eqn:Hv; [by destruct sideload| |done].
    simpl. intros e [= <-]. by eapply Hself.
  - destruct (visit _ _ _) as [n inc|e0 inc|] eqn:Hv; [by destruct sideload| |done].
    simpl. intros e [= <-]. by eapply Hself.
  - unfold visitModelNodeRelationships.
    destruct (visitEach _ _ _ _ _) as [d inc|e0 inc|] eqn:Hv; [by destruct sideload| |done].
    simpl. intros e [= <-]. eapply visitEach_errs; [|exact Hv]. by apply Helems.
Qed.

Lemma visitFields_errs visit sideload fields s :
  Forall (λ f, visitErrs visit sideload f.2
               ∧ ∀ elems, f.2 = VSlice elems → Forall (visitErrs visit sideload) elems)
         fields →
  (∀ e, er s = Some e → isVisitError e) →
  match visitFields visit fields s sideload with
  | Next s' | Break s' => ∀ e, er s' = Some e → isVisitError e
  | Crash => True
  end.
Proof.
  intros Hfields. revert s.
  induction Hfields as [|[tag v] fields [Hv Hel] _ IH]; intros s Hs;
    cbn [visitFields]; [done|].
  pose proof (visitField_errs visit sideload tag v s Hv Hel Hs) as Hstep.
  destruct (visitField visit (tag, v) s sideload) as [s1|s1|]; [|done..].
  by apply IH.
Qed.

Lemma visitModelNode_errs sideload v :
  visitErrs visitModelNode sideload v
  ∧ ∀ elems, v = VSlice elems → Forall (visitErrs visitModelNode sideload) elems.
Proof.
  induction v as [s|n|n|n|b|t|t| |fields IH| |elems IH] using Value_nested_ind;
    try (split; [by intros inc e inc'|by intros elems' [=]]).
  - split; [|by intros elems' [=]]. intros inc e inc'. by destruct t.
  - split; [|by intros elems' [=]]. intros inc e inc'.
    pose proof (visitFields_errs visitModelNode sideload fields (mkFrame newNode None inc)
                  IH ltac:(by intros e0 [=])) as Hloop.
    cbn [visitModelNode].
    destruct (visitFields visitModelNode fields _ sideload) as [s'|s'|]; [| |done];
      unfold visitReturn; destruct (er s') eqn:He; try done; intros [= <- <-];
      by apply Hloop.
  - split; [by intros inc e inc'|]. intros elems' [= <-].
    eapply Forall_impl; [exact IH|]. by intros x [Hx _].
Qed.

Lemma marshalManyLoop_errs models data inc e inc' :
  marshalManyLoop models data inc = Failed e inc' → isVisitError e.
Proof.
  revert data inc. induction models as [|m models IH]; intros data inc; simpl; [done|].
  destruct (visitModelNode m inc true) as [n inc1|e1 inc1|] eqn:Hv; [apply IH| |done].
  intros [= <- <-]. by eapply (proj1 (visitModelNode_errs true m)).
Qed.

Lemma marshalMany_errs models meta e :
  marshalMany models meta = Err e → isVisitError e.
Proof.
  unfold marshalMany.
  destruct (marshalManyLoop models None ∅) as [data inc|e1 inc|] eqn:Hloop; [| |done].
  - destruct meta as [meta|]; [|done].
    destruct (visitMetaNode meta) as [node|e1|] eqn:Hmeta; try done.
    intros [= <-]. left. destruct meta as [| | | | | |t| |fields| |]; try discriminate.
    + by destruct t.
    + unfold visitMetaNode in Hmeta.
      pose proof (visitMetaFields_error fields (mkMetaFrame ∅ None)) as Hm.
      destruct (visitMetaFields fields _) as [s'|s'|]; [| |done].
      * simpl in Hm. by rewrite Hm in Hmeta.
      * destruct Hm as [Hm _]. rewrite Hm in Hmeta. by injection Hmeta as <-.
  - intros [= <-]. by eapply marshalManyLoop_errs.
Qed.

(** X10: a visit returns no error but [ErrBadJSONAPIStructTag] and
    [ErrBadJSONAPIID], at any depth; and the writers of many records
    return [ErrExpectedSlice] exactly when their argument is not of kind
    slice, whatever the records and the meta object are. *)
Theorem X10_expected_slice_exactly_for_non_slices :
  (∀ model inc sideload e inc',
     visitModelNode model inc sideload = Failed e inc' → isVisitError e)
  ∧ (∀ models, MarshalManyPayload models = Err ErrExpectedSlice
               ↔ isSliceKind models = false)
  ∧ (∀ models meta, MarshalManyPayloadWithMeta models meta = Err ErrExpectedSlice
                    ↔ isSliceKind models = false).
Proof.
  split_and!.
  - intros model inc sideload. apply (proj1 (visitModelNode_errs sideload model)).
  - intros models. unfold MarshalManyPayload, MarshalMany.
    destruct models; simpl; try done;
      (split; [|done]); intros H; apply marshalMany_errs in H as [H|H]; discriminate.
  - intros models meta. unfold MarshalManyPayloadWithMeta.
    destruct models; simpl; try done;
      (split; [|done]); intros H; apply marshalMany_errs in H as [H|H]; discriminate.
Qed.

Lemma X10_witness :
  visitModelNode (VStructPtr [("primary,posts", VBool true)]) ∅ true
    = Failed ErrBadJSONAPIID ∅
  ∧ isVisitError ErrBadJSONAPIID.
Proof.
  assert (visitModelNode (VStructPtr [("primary,posts", VBool true)]) ∅ true
          = Failed ErrBadJSONAPIID ∅) as H by (vm_compute; reflexivity).
  split; [exact H|].
  exact (proj1 X10_expected_slice_exactly_for_non_slices _ _ _ _ _ H).
Defined.

(** ** The epoch-millisecond decoder on any text *)

Lemma ParseInt_range s v : ParseInt s = inr v → minInt64 <= v <= maxInt64.
Proof.
  unfold ParseInt, minInt64, maxInt64. destruct s as [|c s]; [done|].
  destruct (NilZero.uint_of_string _) as [d|]; [|done].
  assert (0 <= Z.of_uint d) as Hpos by (unfold Z.of_uint; lia).
  destruct (Ascii.eqb c "-"); simpl negb; simpl andb; cbv iota.
  - destruct (2 ^ 63 <? Z.of_uint d)%Z eqn:Hlt; [done|].
    apply Z.ltb_ge in Hlt. intros [= <-]. lia.
  - destruct (2 ^ 63 <=? Z.of_uint d)%Z eqn:Hle; [done|].
    apply Z.leb_gt in Hle. intros [= <-]. lia.
Qed.

(** X11: whatever text the epoch-millisecond decoder accepts (a sign, or
    zeros in front, included), the time it stores is fixed by the number
    read alone, not by the local zone or the time stored before: that
    number of milliseconds after the epoch, rounded towards the past to
    the second and the millisecond within it, in UTC.  When the number is
    at most 9223372036854 in magnitude, writing that time and reading the
    text back stores the same time again. *)
Theorem X11_unix_milli_decoded_time :
  ∀ (local : Z -> Z) (t0 t : Time) (data : string),
    data ≠ "null" →
    UnixMilli_UnmarshalJSON local t0 data = (t, None) →
    ∃ v, ParseInt data = inr v
         ∧ t = mkTime (v / 1000) (v mod 1000 * Millisecond) UTC
         ∧ (-9223372036854 <= v <= 9223372036854 →
            ∀ local' t1,
              UnixMilli_UnmarshalJSON local' t1 (UnixMilli_MarshalJSON t) = (t, None)).
Proof.
  intros local t0 t data Hnull. unfold UnixMilli_UnmarshalJSON at 1.
  rewrite bool_decide_eq_false_2 by done.
  destruct (ParseInt data) as [e|v] eqn:Hparse; [done|].
  pose proof (ParseInt_range _ _ Hparse) as Hv.
  rewrite time_Unix_of_millis by done. intros [= <-].
  exists v. split_and!; [done..|].
  intros Hms local' t1. rewrite UnixMilli_MarshalJSON_of_millis by done.
  by rewrite UnixMilli_UnmarshalJSON_FormatInt.
Qed.

Lemma X11_witness :
  ∃ v, ParseInt "+0012" = inr v
       ∧ mkTime 0 12000000 UTC = mkTime (v / 1000) (v mod 1000 * Millisecond) UTC
       ∧ (-9223372036854 <= v <= 9223372036854 →
          ∀ local' t1,
            UnixMilli_UnmarshalJSON local' t1 (UnixMilli_MarshalJSON (mkTime 0 12000000 UTC))
            = (mkTime 0 12000000 UTC, None)).
Proof.
  apply (X11_unix_milli_decoded_time (λ _, 3600) zeroTime (mkTime 0 12000000 UTC) "+0012").
  - discriminate.
  - vm_compute. reflexivity.
Defined.

(** ** The linkage of a relationship *)

(** The pass over a relationship field. *)
Lemma visitField_relation visit tag name rest v s sideload :
  Split tag "," = "relation" :: name :: rest →
  visitField visit (tag, v) s sideload =
    match v with
    | VNilSlice | VSlice [] => Next s
    | VSlice models =>
        let s := makeRelationships s in
        match visitModelNodeRelationships visit name models (included s) sideload with
        | Done d inc =>
            if sideload then
              Next (setRel (withIncluded s (fold_left appendIncluded d inc)) name
                           (RelationshipManyNode (map toShallowNode d)))
            else Next (setRel (withIncluded s inc) name (RelationshipManyNode d))
        | Failed err inc => Break (withEr (withIncluded s inc) err)
        | Panicked => Crash
        end
    | VNilPtr | VTimePtr None => Next s
    | VStructPtr _ | VTimePtr (Some _) =>
        let s := makeRelationships s in
        match visit v (included s) sideload with
        | Done relationship inc =>
            if sideload then
              Next (setRel (withIncluded s (appendIncluded inc relationship)) name
                           (RelationshipOneNode (toShallowNode relationship)))
            else Next (setRel (withIncluded s inc) name (RelationshipOneNode relationship))
        | Failed err inc => Break (withEr (withIncluded s inc) err)
        | Panicked => Crash
        end
    | _ => Crash
    end.
Proof.
  intros Hsplit. pose proof (Split_two_tag_nonempty _ _ _ _ Hsplit) as Hne.
  unfold visitField. rewrite Hsplit, bool_decide_eq_false_2 by done.
  cbn [length Nat.ltb Nat.leb Nat.eqb arg nth negb andb orb].
  change (bool_decide ("relation" = clientIDAnnotation)) with false.
  change (bool_decide ("relation" = "primary")) with false.
  change (bool_decide ("relation" = "attr")) with false.
  change (bool_decide ("relation" = "relation")) with true.
  cbn [negb andb orb]. reflexivity.
Qed.

(** Only a relationship field of that wire name changes what a name is
    linked to. *)
Lemma visitField_rel_frame visit f s sideload s' name :
  ¬ writesRel name f →
  visitField visit f s sideload = Next s' →
  relOf (node s') name = relOf (node s) name.
Proof.
  destruct f as [tag v]. intros Hw. unfold visitField.
  case_bool_decide; [by intros [= <-]|].
  destruct (Split tag ",") as [|a [|b rest]] eqn:Hsplit.
  - by destruct (Split_nonempty tag ",").
  - cbn [length Nat.ltb Nat.leb Nat.eqb arg nth negb andb orb].
    destruct (decide (a = clientIDAnnotation)) as [->|Hc].
    + change (bool_decide (clientIDAnnotation = clientIDAnnotation)) with true.
      change (bool_decide (clientIDAnnotation = "primary")) with false.
      cbn [negb andb orb]. case_bool_decide; by intros [= <-].
    + rewrite (bool_decide_eq_false_2 _ Hc). discriminate.
  - cbn [length Nat.ltb Nat.leb Nat.eqb arg nth negb andb orb].
    destruct (decide (a = clientIDAnnotation)) as [->|Hc]; [discriminate|].
    rewrite !(bool_decide_eq_false_2 _ Hc). cbn [negb andb orb].
    destruct (decide (a = "primary")) as [->|Hp].
    { intros [= <-]. by destruct v. }
    rewrite (bool_decide_eq_false_2 _ Hp).
    destruct (decide (a = "attr")) as [->|Hattr].
    { change (bool_decide ("attr" = "attr")) with true. cbn iota.
      by destruct (attrValue v _) as [[x|]|]; intros [= <-]. }
    rewrite (bool_decide_eq_false_2 _ Hattr).
    case_bool_decide as Hrel; [|discriminate]. subst a.
    assert (b ≠ name) as Hb.
    { intros ->. apply Hw. by exists rest. }
    destruct v as [| | | | | |[?|]| | | |[|??]]; try discriminate;
      try (by intros [= <-]).
    + destruct (visit _ _ _); try discriminate.
      destruct sideload; intros [= <-]; unfold relOf, setRel; simpl;
        by rewrite lookup_insert_ne.
    + destruct (visit _ _ _); try discriminate.
      destruct sideload; intros [= <-]; unfold relOf, setRel; simpl;
        by rewrite lookup_insert_ne.
    + destruct (visitModelNodeRelationships _ _ _ _ _); try discriminate.
      destruct sideload; intros [= <-]; unfold relOf, setRel; simpl;
        by rewrite lookup_insert_ne.
Qed.

Lemma visitFields_rel_frame visit fields s sideload s' name :
  Forall (λ f, ¬ writesRel name f) fields →
  visitFields visit fields s sideload = Next s' →
  relOf (node s') name = relOf (node s) name.
Proof.
  intros Hall. revert s. induction Hall as [|f fields Hf _ IH]; intros s; simpl.
  - by intros [= <-].
  - destruct (visitField visit f s sideload) as [s1| |] eqn:Hstep; try discriminate.
    intros Hrest. rewrite (IH _ Hrest). by eapply visitField_rel_frame.
Qed.

(** The node of a visit, in either mode, against the embedded marshal. *)
Lemma embeddedRootOf_visit model inc sideload n inc' :
  visitModelNode model inc sideload = Done n inc' →
  ∃ r, embeddedRootOf model r ∧ n = inMode sideload r.
Proof.
  intros Hv. pose proof (proj1 (visitModelNode_agrees sideload model) inc ∅) as H.
  rewrite Hv in H. unfold embeddedRootOf, MarshalOnePayloadEmbedded.
  destruct (visitModelNode model ∅ false) as [r i| |]; try done.
  exists r. by split.
Qed.

Lemma visitEach_roots models nodes inc sideload d inc' :
  visitEach visitModelNode models nodes inc sideload = Done d inc' →
  ∃ roots, Forall2 embeddedRootOf models roots
           ∧ d = (nodes ++ map (inMode sideload) roots)%list.
Proof.
  revert nodes inc. induction models as [|m models IH]; intros nodes inc; simpl.
  - intros [= <- <-]. exists []. split; [constructor|by rewrite app_nil_r].
  - destruct (visitModelNode m inc sideload) as [n inc1| |] eqn:Hm; try discriminate.
    intros Hrest. destruct (IH _ _ Hrest) as (roots & Hroots & ->).
    destruct (embeddedRootOf_visit _ _ _ _ _ Hm) as (r & Hr & ->).
    exists (r :: roots). split; [by constructor|]. simpl. by rewrite <- app_assoc.
Qed.

(** X12: the linkage that a relationship field leaves in the node of its
    object.  For a non-empty slice it is the list linkage of the nodes
    of the slice's objects, one for each and in the slice's order (an
    object met twice is linked twice); for a single object it is the
    single linkage of that object's node.  The nodes are the roots that
    the embedded marshal returns for the objects alone, whole when
    embedding and cut down to type and id when sideloading.  Fields
    before the field do not matter; fields after it must not store under
    the same name. *)
Theorem X12_linkage_is_the_related_nodes_in_order :
  ∀ (tag name : string) (rest : list string) (pre post : list (string * Value))
    (v : Value) (inc inc' : gmap string Node) (sideload : bool) (n : Node),
    Split tag "," = "relation" :: name :: rest →
    Forall (λ f, ¬ writesRel name f) post →
    visitModelNode (VStructPtr (pre ++ (tag, v) :: post)) inc sideload = Done n inc' →
    (∀ m ms, v = VSlice (m :: ms) →
       ∃ roots, Forall2 embeddedRootOf (m :: ms) roots
                ∧ relOf n name = Some (RelationshipManyNode (map (linkNode sideload) roots)))
    ∧ (isScalar v = false → (∀ ms, v ≠ VSlice ms) →
       ∃ root, embeddedRootOf v root
               ∧ relOf n name = Some (RelationshipOneNode (linkNode sideload root))).
Proof.
  intros tag name rest pre post v inc inc' sideload n Hsplit Hpost Hdone.
  apply visitModelNode_Done_fields in Hdone as (sF & Hloop & <- & _ & _).
  rewrite visitFields_app in Hloop.
  destruct (visitFields _ pre _ _) as [s1| |] eqn:H1; try discriminate.
  cbn [visitFields] in Hloop. rewrite (visitField_relation _ _ _ _ _ _ _ Hsplit) in Hloop.
  split.
  - intros m ms ->. cbv zeta in Hloop. unfold visitModelNodeRelationships in Hloop.
    destruct (visitEach _ _ _ _ _) as [d i| |] eqn:Heach; try discriminate.
    destruct (visitEach_roots _ _ _ _ _ _ Heach) as (roots & Hroots & ->).
    exists roots. split; [done|]. simpl app in Hloop.
    destruct sideload; rewrite (visitFields_rel_frame _ _ _ _ _ _ Hpost Hloop);
      unfold relOf, setRel; simpl; rewrite lookup_insert_eq; do 2 f_equal.
    rewrite map_map. apply map_ext. intros r. apply (toShallowNode_inMode true).
  - intros Hv Hnoslice.
    assert (∃ s2 r i, visitModelNode v (included (makeRelationships s1)) sideload = Done r i
                      ∧ visitFields visitModelNode post s2 sideload = Next sF
                      ∧ relOf (node s2) name
                        = Some (RelationshipOneNode (linkNode sideload r))) as Hone.
    { destruct v as [| | | | | |[t|]| |fields| |ms]; try discriminate;
        try (by destruct (Hnoslice ms)); cbv zeta in Hloop;
        (destruct (visitModelNode _ _ _) as [r i| |] eqn:Hv'; try discriminate);
        destruct sideload;
        (eexists _, r, i; split; [reflexivity|]); (split; [exact Hloop|]);
        unfold relOf, setRel; simpl; by rewrite lookup_insert_eq. }
    destruct Hone as (s2 & r & i & Hv' & Hrest & Hrel).
    destruct (embeddedRootOf_visit _ _ _ _ _ Hv') as (r0 & Hr0 & ->).
    exists r0. split; [done|].
    rewrite (visitFields_rel_frame _ _ _ _ _ _ Hpost Hrest), Hrel. do 2 f_equal.
    destruct sideload; [apply (toShallowNode_inMode true)|done].
Qed.

Lemma X12_witness :
  ∃ roots, Forall2 embeddedRootOf [exampleAnimal; exampleAnimal] roots
           ∧ relOf exampleOwnerVisit.1 "pets"
             = Some (RelationshipManyNode (map (linkNode true) roots)).
Proof.
  assert (visitModelNode
            (VStructPtr ([("primary,people", VString "1")]
                         ++ ("relation,pets", VSlice [exampleAnimal; exampleAnimal]) :: []))
            ∅ true
          = Done exampleOwnerVisit.1 exampleOwnerVisit.2) as Hdone
    by (vm_compute; reflexivity).
  exact (proj1 (X12_linkage_is_the_related_nodes_in_order
                  "relation,pets" "pets" [] [("primary,people", VString "1")] []
                  (VSlice [exampleAnimal; exampleAnimal]) ∅ exampleOwnerVisit.2 true
                  exampleOwnerVisit.1 eq_refl (List.Forall_nil _) Hdone)
               exampleAnimal [exampleAnimal] eq_refl).
Defined.

(** ** The included map, key by key *)

Lemma appendIncluded_at k inc1 inc2 n :
  inc1 !! k = inc2 !! k → appendIncluded inc1 n !! k = appendIncluded inc2 n !! k.
Proof.
  intros Hk. unfold appendIncluded. destruct (decide (k = includedKey n)) as [->|Hne].
  - rewrite <- Hk. destruct (inc1 !! includedKey n) eqn:H1; [by rewrite H1|].
    by rewrite !lookup_insert_eq.
  - destruct (inc1 !! includedKey n), (inc2 !! includedKey n);
      rewrite ?lookup_insert_ne by done; done.
Qed.

Lemma fold_appendIncluded_at k d inc1 inc2 :
  inc1 !! k = inc2 !! k →
  fold_left appendIncluded d inc1 !! k = fold_left appendIncluded d inc2 !! k.
Proof.
  revert inc1 inc2. induction d as [|n d IH]; intros inc1 inc2 Hk; simpl; [done|].
  by apply IH, appendIncluded_at.
Qed.

Lemma visitEach_at visit k models nodes inc1 inc2 :
  Forall (visitAt visit) models →
  inc1 !! k = inc2 !! k →
  sameAt k (visitEach visit models nodes inc1 true) (visitEach visit models nodes inc2 true).
Proof.
  intros Hmodels. revert nodes inc1 inc2.
  induction Hmodels as [|m models Hm _ IH]; intros nodes inc1 inc2 Hk; simpl; [done|].
  specialize (Hm k inc1 inc2 Hk).
  destruct (visit m inc1 true) as [n1 i1|e1 i1|],
           (visit m inc2 true) as [n2 i2|e2 i2|]; try done.
  destruct Hm as [-> Hi]. by apply IH.
Qed.

Lemma visitField_at visit k tag v s1 s2 :
  visitAt visit v →
  (∀ elems, v = VSlice elems → Forall (visitAt visit) elems) →
  sameFrameAt k s1 s2 →
  sameStepAt k (visitField visit (tag, v) s1 true) (visitField visit (tag, v) s2 true).
Proof.
  intros Hself Helems (Hnode & Her & Hinc). unfold visitField.
  case_bool_decide; [done|].
  destruct (_ <? _)%nat; [done|].
  destruct (_ || _); [done|].
  case_bool_decide.
  { destruct v; split_and!; simpl; by rewrite ?Hnode. }
  case_bool_decide.
  { destruct (bool_decide (reflectString v = "")); [done|].
    split_and!; simpl; by rewrite ?Hnode. }
  case_bool_decide.
  { destruct (attrValue v _) as [[a|]|]; [| |done];
      split_and!; simpl; by rewrite ?Hnode. }
  case_bool_decide; [|done].
  destruct v as [| | | | | |[t|]| |fields| |[|m models]]; try done.
  - specialize (Hself k (included (makeRelationships s1)) (included (makeRelationships s2)) Hinc).
    destruct (visit _ (included (makeRelationships s1)) true) as [n1 i1|e1 i1|],
             (visit _ (included (makeRelationships s2)) true) as [n2 i2|e2 i2|];
      try done; destruct Hself as [-> Hi];
      split_and!; simpl; rewrite ?Hnode; try done.
    by apply appendIncluded_at.
  - specialize (Hself k (included (makeRelationships s1)) (included (makeRelationships s2)) Hinc).
    destruct (visit _ (included (makeRelationships s1)) true) as [n1 i1|e1 i1|],
             (visit _ (included (makeRelationships s2)) true) as [n2 i2|e2 i2|];
      try done; destruct Hself as [-> Hi];
      split_and!; simpl; rewrite ?Hnode; try done.
    by apply appendIncluded_at.
  - pose proof (visitEach_at visit k (m :: models) []
                  (included (makeRelationships s1)) (included (makeRelationships s2))
                  (Helems _ eq_refl) Hinc) as Hloop.
    unfold visitModelNodeRelationships.
    destruct (visitEach visit (m :: models) [] (included (makeRelationships s1)) true)
      as [d1 i1|e1 i1|],
      (visitEach visit (m :: models) [] (included (makeRelationships s2)) true)
      as [d2 i2|e2 i2|]; try done; destruct Hloop as [-> Hi];
      split_and!; simpl; rewrite ?Hnode; try done.
    by apply fold_appendIncluded_at.
Qed.

Lemma visitFields_at visit k fields s1 s2 :
  Forall (λ f, visitAt visit f.2
               ∧ ∀ elems, f.2 = VSlice elems → Forall (visitAt visit) elems) fields →
  sameFrameAt k s1 s2 →
  sameStepAt k (visitFields visit fields s1 true) (visitFields visit fields s2 true).
Proof.
  intros Hfields. revert s1 s2.
  induction Hfields as [|[tag v] fields [Hv Hel] _ IH]; intros s1 s2 Hs;
    cbn [visitFields]; [done|].
  pose proof (visitField_at visit k tag v s1 s2 Hv Hel Hs) as Hstep.
  destruct (visitField visit (tag, v) s1 true) as [s1'|s1'|],
           (visitField visit (tag, v) s2 true) as [s2'|s2'|]; try done.
  by apply IH.
Qed.

Lemma visitModelNode_at v :
  visitAt visitModelNode v
  ∧ ∀ elems, v = VSlice elems → Forall (visitAt visitModelNode) elems.
Proof.
  induction v as [s|n|n|n|b|t|t| |fields IH| |elems IH] using Value_nested_ind;
    try (split; [by intros k inc1 inc2|by intros elems' [=]]).
  - split; [|by intros elems' [=]]. intros k inc1 inc2 Hk. by destruct t as [t|].
  - split; [|by intros elems' [=]]. intros k inc1 inc2 Hk.
    pose proof (visitFields_at visitModelNode k fields
                  (mkFrame newNode None inc1) (mkFrame newNode None inc2) IH
                  (conj eq_refl (conj eq_refl Hk))) as Hloop.
    cbn [visitModelNode].
    destruct (visitFields visitModelNode fields (mkFrame newNode None inc1) true) as [s1|s1|],
             (visitFields visitModelNode fields (mkFrame newNode None inc2) true) as [s2|s2|];
      try done; destruct Hloop as (Hn & He & Hi); unfold visitReturn; rewrite He;
      by destruct (er s2).
  - split; [by intros k inc1 inc2|]. intros elems' [= <-].
    eapply Forall_impl; [exact IH|]. by intros x [Hx _].
Qed.

Lemma elem_of_nodeMapValues n (m : gmap string Node) :
  n ∈ nodeMapValues m ↔ ∃ k, m !! k = Some n.
Proof.
  unfold nodeMapValues. rewrite list_elem_of_fmap. split.
  - intros ([k n'] & -> & Hin). exists k. by apply elem_of_map_to_list.
  - intros (k & Hk). exists (k, n). split; [done|]. by apply elem_of_map_to_list.
Qed.

(** What a visit adds to the included map it is given, against what
    [MarshalOne] includes for the same object. *)
Lemma visitModelNode_included_origin model inc n inc' :
  visitModelNode model inc true = Done n inc' →
  ∃ p, MarshalOne model = Ok p
       ∧ ∀ k x, inc' !! k = Some x → inc !! k = Some x ∨ x ∈ OneIncluded p.
Proof.
  intros Hv. unfold MarshalOne.
  destruct (visitModelNode model ∅ true) as [n0 i0|e0 i0|] eqn:H0.
  - eexists. split; [done|]. intros k x Hx. simpl.
    pose proof (proj1 (visitModelNode_mono true model) inc) as Hmono. rewrite Hv in Hmono.
    destruct (inc !! k) as [y|] eqn:Hk.
    + left. rewrite (lookup_weaken _ _ _ _ Hk Hmono) in Hx. done.
    + right. apply elem_of_nodeMapValues. exists k.
      pose proof (proj1 (visitModelNode_at model) k inc ∅) as Hat.
      rewrite Hk, lookup_empty, Hv, H0 in Hat. destruct (Hat eq_refl) as [_ <-]. done.
  - pose proof (visitModelNode_any_included model true inc ∅) as Hany.
    rewrite Hv, H0 in Hany. done.
  - pose proof (visitModelNode_any_included model true inc ∅) as Hany.
    rewrite Hv, H0 in Hany. done.
Qed.

Lemma marshalManyLoop_included models data inc data' inc' :
  marshalManyLoop models data inc = Done data' inc' →
  inc ⊆ inc'
  ∧ ∀ k x, inc' !! k = Some x →
      inc !! k = Some x
      ∨ ∃ m p, m ∈ models ∧ MarshalOne m = Ok p ∧ x ∈ OneIncluded p.
Proof.
  revert data inc. induction models as [|m models IH]; intros data inc; simpl.
  - intros [= <- <-]. split; [done|]. intros k x Hx. by left.
  - destruct (visitModelNode m inc true) as [n inc1|e inc1|] eqn:Hm; try discriminate.
    intros Hrest. destruct (IH _ _ Hrest) as [Hsub Horigin].
    pose proof (proj1 (visitModelNode_mono true m) inc) as Hmono. rewrite Hm in Hmono.
    split; [by etrans|]. intros k x Hx.
    destruct (Horigin k x Hx) as [Hold|(m' & p & Hin & Hp & Hxp)].
    + destruct (visitModelNode_included_origin _ _ _ _ Hm) as (p & Hp & Hfrom).
      destruct (Hfrom k x Hold) as [?|Hxp]; [by left|].
      right. exists m, p. split; [by left|done].
    + right. exists m', p. split; [by right|done].
Qed.

(** X13: what a many-marshal includes, against the single marshals of
    its models.  Every included resource of the collection is an
    included resource of [MarshalOne] on one of the models; and all that
    [MarshalOne] includes for the first model is included for the
    collection, the later models replacing nothing of it. *)
Theorem X13_many_included_comes_from_the_single_marshals :
  ∀ (models : list Value) (p : ManyPayload),
    MarshalMany models = Ok p →
    (∀ x, x ∈ ManyIncluded p →
       ∃ m p1, m ∈ models ∧ MarshalOne m = Ok p1 ∧ x ∈ OneIncluded p1)
    ∧ (∀ m rest p1, models = m :: rest → MarshalOne m = Ok p1 →
         ∀ x, x ∈ OneIncluded p1 → x ∈ ManyIncluded p).
Proof.
  intros models p. unfold MarshalMany, marshalMany.
  destruct (marshalManyLoop models None ∅) as [data inc|e inc|] eqn:Hloop; try discriminate.
  intros [= <-]. cbn [ManyIncluded]. split.
  - intros x (k & Hk)%elem_of_nodeMapValues.
    destruct (marshalManyLoop_included _ _ _ _ _ Hloop) as [_ Horigin].
    destruct (Horigin k x Hk) as [Hempty|?]; [|done]. by rewrite lookup_empty in Hempty.
  - intros m rest p1 -> Hp1 x Hx. simpl in Hloop. unfold MarshalOne in Hp1.
    destruct (visitModelNode m ∅ true) as [n inc1|e inc1|]; try discriminate.
    injection Hp1 as <-. simpl in Hx. apply elem_of_nodeMapValues in Hx as (k & Hk).
    destruct (marshalManyLoop_included _ _ _ _ _ Hloop) as [Hsub _].
    apply elem_of_nodeMapValues. exists k. by eapply lookup_weaken.
Qed.

Lemma X13_witness :
  MarshalMany [examplePerson; examplePerson] = Ok exampleManyPayload
  ∧ ∀ x, x ∈ ManyIncluded exampleManyPayload →
      ∃ m p1, m ∈ [examplePerson; examplePerson] ∧ MarshalOne m = Ok p1
              ∧ x ∈ OneIncluded p1.
Proof.
  assert (MarshalMany [examplePerson; examplePerson] = Ok exampleManyPayload) as Hp
    by (vm_compute; reflexivity).
  split; [exact Hp|].
  exact (proj1 (X13_many_included_comes_from_the_single_marshals
                  [examplePerson; examplePerson] exampleManyPayload Hp)).
Defined.

(** ** The included list against the objects reached *)

Lemma fold_appendIncluded_lookup ns inc k :
  fold_left appendIncluded ns inc !! k
  = match inc !! k with
    | Some x => Some x
    | None => find (λ x, bool_decide (includedKey x = k)) ns
    end.
Proof.
  revert inc. induction ns as [|n ns IH]; intros inc; simpl.
  - by destruct (inc !! k).
  - rewrite IH. unfold appendIncluded.
    destruct (inc !! includedKey n) as [y|] eqn:Hn.
    + destruct (inc !! k) as [x|] eqn:Hk; [done|].
      rewrite bool_decide_eq_false_2; [done|]. intros Heq. rewrite Heq in Hn. congruence.
    + destruct (decide (includedKey n = k)) as [Heq|Hne].
      * rewrite bool_decide_eq_true_2 by done. subst k. by rewrite lookup_insert_eq, Hn.
      * rewrite bool_decide_eq_false_2 by done. by rewrite lookup_insert_ne.
Qed.

Lemma fold_appendIncluded_app ns1 ns2 inc :
  fold_left appendIncluded (ns1 ++ ns2)%list inc
  = fold_left appendIncluded ns2 (fold_left appendIncluded ns1 inc).
Proof. apply fold_left_app. Qed.

Lemma visitEach_inserted models nodes inc d inc' :
  Forall insertsInOrder models →
  visitEach visitModelNode models nodes inc true = Done d inc' →
  ∃ ns d', Forall2 rootOf (flat_map inserted models) ns
           ∧ inc' = fold_left appendIncluded ns inc
           ∧ d = (nodes ++ d')%list ∧ Forall2 rootOf models d'.
Proof.
  intros Hmodels. revert nodes inc.
  induction Hmodels as [|m models Hm _ IH]; intros nodes inc; simpl.
  - intros [= <- <-]. exists [], []. by rewrite app_nil_r.
  - destruct (visitModelNode m inc true) as [n inc1| |] eqn:Hv; try discriminate.
    intros Hrest. destruct (IH _ _ Hrest) as (ns2 & d2 & Hns2 & -> & -> & Hd2).
    destruct (Hm _ _ _ Hv) as (ns1 & Hns1 & ->).
    exists (ns1 ++ ns2)%list, (n :: d2). split_and!.
    + by apply Forall2_app.
    + by rewrite fold_appendIncluded_app.
    + by rewrite <- app_assoc.
    + constructor; [by eapply rootOf_visit|done].
Qed.

Lemma visitField_inserted tag v s s' :
  insertsInOrder v →
  (∀ elems, v = VSlice elems → Forall insertsInOrder elems) →
  visitField visitModelNode (tag, v) s true = Next s' →
  ∃ ns, Forall2 rootOf (insertedOf inserted (tag, v)) ns
        ∧ included s' = fold_left appendIncluded ns (included s).
Proof.
  intros Hself Helems. unfold visitField, insertedOf.
  case_bool_decide as Htag.
  { subst tag. intros [= <-]. exists []. by split; [constructor|]. }
  destruct (_ <? _)%nat; [discriminate|].
  destruct (_ || _); [discriminate|].
  set (args := Split tag ",") in *.
  destruct (decide (arg args 0 = "relation")) as [Hr|Hr].
  - rewrite Hr. rewrite (bool_decide_eq_true_2 ("relation" = "relation")) by done.
    change (bool_decide ("relation" = "primary")) with false.
    change (bool_decide ("relation" = clientIDAnnotation)) with false.
    change (bool_decide ("relation" = "attr")) with false. cbv iota.
    destruct v as [| | | | | |[t|]| |fields| |[|m models]]; try discriminate;
      try (intros [= <-]; exists []; by split; [constructor|]).
    + destruct (visitModelNode _ _ _) as [rel inc1| |] eqn:Hv; try discriminate.
      intros [= <-]. destruct (Hself _ _ _ Hv) as (ns & Hns & ->).
      exists (ns ++ [rel])%list. split.
      * apply Forall2_app; [done|]. constructor; [by eapply rootOf_visit|constructor].
      * simpl. by rewrite fold_appendIncluded_app.
    + destruct (visitModelNode _ _ _) as [rel inc1| |] eqn:Hv; try discriminate.
      intros [= <-]. destruct (Hself _ _ _ Hv) as (ns & Hns & ->).
      exists (ns ++ [rel])%list. split.
      * apply Forall2_app; [done|]. constructor; [by eapply rootOf_visit|constructor].
      * simpl. by rewrite fold_appendIncluded_app.
    + unfold visitModelNodeRelationships.
      destruct (visitEach _ _ _ _ _) as [d inc1| |] eqn:Hv; try discriminate.
      intros [= <-].
      destruct (visitEach_inserted _ _ _ _ _ (Helems _ eq_refl) Hv)
        as (ns & d' & Hns & -> & -> & Hd).
      exists (ns ++ d')%list. split.
      * by apply Forall2_app.
      * simpl. by rewrite fold_appendIncluded_app.
  - rewrite !(bool_decide_eq_false_2 _ Hr).
    intros Hstep. exists []. split; [constructor|]. simpl.
    repeat case_bool_decide; try discriminate.
    all: try (injection Hstep as <-; by destruct v).
    all: destruct (attrValue v _) as [[a|]|]; try discriminate; by injection Hstep as <-.
Qed.

Lemma visitFields_inserted fields s s' :
  Forall (λ f, insertsInOrder f.2
               ∧ ∀ elems, f.2 = VSlice elems → Forall insertsInOrder elems) fields →
  visitFields visitModelNode fields s true = Next s' →
  ∃ ns, Forall2 rootOf (flat_map (insertedOf inserted) fields) ns
        ∧ included s' = fold_left appendIncluded ns (included s).
Proof.
  intros Hfields. revert s.
  induction Hfields as [|[tag v] fields [Hv Hel] _ IH]; intros s;
    cbn [visitFields flat_map].
  - intros [= <-]. exists []. by split; [constructor|].
  - destruct (visitField visitModelNode (tag, v) s true) as [s1| |] eqn:Hstep;
      try discriminate.
    intros Hrest. destruct (IH _ Hrest) as (ns2 & Hns2 & ->).
    destruct (visitField_inserted _ _ _ _ Hv Hel Hstep) as (ns1 & Hns1 & ->).
    exists (ns1 ++ ns2)%list. split; [by apply Forall2_app|].
    by rewrite fold_appendIncluded_app.
Qed.

Lemma visitModelNode_inserted v :
  insertsInOrder v ∧ ∀ elems, v = VSlice elems → Forall insertsInOrder elems.
Proof.
  induction v as [s|n|n|n|b|t|t| |fields IH| |elems IH] using Value_nested_ind;
    try (split; [by intros inc n' inc'|by intros elems' [=]]).
  - split; [|by intros elems' [=]]. intros inc n' inc'. destruct t as [t|]; [|done].
    intros [= <- <-]. exists []. by split; [constructor|].
  - split; [|by intros elems' [=]]. intros inc n' inc' Hdone.
    apply visitModelNode_Done_fields in Hdone as (sF & Hloop & _ & _ & <-).
    exact (visitFields_inserted _ _ _ IH Hloop).
  - split; [by intros inc n' inc'|]. intros elems' [= <-].
    eapply Forall_impl; [exact IH|]. by intros x [Hx _].
Qed.

Lemma marshalManyLoop_inserted models data inc data' inc' :
  marshalManyLoop models data inc = Done data' inc' →
  ∃ ns, Forall2 rootOf (flat_map inserted models) ns
        ∧ inc' = fold_left appendIncluded ns inc.
Proof.
  revert data inc. induction models as [|m models IH]; intros data inc; simpl.
  - intros [= <- <-]. exists []. by split; [constructor|].
  - destruct (visitModelNode m inc true) as [n inc1| |] eqn:Hv; try discriminate.
    intros Hrest. destruct (IH _ _ Hrest) as (ns2 & Hns2 & ->).
    destruct (proj1 (visitModelNode_inserted m) _ _ _ Hv) as (ns1 & Hns1 & ->).
    exists (ns1 ++ ns2)%list. split; [by apply Forall2_app|].
    by rewrite fold_appendIncluded_app.
Qed.

(** The type of a node that a marshal returns holds no comma. *)
Lemma rootOf_no_comma r n : rootOf r n → hasComma (Type_ n) = false.
Proof.
  intros (p & Hp & <-). unfold MarshalOne in Hp.
  pose proof (proj1 (visitModelNode_ok r) ∅ goodIncluded_empty) as Hok.
  destruct (visitModelNode r ∅ true) as [n inc| |]; try discriminate.
  injection Hp as <-. by destruct Hok as (_ & _ & [Hc _]).
Qed.

Lemma find_ext_Forall {A : Type} (p q : A → bool) (l : list A) :
  Forall (λ x, p x = q x) l → find p l = find q l.
Proof.
  induction 1 as [|x l Hx _ IH]; simpl; [done|]. rewrite Hx. by destruct (q x).
Qed.

Lemma filter_none {A : Type} (P : A → Prop) `{∀ x, Decision (P x)} (l : list A) :
  (∀ x, x ∈ l → ¬ P x) → filter P l = [].
Proof.
  induction l as [|a l IH]; intros Hno; [done|].
  rewrite filter_cons_False by (apply Hno; left).
  apply IH. intros x Hx. apply Hno. by right.
Qed.

Lemma filter_only {A B : Type} `{EqDecision B} (f : A → B) (l : list A) (x : A) :
  NoDup (f <$> l) → x ∈ l → filter (λ y, f y = f x) l = [x].
Proof.
  induction l as [|a l IH]; intros Hnd Hx; [by apply elem_of_nil in Hx|].
  rewrite fmap_cons in Hnd. apply NoDup_cons in Hnd as [Ha Hnd].
  apply elem_of_cons in Hx as [->|Hx].
  - rewrite filter_cons_True by done. f_equal. apply filter_none.
    intros y Hy Heq. apply Ha. rewrite <- Heq. by apply list_elem_of_fmap_2.
  - rewrite filter_cons_False; [by apply IH|].
    intros Heq. apply Ha. rewrite Heq. by apply list_elem_of_fmap_2.
Qed.

(** From the map built by the insertions to the list handed out. *)
Lemma Forall2_rootOf_elem reached ns n :
  Forall2 rootOf reached ns → n ∈ ns → ∃ r, r ∈ reached ∧ rootOf r n.
Proof.
  intros Hns [i Hi]%list_elem_of_lookup_1.
  destruct (Forall2_lookup_r _ _ _ _ _ Hns Hi) as (r & Hr & Hroot).
  exists r. split; [by eapply list_elem_of_lookup_2|done].
Qed.

Lemma keepsFirst_of_inserted reached ns :
  Forall2 rootOf reached ns →
  goodIncluded (fold_left appendIncluded ns ∅) →
  keepsFirst reached (nodeMapValues (fold_left appendIncluded ns ∅)).
Proof.
  intros Hns Hgood. exists ns. split; [done|]. intros t.
  set (inc := fold_left appendIncluded ns ∅) in *.
  assert (∀ x, x ∈ ns → hasComma (Type_ x) = false) as Hcomma.
  { intros x Hx. destruct (Forall2_rootOf_elem _ _ _ Hns Hx) as (r & _ & Hroot).
    by eapply rootOf_no_comma. }
  assert (NoDup (typeID <$> nodeMapValues inc)) as Hnd
    by apply (deduplicated_of_good [] inc Hgood (Forall_nil_2 _)).
  destruct (find (λ x, bool_decide (typeID x = t)) ns) as [x|] eqn:Hfind.
  - pose proof (find_some _ _ Hfind) as [Hin Ht].
    apply list_elem_of_In in Hin. apply bool_decide_eq_true in Ht. subst t.
    assert (inc !! includedKey x = Some x) as Hx.
    { unfold inc. rewrite fold_appendIncluded_lookup, lookup_empty, <- Hfind.
      apply find_ext_Forall, Forall_forall. intros y Hy.
      apply bool_decide_ext. split.
      - apply includedKey_inj; by apply Hcomma.
      - unfold typeID, includedKey. by intros [= -> ->]. }
    simpl. apply (filter_only typeID); [done|].
    apply elem_of_nodeMapValues. by exists (includedKey x).
  - simpl. apply filter_none. intros n Hn Ht.
    apply elem_of_nodeMapValues in Hn as (k & Hk).
    destruct (Hgood k n Hk) as [-> _].
    unfold inc in Hk. rewrite fold_appendIncluded_lookup, lookup_empty in Hk.
    apply find_some in Hk as [Hin _].
    pose proof (find_none _ _ Hfind n Hin) as Hno. simpl in Hno.
    by rewrite bool_decide_eq_true_2 in Hno.
Qed.

Lemma eachOnce_of_keepsFirst reached incl :
  keepsFirst reached incl → eachOnce reached incl.
Proof.
  intros (ns & Hns & Hkept) r [i Hi]%list_elem_of_lookup_1.
  destruct (Forall2_lookup_l _ _ _ _ _ Hns Hi) as (nr & Hnr & Hroot).
  apply list_elem_of_lookup_2 in Hnr.
  specialize (Hkept (typeID nr)).
  destruct (find (λ x, bool_decide (typeID x = typeID nr)) ns) as [n|] eqn:Hfind.
  - apply find_some in Hfind as [Hin _]. apply list_elem_of_In in Hin.
    destruct (Forall2_rootOf_elem _ _ _ Hns Hin) as (r' & Hr' & Hroot').
    by exists nr, n, r'.
  - apply list_elem_of_In in Hnr. pose proof (find_none _ _ Hfind nr Hnr) as Hno.
    simpl in Hno. by rewrite bool_decide_eq_true_2 in Hno.
Qed.

Lemma MarshalOne_sideloadedOnce model p :
  MarshalOne model = Ok p →
  sideloadedOnce [OneData p] (inserted model) (OneIncluded p).
Proof.
  intros Hp. split; [exact (MarshalOne_deduplicated _ _ Hp)|].
  assert (keepsFirst (inserted model) (OneIncluded p)) as Hkept.
  { unfold MarshalOne in Hp.
    pose proof (proj1 (visitModelNode_ok model) ∅ goodIncluded_empty) as Hok.
    destruct (visitModelNode model ∅ true) as [n inc| |] eqn:Hv; try discriminate.
    injection Hp as <-. destruct Hok as (Hgood & _ & _).
    destruct (proj1 (visitModelNode_inserted model) _ _ _ Hv) as (ns & Hns & ->).
    by apply keepsFirst_of_inserted. }
  split; [done|by apply eachOnce_of_keepsFirst].
Qed.

Lemma MarshalMany_sideloadedOnce models p :
  MarshalMany models = Ok p →
  sideloadedOnce (default [] (ManyData p)) (flat_map inserted models) (ManyIncluded p).
Proof.
  intros Hp. split; [exact (MarshalMany_deduplicated _ _ Hp)|].
  assert (keepsFirst (flat_map inserted models) (ManyIncluded p)) as Hkept.
  { unfold MarshalMany, marshalMany in Hp.
    pose proof (marshalManyLoop_ok models None ∅ goodIncluded_empty (Forall_nil_2 _)) as Hok.
    destruct (marshalManyLoop models None ∅) as [data inc| |] eqn:Hloop; try discriminate.
    injection Hp as <-. destruct Hok as [Hgood _].
    destruct (marshalManyLoop_inserted _ _ _ _ _ Hloop) as (ns & Hns & ->).
    by apply keepsFirst_of_inserted. }
  split; [done|by apply eachOnce_of_keepsFirst].
Qed.

(** C1, as stated, fails in what it says of the instance kept.  The
    owner's list of pets holds Rex, of type animals and id 7, and then
    Tom, whose friend Max is of type animals and id 7 too.  Rex is visited
    first; the one node of (animals, 7) in the included list is Max: the
    nodes of a list are inserted after all its elements have been visited,
    and Max was inserted during the visit of Tom. *)
Lemma C1_counterexample :
  visited exampleKennel = [exampleRex; exampleTom; exampleMax]
  ∧ MarshalOne exampleKennel = Ok exampleKennelPayload
  ∧ (∃ n, filter (λ x, typeID x = ("animals", "7")) (OneIncluded exampleKennelPayload) = [n]
          ∧ attrOf n "name" = Some (Some (VString "Max")))
  ∧ ¬ keepsFirst (visited exampleKennel) (OneIncluded exampleKennelPayload).
Proof.
  assert (visited exampleKennel = [exampleRex; exampleTom; exampleMax]) as Hvisited
    by (vm_compute; reflexivity).
  assert (∃ n, filter (λ x, typeID x = ("animals", "7"))
                      (OneIncluded exampleKennelPayload) = [n]
               ∧ attrOf n "name" = Some (Some (VString "Max"))) as Hmax.
  { exists (hd newNode (filter (λ x, typeID x = ("animals", "7"))
                               (OneIncluded exampleKennelPayload))).
    split; vm_compute; reflexivity. }
  split_and!; [exact Hvisited|vm_compute; reflexivity|exact Hmax|].
  rewrite Hvisited. intros (ns & Hns & Hkept).
  destruct Hmax as (n & Hn & Hname).
  specialize (Hkept ("animals", "7")). rewrite Hn in Hkept.
  apply Forall2_cons_inv_l in Hns as (a & ns' & (p & Hp & <-) & _ & ->).
  assert (p = mkOnePayload exampleRexNode []) as ->.
  { assert (MarshalOne exampleRex = Ok (mkOnePayload exampleRexNode [])) as Hrex
      by (vm_compute; reflexivity).
    congruence. }
  cbn [find OneData] in Hkept.
  rewrite bool_decide_eq_true_2 in Hkept by (vm_compute; reflexivity).
  injection Hkept as ->.
  vm_compute in Hname. discriminate Hname.
Qed.

(** C1, amended: in every sideloading marshal that returns a payload,
    every relationship linkage, of a root or of an included node, is a
    reference with type and id only that an included node resolves; no
    two included nodes have the same (type, id); every related object
    reached, at any depth, has exactly one node of its (type, id) in the
    included list, and every included node is the node of an object
    reached.  The node kept for a (type, id) is that of the first object
    of that (type, id) in insertion order: a single related object is
    inserted when its visit has returned, the elements of a list only
    after all of them have been visited.  A later node of the same key is
    dropped, and no visit changes an entry already there. *)
Theorem C1_sideloaded_resources_are_deduplicated :
  (∀ model p, MarshalOne model = Ok p →
     sideloadedOnce [OneData p] (inserted model) (OneIncluded p))
  ∧ (∀ model p, MarshalOnePayload model = Ok p →
       sideloadedOnce [OneData p] (inserted model) (OneIncluded p))
  ∧ (∀ models p, MarshalMany models = Ok p →
       sideloadedOnce (default [] (ManyData p)) (flat_map inserted models)
                      (ManyIncluded p))
  ∧ (∀ models p, MarshalManyPayload models = Ok p →
       ∃ ms, convertToSliceInterface models = Ok ms
             ∧ sideloadedOnce (default [] (ManyData p)) (flat_map inserted ms)
                              (ManyIncluded p))
  ∧ (∀ inc n, is_Some (inc !! includedKey n) → appendIncluded inc n = inc)
  ∧ (∀ model inc sideload,
       match visitModelNode model inc sideload with
       | Done _ inc' | Failed _ inc' => inc ⊆ inc'
       | Panicked => True
       end).
Proof.
  split_and!.
  - apply MarshalOne_sideloadedOnce.
  - apply MarshalOne_sideloadedOnce.
  - apply MarshalMany_sideloadedOnce.
  - intros models p. unfold MarshalManyPayload.
    destruct (convertToSliceInterface models) as [ms| |]; [|done..].
    intros Hp. exists ms. split; [done|]. by apply MarshalMany_sideloadedOnce.
  - apply appendIncluded_taken.
  - intros model inc sideload. apply (proj1 (visitModelNode_mono sideload model)).
Qed.

Lemma C1_witness :
  MarshalOne examplePerson = Ok examplePayload
  ∧ sideloadedOnce [OneData examplePayload] (inserted examplePerson)
                   (OneIncluded examplePayload)
  ∧ ∃ n, filter (λ m, typeID m = ("animals", "7")) (OneIncluded examplePayload) = [n]
         ∧ attrOf n "name" = Some (Some (VString "Rex")).
Proof.
  assert (MarshalOne examplePerson = Ok examplePayload) as Hp by (by vm_compute).
  split; [exact Hp|]. split.
  - exact (proj1 C1_sideloaded_resources_are_deduplicated examplePerson examplePayload Hp).
  - exists (hd newNode (filter (λ m, typeID m = ("animals", "7"))
                                (OneIncluded examplePayload))).
    split; by vm_compute.
Defined.
